(** * GoMad: the molecular-mechanics core, embedded in Rocq

    A shallow embedding of [functions.go] and [unbonded.go]: 3-vector
    geometry, the bonded force formulas, the Verlet neighbour list, the
    non-bonded energy and force formulas, and the steepest-descent minimizer.

    Conventions.
    - [float64] values are modelled by the real numbers [R] (exact real
      arithmetic); [math.Sqrt], [math.Sin], [math.Cos] and [math.Pow r 6]
      become [sqrt], [sin], [cos] and [r ^ 6].  This is the program up to
      rounding wherever it divides by no zero.  Where a denominator
      vanishes the program yields an infinity or NaN, which no real number
      stands for: statements about numbers carry the hypotheses that keep
      the denominators away from zero, and module [F64] at the end of the
      definitions gives the special values for the routine that divides
      zero by zero on every input ([CalculateAngleForce]).
    - Go's [int] is the two's-complement integer of the platform, 64 bits
      wide on the usual targets: a [Z] together with its wrap-around
      ([Int.wrap]).
    - [*Atom] is a location in a store of atoms.  Atoms are the only
      objects that the modelled code mutates ([SteepestDescent]) or compares
      by identity ([BuildVerlet]); residues and proteins are only read or
      freshly built, so they are carried by value.  Dereferencing a location
      that holds no atom models the nil-pointer panic and yields [None].
    - Functions that only read the fields of their [*Atom] arguments
      (the force formulas) take the atom records themselves. *)

From Stdlib Require Import Reals Lra ZArith Ascii.
From stdpp Require Import gmap strings list fin_maps.
From Equations Require Import Equations.

Local Open Scope R_scope.

(** ** Machine integers *)

Module Int.
Definition bits : Z := 64.
Definition modulus : Z := 2 ^ bits.
Definition min_int : Z := - 2 ^ (bits - 1).
Definition max_int : Z := 2 ^ (bits - 1) - 1.

(** Reduction of a mathematical integer to the representable range. *)
Definition wrap (n : Z) : Z := ((n - min_int) mod modulus + min_int)%Z.

Definition add (a b : Z) : Z := wrap (a + b).
Definition sub (a b : Z) : Z := wrap (a - b).

Definition in_range (n : Z) : Prop := (min_int <= n <= max_int)%Z.
End Int.

(** ** Data model *)

Record TriTuple : Type := mkTriTuple { x : R; y : R; z : R }.

Definition loc : Type := positive.

Record Atom : Type := mkAtom {
  index : Z;
  position : TriTuple;
  velocity : TriTuple;
  force : TriTuple;
  accelerated : TriTuple;
  mass : R;
  element : string;
  charge : R
}.

(** [Residue.Atoms] is a [[]*Atom]; [Protein.Residue] is a [[]*Residue]. *)
Record Residue : Type := mkResidue {
  Residue_Name : string;
  ID : Z;
  ChainID : string;
  Atoms : list loc
}.

Record Protein : Type := mkProtein {
  Name : string;
  Protein_Residue : list Residue
}.

Abbreviation heap := (gmap loc Atom).

(** The neighbour map is keyed by atom identity ([map[*Atom][]*Atom]). *)
Record VerletList : Type := mkVerletList {
  Neighbors : gmap loc (list loc);
  Cutoff : R;
  Buffer : R
}.

(** ** Vector algebra ([functions.go]) *)

Definition Distance (p1 p2 : TriTuple) : R :=
  let deltaX := x p1 - x p2 in
  let deltaY := y p1 - y p2 in
  let deltaZ := z p1 - z p2 in
  sqrt (deltaX * deltaX + deltaY * deltaY + deltaZ * deltaZ).

Definition BuildNormalVector (vector1 vector2 : TriTuple) : TriTuple :=
  {| x := y vector1 * z vector2 - z vector1 * y vector2;
     y := z vector1 * x vector2 - x vector1 * z vector2;
     z := x vector1 * y vector2 - y vector1 * x vector2 |}.

Definition dot (vector1 vector2 : TriTuple) : R :=
  x vector1 * x vector2 + y vector1 * y vector2 + z vector1 * z vector2.

Definition magnitude (vector : TriTuple) : R :=
  sqrt (x vector * x vector + y vector * y vector + z vector * z vector).

Definition Cross (v1 v2 : TriTuple) : TriTuple :=
  {| x := x v1 * x v2; y := y v1 * y v2; z := z v1 * z v2 |}.

Definition CopyTriTuple (tri : TriTuple) : TriTuple :=
  {| x := x tri; y := y tri; z := z tri |}.

(** [CalculateVector atom1 atom2] points from [atom1] to [atom2]. *)
Definition CalculateVector (atom1 atom2 : Atom) : TriTuple :=
  {| x := x (position atom2) - x (position atom1);
     y := y (position atom2) - y (position atom1);
     z := z (position atom2) - z (position atom1) |}.

(** ** Bonded term engine ([functions.go]) *)

Definition CalculateBondStretchEnergy (k r r_0 : R) : R :=
  0.5 * k * (r - r_0) * (r - r_0).

Definition CalculateAnglePotentialEnergy (k theta theta_0 : R) : R :=
  0.5 * k * (theta - theta_0) * (theta - theta_0).

Definition CalculateProperDihedralAngleEnergy (kd phi pn phase : R) : R :=
  kd * (1 + cos (pn * phi - phase)).

Section DihedralAngle.
(** [math.Atan2] has no counterpart in the standard library of reals; the
    angle routine is stated over any such function. *)
Variable Atan2 : R -> R -> R.

Definition CalculateDihedralAngle (atom1 atom2 atom3 atom4 : Atom) : R :=
  let vector1 := CalculateVector atom2 atom1 in
  let vector2 := CalculateVector atom3 atom2 in
  let vector3 := CalculateVector atom4 atom3 in
  let plane1 := BuildNormalVector vector1 vector2 in
  let plane2 := BuildNormalVector vector2 vector3 in
  let plane3 := BuildNormalVector plane1 plane2 in
  let x' := dot plane1 plane2 in
  let y' := dot plane3 vector2 / magnitude vector2 in
  let angle := Atan2 y' x' in
  angle * (180 / PI).
End DihedralAngle.

Definition DerivateAnglePositionX (atom1 atom2 atom3 : Atom) (theta : R) : R :=
  1 / Distance (position atom1) (position atom2)
  * ((x (position atom3) - x (position atom2))
       / Distance (position atom3) (position atom2)
     - (x (position atom1) - x (position atom2))
       / Distance (position atom1) (position atom2) * cos theta).

Definition DerivateAnglePositionY (atom1 atom2 atom3 : Atom) (theta : R) : R :=
  1 / Distance (position atom1) (position atom2)
  * ((y (position atom3) - y (position atom2))
       / Distance (position atom3) (position atom2)
     - (y (position atom1) - y (position atom2))
       / Distance (position atom1) (position atom2) * cos theta).

Definition DerivateAnglePositionZ (atom1 atom2 atom3 : Atom) (theta : R) : R :=
  1 / Distance (position atom1) (position atom2)
  * ((z (position atom3) - z (position atom2))
       / Distance (position atom3) (position atom2)
     - (z (position atom1) - z (position atom2))
       / Distance (position atom1) (position atom2) * cos theta).

(** Returns [(force_i, force_j, force_k)].  The three [..._32] derivatives
    are requested for [(atom3, atom2, atom2)], as in the source, so each of
    them holds a quotient by [Distance atom2 atom2]: over the reals this
    definition gives the formula as written, and the numbers it yields for
    [force_k] and [force_j] are not results of the program, which are given
    by [F64.CalculateAngleForce]. *)
Definition CalculateAngleForce (k theta theta_0 : R) (atom1 atom2 atom3 : Atom)
  : TriTuple * TriTuple * TriTuple :=
  let der_U_thate := k * (theta - theta_0) in
  let der_that_cos := (-1) * (1 / sin theta) in
  let der_theta_x_12 := DerivateAnglePositionX atom1 atom2 atom3 theta in
  let der_theta_x_32 := DerivateAnglePositionX atom3 atom2 atom2 theta in
  let der_theta_y_12 := DerivateAnglePositionY atom1 atom2 atom3 theta in
  let der_theta_y_32 := DerivateAnglePositionY atom3 atom2 atom2 theta in
  let der_theta_z_12 := DerivateAnglePositionZ atom1 atom2 atom3 theta in
  let der_theta_z_32 := DerivateAnglePositionZ atom3 atom2 atom2 theta in
  let force_i :=
    {| x := der_U_thate * der_that_cos * der_theta_x_12;
       y := der_U_thate * der_that_cos * der_theta_y_12;
       z := der_U_thate * der_that_cos * der_theta_z_12 |} in
  let force_k :=
    {| x := der_U_thate * der_that_cos * der_theta_x_32;
       y := der_U_thate * der_that_cos * der_theta_y_32;
       z := der_U_thate * der_that_cos * der_theta_z_32 |} in
  let force_j :=
    {| x := - x force_i - x force_k;
       y := - y force_i - y force_k;
       z := - z force_i - z force_k |} in
  (force_i, force_j, force_k).

Definition CalculateDerivate (v1 v2 : TriTuple) (phi : R) : R * R * R :=
  ((1 / magnitude v1) * (x v2 / magnitude v2 - x v1 / magnitude v1 * cos phi),
   (1 / magnitude v1) * (y v2 / magnitude v2 - y v1 / magnitude v1 * cos phi),
   (1 / magnitude v1) * (z v2 / magnitude v2 - z v1 / magnitude v1 * cos phi)).

(** Returns [(force_i, force_j, force_k, force_l)].  The formula divides by
    [magnitude v_t] and [magnitude v_u] (in [CalculateDerivate]) and by
    [sin phi]; it is the program's result where the three are not zero. *)
Definition CalculateProperDihedralsForce (kd phi pn phase : R)
    (atom1 atom2 atom3 atom4 : Atom)
  : TriTuple * TriTuple * TriTuple * TriTuple :=
  let der_U_phi := -0.5 * kd * pn * sin (pn * phi - phase) in
  let der_phi_cos := -1 / sin phi in
  let vector12 := CalculateVector atom1 atom2 in
  let vector32 := CalculateVector atom3 atom2 in
  let vector43 := CalculateVector atom4 atom3 in
  let v_t := Cross vector12 vector32 in
  let v_u := Cross vector43 vector32 in
  let '(der_cos_tx, der_cos_ty, der_cos_tz) := CalculateDerivate v_t v_u phi in
  let '(der_cos_ux, der_cos_uy, der_cos_uz) := CalculateDerivate v_u v_t phi in
  let force_i :=
    {| x := der_U_phi * der_phi_cos
            * (der_cos_ty * (- z vector32) + der_cos_tz * y vector32);
       y := der_U_phi * der_phi_cos
            * (der_cos_tz * (- x vector32) + der_cos_tx * z vector32);
       z := der_U_phi * der_phi_cos
            * (der_cos_tx * (- y vector32) + der_cos_ty * x vector32) |} in
  let force_j :=
    {| x := der_U_phi * der_phi_cos
            * (der_cos_ty * (- z vector12 + z vector32)
               + der_cos_tz * (- y vector32 + y vector12));
       y := der_U_phi * der_phi_cos
            * (der_cos_tz * (- x vector12 + x vector32)
               + der_cos_tx * (- z vector32 + z vector12));
       z := der_U_phi * der_phi_cos
            * (der_cos_tx * (- y vector12 + y vector32)
               + der_cos_ty * (- x vector32 + x vector12)) |} in
  let force_k :=
    {| x := der_U_phi * der_phi_cos
            * (der_cos_ty * z vector12 - der_cos_tz * y vector12
               + der_cos_uy * (z vector32 + z vector43)
               - der_cos_uz * (y vector32 + y vector43));
       y := der_U_phi * der_phi_cos
            * (der_cos_tz * x vector12 - der_cos_tx * z vector12
               + der_cos_uz * (x vector32 + x vector43)
               - der_cos_ux * (z vector32 + z vector43));
       z := der_U_phi * der_phi_cos
            * (der_cos_tx * y vector12 - der_cos_ty * z vector12
               + der_cos_ux * (y vector32 + y vector43)
               - der_cos_uy * (x vector32 + x vector43)) |} in
  let force_l :=
    {| x := der_U_phi * der_phi_cos
            * (der_cos_uy * (- z vector32) + der_cos_uz * y vector32);
       y := der_U_phi * der_phi_cos
            * (der_cos_uz * (- x vector32) + der_cos_ux * z vector32);
       z := der_U_phi * der_phi_cos
            * (der_cos_ux * (- y vector32) + der_cos_uy * x vector32) |} in
  (force_i, force_j, force_k, force_l).

(** ** Non-bonded term engine ([unbonded.go]) *)

Definition CalculateLJPotentialEnergy (B A r : R) : R :=
  let r_6 := r ^ 6 in
  let r_12 := r_6 * r_6 in
  let LJ := (A / r_12) - (B / r_6) in
  if Rlt_dec LJ 0 then - LJ else LJ.

Definition CalculateLJForce (a1 a2 : Atom) (B A r : R) : TriTuple :=
  let r_6 := r ^ 6 in
  let r_12 := r_6 * r_6 in
  let forceMagnitude := (-12 * A / r_12 + 6 * B / r_6) / r in
  let unitVector :=
    {| x := (x (position a2) - x (position a1)) / r;
       y := (y (position a2) - y (position a1)) / r;
       z := (z (position a2) - z (position a1)) / r |} in
  {| x := forceMagnitude * x unitVector;
     y := forceMagnitude * y unitVector;
     z := forceMagnitude * z unitVector |}.

Section Electrostatics.
(** The package-level constant [epsilon] (the vacuum permittivity) is
    declared outside the files at hand. *)
Variable epsilon : R.

Definition CalculateElectricPotentialEnergy (a1 a2 : Atom) (r : R) : R :=
  let chargeMagnitude := charge a1 * charge a2 in
  if Rlt_dec chargeMagnitude 0
  then - chargeMagnitude / (4 * PI * epsilon * r)
  else chargeMagnitude / (4 * PI * epsilon * r).

Definition CalculateElectricForce (a1 a2 : Atom) (r : R) : TriTuple :=
  let chargeMagnitude := charge a1 * charge a2 in
  let forceMagnitude :=
    if Rgt_dec chargeMagnitude 0
    then chargeMagnitude / (4 * PI * epsilon * r * r)
    else - chargeMagnitude / (4 * PI * epsilon * r * r) in
  let unitVector :=
    {| x := (x (position a2) - x (position a1)) / r;
       y := (y (position a2) - y (position a1)) / r;
       z := (z (position a2) - z (position a1)) / r |} in
  {| x := forceMagnitude * x unitVector;
     y := forceMagnitude * y unitVector;
     z := forceMagnitude * z unitVector |}.
End Electrostatics.

(** ** Verlet neighbour list ([unbonded.go]) *)

(** A [for _, e := range l] loop whose body may panic. *)
Fixpoint foldM {A S : Type} (body : S -> A -> option S) (s : S) (l : list A)
  : option S :=
  match l with
  | [] => Some s
  | e :: l' =>
      match body s e with
      | Some s' => foldM body s' l'
      | None => None
      end
  end.

(** The test [otherAtom.index >= atom.index-3 && otherAtom.index <= atom.index+3]
    on machine integers. *)
Definition index_excluded (atom otherAtom : Atom) : bool :=
  (Int.sub (index atom) 3 <=? index otherAtom)%Z
  && (index otherAtom <=? Int.add (index atom) 3)%Z.

(** The body of the innermost loop of [BuildVerlet], for the pair
    [(atom, otherAtom)]; [nb] is [v.Neighbors]. *)
Definition verlet_visit (m : heap) (cutoffPlusBuffer : R) (atom : loc)
    (nb : gmap loc (list loc)) (otherAtom : loc) : option (gmap loc (list loc)) :=
  if decide (atom = otherAtom) then Some nb
  else
    match m !! otherAtom with
    | None => None
    | Some o =>
        match m !! atom with
        | None => None
        | Some a =>
            if index_excluded a o then Some nb
            else if Rle_dec (Distance (position a) (position o)) cutoffPlusBuffer
                 then Some (<[atom := default [] (nb !! atom) ++ [otherAtom]]> nb)
                 else Some nb
        end
    end.

(** The two inner loops: every atom of every residue is visited as
    [otherAtom]. *)
Definition verlet_scan (m : heap) (cutoffPlusBuffer : R) (protein : Protein)
    (atom : loc) (nb : gmap loc (list loc)) : option (gmap loc (list loc)) :=
  foldM (fun nb otherResidue =>
           foldM (verlet_visit m cutoffPlusBuffer atom) nb (Atoms otherResidue))
        nb (Protein_Residue protein).

Definition BuildVerlet (m : heap) (v : VerletList) (protein : Protein)
  : option VerletList :=
  let cutoffPlusBuffer := Cutoff v + Buffer v in
  match
    foldM (fun nb residue =>
             foldM (fun nb atom =>
                      verlet_scan m cutoffPlusBuffer protein atom (<[atom := []]> nb))
                   nb (Atoms residue))
          (∅ : gmap loc (list loc)) (Protein_Residue protein)
  with
  | Some nb => Some {| Neighbors := nb; Cutoff := Cutoff v; Buffer := Buffer v |}
  | None => None
  end.

Section VerletDefaults.
(** [verletCutOff] and [verletBuffer] are declared outside the files at
    hand. *)
Variables verletCutOff verletBuffer : R.

Definition NewVerletList : VerletList :=
  {| Neighbors := ∅; Cutoff := verletCutOff; Buffer := verletBuffer |}.
End VerletDefaults.

(** ** Computations on the atom store *)

(** A computation reads and updates the store and may panic ([None]). *)
Definition M (A : Type) : Type := heap -> option (A * heap).

#[export] Instance M_ret : MRet M := fun A a m => Some (a, m).

#[export] Instance M_bind : MBind M := fun A B f c m =>
  match c m with
  | Some (a, m') => f a m'
  | None => None
  end.

(** Evaluation of an expression that only reads the store. *)
Definition read {A : Type} (f : heap -> A) : M A := fun m => Some (f m, m).

(** [*p] as an r-value. *)
Definition load (p : loc) : M Atom := fun m =>
  match m !! p with
  | Some a => Some (a, m)
  | None => None
  end.

(** [*p = a]. *)
Definition store (p : loc) (a : Atom) : M unit := fun m =>
  match m !! p with
  | Some _ => Some (tt, <[p := a]> m)
  | None => None
  end.

(** [&a] for a local [a] that escapes: a location not yet in use. *)
Definition alloc (a : Atom) : M loc := fun m =>
  let p := fresh (dom m) in Some (p, <[p := a]> m).

(** A [for i := range l] loop; the body receives the index and the element. *)
Fixpoint range_loop {A : Type} (body : Z -> A -> M unit) (i : Z) (l : list A)
  : M unit :=
  match l with
  | [] => mret tt
  | e :: l' => _ ← body i e; range_loop body (i + 1)%Z l'
  end.

(** ** Copying a structure ([functions.go]) *)

Definition TriTuple_zero : TriTuple := {| x := 0; y := 0; z := 0 |}.

(** The zero value of [Atom], as produced by [var newAtom Atom]. *)
Definition Atom_zero : Atom :=
  {| index := 0; position := TriTuple_zero; velocity := TriTuple_zero;
     force := TriTuple_zero; accelerated := TriTuple_zero; mass := 0;
     element := EmptyString; charge := 0 |}.

Definition set_mass (v : R) (a : Atom) : Atom :=
  {| index := index a; position := position a; velocity := velocity a;
     force := force a; accelerated := accelerated a; mass := v;
     element := element a; charge := charge a |}.

Definition set_force (v : TriTuple) (a : Atom) : Atom :=
  {| index := index a; position := position a; velocity := velocity a;
     force := v; accelerated := accelerated a; mass := mass a;
     element := element a; charge := charge a |}.

Definition set_position (v : TriTuple) (a : Atom) : Atom :=
  {| index := index a; position := v; velocity := velocity a;
     force := force a; accelerated := accelerated a; mass := mass a;
     element := element a; charge := charge a |}.

Definition set_velocity (v : TriTuple) (a : Atom) : Atom :=
  {| index := index a; position := position a; velocity := v;
     force := force a; accelerated := accelerated a; mass := mass a;
     element := element a; charge := charge a |}.

Definition set_accelerated (v : TriTuple) (a : Atom) : Atom :=
  {| index := index a; position := position a; velocity := velocity a;
     force := force a; accelerated := v; mass := mass a;
     element := element a; charge := charge a |}.

Definition set_element (v : string) (a : Atom) : Atom :=
  {| index := index a; position := position a; velocity := velocity a;
     force := force a; accelerated := accelerated a; mass := mass a;
     element := v; charge := charge a |}.

Definition CopyAtom (currAtom : loc) : M loc :=
  c ← load currAtom;
  let newAtom := Atom_zero in
  let newAtom := set_mass (mass c) newAtom in
  let newAtom := set_force (CopyTriTuple (force c)) newAtom in
  let newAtom := set_position (CopyTriTuple (position c)) newAtom in
  let newAtom := set_velocity (CopyTriTuple (velocity c)) newAtom in
  let newAtom := set_accelerated (CopyTriTuple (accelerated c)) newAtom in
  let newAtom := set_element (element c) newAtom in
  alloc newAtom.

Definition CopyResidue (currRes : Residue) : M Residue :=
  newAtoms ← mapM CopyAtom (Atoms currRes);
  mret {| Residue_Name := Residue_Name currRes; ID := ID currRes;
          ChainID := ChainID currRes; Atoms := newAtoms |}.

Definition CopyProtein (currentProtein : Protein) : M Protein :=
  newResidues ← mapM CopyResidue (Protein_Residue currentProtein);
  mret {| Name := Name currentProtein; Protein_Residue := newResidues |}.

(** ** Minimizer ([functions.go]) *)

Definition CalculateTotalEnergy (p : Protein) (m : heap) : R := 1.0.

Definition CalculateNetForce (a : Z) : TriTuple := {| x := 1.0; y := 1.0; z := 1.0 |}.

Definition set_position_x (v : R) (a : Atom) : Atom :=
  set_position {| x := v; y := y (position a); z := z (position a) |} a.

Definition set_position_y (v : R) (a : Atom) : Atom :=
  set_position {| x := x (position a); y := v; z := z (position a) |} a.

Definition set_position_z (v : R) (a : Atom) : Atom :=
  set_position {| x := x (position a); y := y (position a); z := v |} a.

(** The body of the inner loop of [SteepestDescent] for
    [protein.Residue[i].Atoms[j]], held at location [p]. *)
Definition descend_atom (h : R) (j : Z) (p : loc) : M unit :=
  let force := CalculateNetForce j in
  let magn := magnitude force in
  a ← load p; _ ← store p (set_position_x (x (position a) + (x force * h) / magn) a);
  a ← load p; _ ← store p (set_position_y (y (position a) + (y force * h) / magn) a);
  a ← load p; store p (set_position_z (z (position a) + (z force * h) / magn) a).

Definition SteepestDescent (protein : Protein) (h : R) : M Protein :=
  _ ← range_loop (fun i residue => range_loop (descend_atom h) 0%Z (Atoms residue))
                 0%Z (Protein_Residue protein);
  mret protein.

Section Minimizer.
(** The loop is stated over any total-energy evaluator; the repository
    plugs in [CalculateTotalEnergy]. *)
Variable TotalEnergy : Protein -> heap -> R.

(** One pass through the body of the [for] loop, on the loop-carried
    variables [(currentProtein, h)]. *)
Definition minimize_body (st : Protein * R) : M (Protein * R) :=
  let '(currentProtein, h) := st in
  initialEnergy ← read (TotalEnergy currentProtein);
  tempProtein ← CopyProtein currentProtein;
  _ ← SteepestDescent tempProtein h;
  updatedEnergy ← read (TotalEnergy tempProtein);
  if Rlt_dec updatedEnergy initialEnergy
  then mret (tempProtein, h * 1.2)
  else mret (currentProtein, h * (0.2 * h)).

(** [for i := 0; i < iteration; i++ { body }], entered at index [i]. *)
Equations minimize_loop (iteration i : Z) (st : Protein * R) (m : heap)
  : option ((Protein * R) * heap) by wf (Z.to_nat (iteration - i)) lt :=
  minimize_loop iteration i st m with Z_lt_dec i iteration := {
    | left _ with minimize_body st m := {
        | Some (st', m') => minimize_loop iteration (i + 1) st' m'
        | None => None }
    | right _ => Some (st, m) }.
Next Obligation. lia. Qed.

Definition PerformEnergyMinimization_with (currentProtein : Protein) : M Protein :=
  let iteration := 100%Z in
  let h := 0.01 in
  '(currentProtein, _) ← minimize_loop iteration 0%Z (currentProtein, h);
  mret currentProtein.
End Minimizer.

Definition PerformEnergyMinimization : Protein -> M Protein :=
  PerformEnergyMinimization_with CalculateTotalEnergy.

(** ** Vocabulary of the specification *)

Definition Tri_add (u v : TriTuple) : TriTuple :=
  {| x := x u + x v; y := y u + y v; z := z u + z v |}.

Definition Tri_opp (u : TriTuple) : TriTuple :=
  {| x := - x u; y := - y u; z := - z u |}.

Definition Tri_scale (c : R) (u : TriTuple) : TriTuple :=
  {| x := c * x u; y := c * y u; z := c * z u |}.

(** The unit vector along [u]. *)
Definition Tri_unit (u : TriTuple) : TriTuple := Tri_scale (/ magnitude u) u.

Definition Tri_sub (u v : TriTuple) : TriTuple :=
  {| x := x u - x v; y := y u - y v; z := z u - z v |}.

Definition Tri_of (c : R * R * R) : TriTuple :=
  {| x := c.1.1; y := c.1.2; z := c.2 |}.

(** [displacement a b = b.position - a.position], pointing from [a] toward
    [b]. *)
Definition displacement (a b : Atom) : TriTuple :=
  Tri_sub (position b) (position a).

(** The element-wise product of the specification. *)
Definition elementwiseProduct (v1 v2 : TriTuple) : TriTuple :=
  {| x := x v1 * x v2; y := y v1 * y v2; z := z v1 * z v2 |}.

(** The cross product [v1 x v2] of the specification, by its determinant
    expansion. *)
Definition planeNormal (v1 v2 : TriTuple) : TriTuple :=
  {| x := y v1 * z v2 - z v1 * y v2;
     y := z v1 * x v2 - x v1 * z v2;
     z := x v1 * y v2 - y v1 * x v2 |}.

(** The sum of the four vectors returned by the torsion-force routine. *)
Definition torsion_net_force (f : TriTuple * TriTuple * TriTuple * TriTuple)
  : TriTuple :=
  let '(force_i, force_j, force_k, force_l) := f in
  Tri_add (Tri_add (Tri_add force_i force_j) force_k) force_l.

(** An atom at a given place, all other fields zero. *)
Definition atom_at (px py pz : R) : Atom :=
  set_position {| x := px; y := py; z := pz |} Atom_zero.

Definition set_charge (v : R) (a : Atom) : Atom :=
  {| index := index a; position := position a; velocity := velocity a;
     force := force a; accelerated := accelerated a; mass := mass a;
     element := element a; charge := v |}.

Definition set_index (v : Z) (a : Atom) : Atom :=
  {| index := v; position := position a; velocity := velocity a;
     force := force a; accelerated := accelerated a; mass := mass a;
     element := element a; charge := charge a |}.

(** Two unit charges one length unit apart. *)
Definition charged_atom1 : Atom := set_charge 1 (atom_at 0 0 0).
Definition charged_atom2 : Atom := set_charge 1 (atom_at 1 0 0).

(** Four atoms in general position (no three on a line, the four in no
    common plane) whose dihedral angle is a right angle. *)
Definition torsion_atom1 : Atom := atom_at 1 0 1.
Definition torsion_atom2 : Atom := atom_at 0 0 0.
Definition torsion_atom3 : Atom := atom_at (-1) (-1) 0.
Definition torsion_atom4 : Atom := atom_at (-1) (-2) (-0.5).

(** A second quadruple, on which the last component of [force_k] matters. *)
Definition slip_atom1 : Atom := atom_at (-1) 0 0.
Definition slip_atom2 : Atom := atom_at 0 0 0.
Definition slip_atom3 : Atom := atom_at (-1) (-1) (-1).
Definition slip_atom4 : Atom := atom_at (-1) (-2) (-1).

(** All atom pointers of a protein, in iteration order. *)
Definition protein_atoms (p : Protein) : list loc :=
  concat (Atoms <$> Protein_Residue p).

(** Every atom pointer of the protein points to an atom (none is nil). *)
Definition allocated (m : heap) (p : Protein) : Prop :=
  Forall (fun l => is_Some (m !! l)) (protein_atoms p).

(** [otherAtom] passes the three tests of [BuildVerlet] for [atom]: it is a
    different atom, it is not index-excluded, and it lies within the
    distance bound. *)
Definition is_neighbor (m : heap) (bound : R) (atom otherAtom : loc) : bool :=
  match m !! atom, m !! otherAtom with
  | Some a, Some o =>
      bool_decide (atom <> otherAtom)
      && negb (index_excluded a o)
      && (if Rle_dec (Distance (position a) (position o)) bound then true else false)
  | _, _ => false
  end.

(** Two atoms one length unit apart, with sequence indices 0 and 10. *)
Definition pair_heap : heap :=
  <[1%positive := set_index 0 (atom_at 0 0 0)]>
    (<[2%positive := set_index 10 (atom_at 1 0 0)]> ∅).

(** Two atoms one length unit apart, with the two largest sequence indices. *)
Definition edge_heap : heap :=
  <[1%positive := set_index Int.max_int (atom_at 0 0 0)]>
    (<[2%positive := set_index (Int.max_int - 1) (atom_at 1 0 0)]> ∅).

Definition pair_protein : Protein :=
  {| Name := "P";
     Protein_Residue :=
       [ {| Residue_Name := "R"; ID := 1; ChainID := "A";
            Atoms := [1%positive; 2%positive] |} ] |}.

(** [c'] carries the fields that [CopyAtom] copies from [c], and the zero
    value in the two fields that it leaves alone. *)
Definition is_copy (c c' : Atom) : Prop :=
  mass c' = mass c /\ force c' = force c /\ position c' = position c
  /\ velocity c' = velocity c /\ accelerated c' = accelerated c
  /\ element c' = element c
  /\ index c' = 0%Z /\ charge c' = 0.

(** The atom at [p'] in the store [m'] is a copy of the atom at [p] in the
    store [m]. *)
Definition copy_at (m m' : heap) (p p' : loc) : Prop :=
  exists c c', m !! p = Some c /\ m' !! p' = Some c' /\ is_copy c c'.

Definition residue_copy_at (m m' : heap) (r r' : Residue) : Prop :=
  Residue_Name r' = Residue_Name r /\ ID r' = ID r /\ ChainID r' = ChainID r
  /\ Forall2 (copy_at m m') (Atoms r) (Atoms r').

(** One atom with sequence index 10 and unit charge. *)
Definition single_heap : heap :=
  <[1%positive := set_charge 1 (set_index 10 (atom_at 0 0 0))]> ∅.

Definition single_protein : Protein :=
  {| Name := "P";
     Protein_Residue :=
       [ {| Residue_Name := "R"; ID := 1; ChainID := "A"; Atoms := [1%positive] |} ] |}.

(** [n] passes through a loop body, one after the other. *)
Fixpoint iterate {St : Type} (n : nat) (body : St -> M St) (s : St) : M St :=
  match n with
  | O => mret s
  | S n' => s' ← body s; iterate n' body s'
  end.

(** One iteration of the minimizer as the specification words it: the trial
    is a moved snapshot of the current structure; it is accepted when its
    energy is strictly lower, and then the step grows to [1.2 h]; otherwise
    the current structure is kept and the step shrinks to [0.2 h^2]. *)
Definition spec_iteration (TotalEnergy : Protein -> heap -> R)
    (st : Protein * R) : M (Protein * R) :=
  fun m =>
    match CopyProtein st.1 m with
    | None => None
    | Some (trial, m1) =>
        match SteepestDescent trial st.2 m1 with
        | None => None
        | Some (_, m2) =>
            if Rlt_dec (TotalEnergy trial m2) (TotalEnergy st.1 m)
            then Some ((trial, 1.2 * st.2), m2)
            else Some ((st.1, 0.2 * st.2 ^ 2), m2)
        end
    end.

(** ** Further functions of [functions.go] *)

Definition CalculateAngle (atom1 atom2 atom3 : Atom) : R :=
  let vector1 := CalculateVector atom2 atom1 in
  let vector2 := CalculateVector atom3 atom1 in
  let upperValue := dot vector1 vector2 in
  let lowerValue :=
    Distance (position atom1) (position atom2)
    * Distance (position atom2) (position atom3) in
  let value := upperValue / lowerValue in
  acos value.

Definition CalculateTotoalBondStretchEnergy (k r r_0 : R) : R :=
  0.5 * k * (r - r_0) * (r - r_0).

Definition CalculateBondForce (k r r_0 : R) (atom1 atom2 : Atom) : TriTuple :=
  let bondLen := Distance (position atom1) (position atom2) in
  let unitVector :=
    {| x := (x (position atom2) - x (position atom1)) / bondLen;
       y := (y (position atom2) - y (position atom1)) / bondLen;
       z := (z (position atom2) - z (position atom1)) / bondLen |} in
  let fScale := - k * (r - r_0) in
  {| x := fScale * x unitVector;
     y := fScale * y unitVector;
     z := fScale * z unitVector |}.

(** ** Further functions of [unbonded.go] *)

(** [chargeData] is a [map[string]map[string]float64]: residue name, then
    atom name.  A residue that is missing yields the nil inner map, in which
    every atom name is missing. *)
Definition AssignChargesToProtein (chargeData : gmap string (gmap string R))
    (protein : Protein) : M unit :=
  range_loop
    (fun _ residue =>
       let residueName := Residue_Name residue in
       let residueChargeData := chargeData !! residueName in
       range_loop
         (fun _ atom =>
            a ← load atom;
            let atomName := element a in
            match residueChargeData with
            | Some data =>
                match data !! atomName with
                | Some atomCharge => store atom (set_charge atomCharge a)
                | None => store atom (set_charge 0.0 a)
                end
            | None => store atom (set_charge 0.0 a)
            end)
         0%Z (Atoms residue))
    0%Z (Protein_Residue protein).

(** [forceMap[i].x += f.x; forceMap[i].y += f.y; forceMap[i].z += f.z] on the
    vector that [forceMap[i]] points to; a missing key is a nil pointer. *)
Definition force_accumulate (i : Z) (f : TriTuple) (forceMap : gmap Z TriTuple)
  : option (gmap Z TriTuple) :=
  match forceMap !! i with
  | Some t =>
      Some (<[i := {| x := x t + x f; y := y t + y f; z := z t + z f |}]> forceMap)
  | None => None
  end.

Section UnbondedPass.
(** [epsilon], [verletCutOff], [verletBuffer], the type [parameterDatabase]
    and the lookup [SearchParameter] are declared outside the files at hand;
    the lookup is taken to read its arguments only and to return its
    coefficient list. *)
Variables epsilon verletCutOff verletBuffer : R.
Variable parameterDatabase : Type.
Variable SearchParameter : Z -> parameterDatabase -> Atom -> Atom -> list R.

(** The body of the loop over the neighbours of [atom1]; the state is
    [(totalEnergy, forceMap)]. *)
Definition unbonded_visit (m : heap) (nonbondedParameter : parameterDatabase)
    (atom1 : loc) (st : R * gmap Z TriTuple) (atom2 : loc)
  : option (R * gmap Z TriTuple) :=
  let '(totalEnergy, forceMap) := st in
  a1 ← m !! atom1;
  a2 ← m !! atom2;
  let r := Distance (position a1) (position a2) in
  let parameterList := SearchParameter 2 nonbondedParameter a1 a2 in
  st1 ← match parameterList with
        | [p0; p1] =>
            let LJPotentialEnergy := CalculateLJPotentialEnergy p0 p1 r in
            let LJForce := CalculateLJForce a1 a2 p0 p1 r in
            forceMap' ← force_accumulate (index a1) LJForce forceMap;
            Some (totalEnergy + LJPotentialEnergy, forceMap')
        | _ => Some (totalEnergy, forceMap)
        end;
  let '(totalEnergy, forceMap) := st1 in
  if Req_dec_T (charge a1) 0.0 then Some (totalEnergy, forceMap)
  else if Req_dec_T (charge a2) 0.0 then Some (totalEnergy, forceMap)
  else
    let electricPotentialEnergy := CalculateElectricPotentialEnergy epsilon a1 a2 r in
    let electricForce := CalculateElectricForce epsilon a1 a2 r in
    forceMap' ← force_accumulate (index a1) electricForce forceMap;
    Some (totalEnergy + electricPotentialEnergy, forceMap').

(** The body of the loop over the atoms [atom1] of a residue. *)
Definition unbonded_atom (m : heap) (nonbondedParameter : parameterDatabase)
    (verletList : VerletList) (st : R * gmap Z TriTuple) (atom1 : loc)
  : option (R * gmap Z TriTuple) :=
  let '(totalEnergy, forceMap) := st in
  a1 ← m !! atom1;
  let forceMap := <[index a1 := {| x := 0.0; y := 0.0; z := 0.0 |}]> forceMap in
  match Neighbors verletList !! atom1 with
  | None => Some (totalEnergy, forceMap)
  | Some neighbors =>
      foldM (unbonded_visit m nonbondedParameter atom1) (totalEnergy, forceMap)
        neighbors
  end.

Definition CalculateTotalUnbondedEnergyForce (m : heap) (p : Protein)
    (nonbondedParameter : parameterDatabase) : option (R * gmap Z TriTuple) :=
  let forceMap : gmap Z TriTuple := ∅ in
  let totalEnergy := 0.0 in
  verletList ← BuildVerlet m (NewVerletList verletCutOff verletBuffer) p;
  foldM (fun st residue =>
           foldM (unbonded_atom m nonbondedParameter verletList) st (Atoms residue))
        (totalEnergy, forceMap) (Protein_Residue p).
End UnbondedPass.

(** ** Masses ([io.go]) *)

(** The conversion [string(b)] of a byte [b]: the UTF-8 encoding of the code
    point [b], one byte below 128 and two bytes from 128 on. *)
Definition string_of_byte (b : Ascii.ascii) : string :=
  let n := Ascii.N_of_ascii b in
  if (n <? 128)%N then String b EmptyString
  else String (Ascii.ascii_of_N (192 + n / 64))
         (String (Ascii.ascii_of_N (128 + n mod 64)) EmptyString).

Definition massTable : gmap string R :=
  <["H" := 1.0079]> (<["C" := 12.0107]> (<["N" := 14.0067]>
    (<["O" := 15.9994]> (<["S" := 32.065]> ∅)))).

(** A run-time panic. *)
Definition panic {A : Type} : M A := fun _ => None.

(** [atom.element[0]] panics on the empty string.  The warning printed for
    an element without entry is console output and is left out. *)
Definition UpdateMasses (massTable : gmap string R) (p : Protein) : M unit :=
  range_loop
    (fun _ residue =>
       range_loop
         (fun _ atom =>
            a ← load atom;
            match element a with
            | EmptyString => panic
            | String b _ =>
                let baseElement := string_of_byte b in
                match massTable !! baseElement with
                | Some mass => store atom (set_mass mass a)
                | None => store atom (set_mass 0.0 a)
                end
            end)
         0%Z (Atoms residue))
    0%Z (Protein_Residue p).

(** ** Vocabulary for in-place updates of a structure *)

(** The store after [f] has been applied, one after the other, to the atoms
    at the listed locations. *)
Definition update_atoms (f : Atom -> Atom) (l : list loc) (m : heap) : heap :=
  foldl (fun m q => alter f q m) m l.

(** The same residue by residue, with a function that may depend on the
    residue. *)
Definition update_protein (F : Residue -> Atom -> Atom) (rs : list Residue)
    (m : heap) : heap :=
  foldl (fun m r => update_atoms (F r) (Atoms r) m) m rs.

(** Location [q] holds an atom that satisfies [P]. *)
Definition holds (P : Atom -> Prop) (m : heap) (q : loc) : Prop :=
  exists a, m !! q = Some a /\ P a.

(** An atom moved by [h / sqrt 3] along each axis. *)
Definition moved (h : R) (a : Atom) : Atom :=
  set_position
    {| x := x (position a) + h / sqrt 3;
       y := y (position a) + h / sqrt 3;
       z := z (position a) + h / sqrt 3 |} a.

(** The charge that the table [chargeData] holds for an atom name in a
    residue, 0 when the residue or the atom name is missing. *)
Definition charge_for (chargeData : gmap string (gmap string R))
    (residueName atomName : string) : R :=
  match chargeData !! residueName with
  | Some data => default 0 (data !! atomName)
  | None => 0
  end.

(** The mass that a table holds for the first byte of an element label, 0
    when it has none. *)
Definition mass_for (table : gmap string R) (elementName : string) : R :=
  match elementName with
  | EmptyString => 0
  | String b _ => default 0 (table !! string_of_byte b)
  end.

(** The atoms of an accepted trial: new with respect to the store [m0], and
    without index and charge. *)
Definition trial_atoms (m0 m' : heap) (p' : Protein) : Prop :=
  Forall (fun q => m0 !! q = None
                   /\ holds (fun a => index a = 0%Z /\ charge a = 0) m' q)
    (protein_atoms p').

(** The vector [{0.0, 0.0, 0.0}] that the non-bonded pass starts every
    force from. *)
Definition zero_force : TriTuple := {| x := 0.0; y := 0.0; z := 0.0 |}.

(** Atoms of the protein that are different objects lie at different
    places. *)
Definition separated (m : heap) (p : Protein) : Prop :=
  forall q q' a a',
    q ∈ protein_atoms p -> q' ∈ protein_atoms p -> q <> q' ->
    m !! q = Some a -> m !! q' = Some a' -> position a <> position a'.

(** Two atoms with unit charges, indices 0 and 10, one length unit apart. *)
Definition charged_heap : heap :=
  <[1%positive := set_charge 1 (set_index 0 (atom_at 0 0 0))]>
    (<[2%positive := set_charge 1 (set_index 10 (atom_at 1 0 0))]> ∅).

(** An atom shifted by the vector [d]. *)
Definition translate (d : TriTuple) (a : Atom) : Atom :=
  set_position (Tri_add (position a) d) a.

(** ** Divisions by zero: [float64] with its special values

    The real numbers have no value for a quotient by zero, and [x / 0] in [R]
    is not what the program computes there.  [F64.float64] adds the special
    values of IEEE 754 to the reals: the negative zero, the two infinities
    and NaN, with the rules of the standard for them.  Finite values stay
    exact (no rounding, no overflow, no underflow).  The functions below are
    the angle-force routine of [functions.go] over these values; they tell
    what the program returns where a denominator vanishes. *)

Module F64.

Inductive float64 : Type :=
| Fin (r : R)          (* a finite number; [Fin 0] is the positive zero *)
| NegZero              (* the negative zero *)
| Inf (negative : bool) (* [Inf false] is +Inf, [Inf true] is -Inf *)
| NaN.

Definition is_zero (a : float64) : bool :=
  match a with
  | Fin r => if Req_dec_T r 0 then true else false
  | NegZero => true
  | _ => false
  end.

Definition signbit (a : float64) : bool :=
  match a with
  | Fin r => if Rlt_dec r 0 then true else false
  | NegZero => true
  | Inf negative => negative
  | NaN => false
  end.

Definition zero (negative : bool) : float64 :=
  if negative then NegZero else Fin 0.

(** The number a finite value stands for. *)
Definition value (a : float64) : R :=
  match a with
  | Fin r => r
  | _ => 0
  end.

Definition finite (a : float64) : bool :=
  match a with
  | Fin _ | NegZero => true
  | _ => false
  end.

(** [-a]: the sign is flipped. *)
Definition neg (a : float64) : float64 :=
  match a with
  | Fin r => if Req_dec_T r 0 then NegZero else Fin (- r)
  | NegZero => Fin 0
  | Inf negative => Inf (negb negative)
  | NaN => NaN
  end.

(** [a + b]: infinities of opposite signs give NaN; a sum that is zero is
    the positive zero unless both operands are the negative zero. *)
Definition add (a b : float64) : float64 :=
  match a, b with
  | NaN, _ | _, NaN => NaN
  | Inf s, Inf s' => if Bool.eqb s s' then Inf s else NaN
  | Inf s, _ | _, Inf s => Inf s
  | NegZero, NegZero => NegZero
  | NegZero, Fin r | Fin r, NegZero => Fin r
  | Fin r, Fin r' => Fin (r + r')
  end.

Definition sub (a b : float64) : float64 := add a (neg b).

(** [a * b]: zero times infinity is NaN; the sign of a zero or infinite
    product is the exclusive or of the signs. *)
Definition mul (a b : float64) : float64 :=
  let s := xorb (signbit a) (signbit b) in
  match a, b with
  | NaN, _ | _, NaN => NaN
  | Inf _, o | o, Inf _ => if is_zero o then NaN else Inf s
  | _, _ => if is_zero a || is_zero b then zero s else Fin (value a * value b)
  end.

(** [a / b]: zero by zero and infinity by infinity are NaN; a non-zero
    number by zero is an infinity. *)
Definition div (a b : float64) : float64 :=
  let s := xorb (signbit a) (signbit b) in
  match a, b with
  | NaN, _ | _, NaN => NaN
  | Inf _, Inf _ => NaN
  | Inf _, _ => Inf s
  | _, Inf _ => zero s
  | _, _ =>
      if is_zero b then (if is_zero a then NaN else Inf s)
      else if is_zero a then zero s
      else Fin (value a / value b)
  end.

(** [math.Sqrt], [math.Sin], [math.Cos] with their special cases. *)
Definition Sqrt (a : float64) : float64 :=
  match a with
  | Fin r => if Rlt_dec r 0 then NaN else Fin (sqrt r)
  | NegZero => NegZero
  | Inf false => Inf false
  | Inf true => NaN
  | NaN => NaN
  end.

Definition Sin (a : float64) : float64 :=
  match a with
  | Fin r => Fin (sin r)
  | NegZero => NegZero
  | Inf _ | NaN => NaN
  end.

Definition Cos (a : float64) : float64 :=
  match a with
  | Fin r => Fin (cos r)
  | NegZero => Fin 1
  | Inf _ | NaN => NaN
  end.

Declare Scope f64_scope.
Delimit Scope f64_scope with f64.
Bind Scope f64_scope with float64.
Infix "+" := add : f64_scope.
Infix "-" := sub : f64_scope.
Infix "*" := mul : f64_scope.
Infix "/" := div : f64_scope.
Notation "- a" := (neg a) : f64_scope.
Local Open Scope f64_scope.

Record TriTuple : Type := mkTriTuple { x : float64; y : float64; z : float64 }.

Record Atom : Type := mkAtom {
  index : Z;
  position : TriTuple;
  velocity : TriTuple;
  force : TriTuple;
  accelerated : TriTuple;
  mass : float64;
  element : string;
  charge : float64
}.

Definition Distance (p1 p2 : TriTuple) : float64 :=
  let deltaX := x p1 - x p2 in
  let deltaY := y p1 - y p2 in
  let deltaZ := z p1 - z p2 in
  Sqrt (deltaX * deltaX + deltaY * deltaY + deltaZ * deltaZ).

Definition DerivateAnglePositionX (atom1 atom2 atom3 : Atom) (theta : float64)
  : float64 :=
  Fin 1 / Distance (position atom1) (position atom2)
  * ((x (position atom3) - x (position atom2))
       / Distance (position atom3) (position atom2)
     - (x (position atom1) - x (position atom2))
       / Distance (position atom1) (position atom2) * Cos theta).

Definition DerivateAnglePositionY (atom1 atom2 atom3 : Atom) (theta : float64)
  : float64 :=
  Fin 1 / Distance (position atom1) (position atom2)
  * ((y (position atom3) - y (position atom2))
       / Distance (position atom3) (position atom2)
     - (y (position atom1) - y (position atom2))
       / Distance (position atom1) (position atom2) * Cos theta).

Definition DerivateAnglePositionZ (atom1 atom2 atom3 : Atom) (theta : float64)
  : float64 :=
  Fin 1 / Distance (position atom1) (position atom2)
  * ((z (position atom3) - z (position atom2))
       / Distance (position atom3) (position atom2)
     - (z (position atom1) - z (position atom2))
       / Distance (position atom1) (position atom2) * Cos theta).

(** Returns [(force_i, force_j, force_k)]. *)
Definition CalculateAngleForce (k theta theta_0 : float64) (atom1 atom2 atom3 : Atom)
  : TriTuple * TriTuple * TriTuple :=
  let der_U_thate := k * (theta - theta_0) in
  let der_that_cos := Fin (-1) * (Fin 1 / Sin theta) in
  let der_theta_x_12 := DerivateAnglePositionX atom1 atom2 atom3 theta in
  let der_theta_x_32 := DerivateAnglePositionX atom3 atom2 atom2 theta in
  let der_theta_y_12 := DerivateAnglePositionY atom1 atom2 atom3 theta in
  let der_theta_y_32 := DerivateAnglePositionY atom3 atom2 atom2 theta in
  let der_theta_z_12 := DerivateAnglePositionZ atom1 atom2 atom3 theta in
  let der_theta_z_32 := DerivateAnglePositionZ atom3 atom2 atom2 theta in
  let force_i :=
    {| x := der_U_thate * der_that_cos * der_theta_x_12;
       y := der_U_thate * der_that_cos * der_theta_y_12;
       z := der_U_thate * der_that_cos * der_theta_z_12 |} in
  let force_k :=
    {| x := der_U_thate * der_that_cos * der_theta_x_32;
       y := der_U_thate * der_that_cos * der_theta_y_32;
       z := der_U_thate * der_that_cos * der_theta_z_32 |} in
  let force_j :=
    {| x := - x force_i - x force_k;
       y := - y force_i - y force_k;
       z := - z force_i - z force_k |} in
  (force_i, force_j, force_k).

(** The sum of the three vectors returned by the angle-force routine. *)
Definition angle_net_force (f : TriTuple * TriTuple * TriTuple) : TriTuple :=
  let '(force_i, force_j, force_k) := f in
  {| x := x force_i + x force_j + x force_k;
     y := y force_i + y force_j + y force_k;
     z := z force_i + z force_j + z force_k |}.

(** A vector is the zero vector when each component is a zero, of either
    sign (the comparison [== 0] of the language). *)
Definition is_zero_vector (v : TriTuple) : bool :=
  is_zero (x v) && is_zero (y v) && is_zero (z v).

Definition NaN_vector : TriTuple := {| x := NaN; y := NaN; z := NaN |}.

(** An atom at a finite place, all other fields zero. *)
Definition atom_at (px py pz : R) : Atom :=
  {| index := 0;
     position := {| x := Fin px; y := Fin py; z := Fin pz |};
     velocity := {| x := Fin 0; y := Fin 0; z := Fin 0 |};
     force := {| x := Fin 0; y := Fin 0; z := Fin 0 |};
     accelerated := {| x := Fin 0; y := Fin 0; z := Fin 0 |};
     mass := Fin 0; element := EmptyString; charge := Fin 0 |}.

(** The value [a] is finite and stands for the real number [r]. *)
Definition represents (a : float64) (r : R) : Prop :=
  finite a = true /\ value a = r.

End F64.

(** A vector and an atom of real numbers, as finite [float64] values. *)
Definition F64_of_TriTuple (t : TriTuple) : F64.TriTuple :=
  {| F64.x := F64.Fin (x t); F64.y := F64.Fin (y t); F64.z := F64.Fin (z t) |}.

Definition F64_of_Atom (a : Atom) : F64.Atom :=
  {| F64.index := index a;
     F64.position := F64_of_TriTuple (position a);
     F64.velocity := F64_of_TriTuple (velocity a);
     F64.force := F64_of_TriTuple (force a);
     F64.accelerated := F64_of_TriTuple (accelerated a);
     F64.mass := F64.Fin (mass a);
     F64.element := element a;
     F64.charge := F64.Fin (charge a) |}.

(** * Properties *)

(** ** Real-number helpers *)

Lemma TriTuple_eq (u v : TriTuple) :
  x u = x v -> y u = y v -> z u = z v -> u = v.
Proof. destruct u, v; simpl; intros; subst; reflexivity. Qed.

Lemma sqrt_unit_sum (a b c : R) : a + b + c = 1 -> sqrt (a + b + c) = 1.
Proof. intros ->. apply sqrt_1. Qed.

(** ** Torsion force *)

(** The sum of the four torsion forces, for all inputs: the terms in the
    derivative along [v_t] cancel except for one in the last component, and
    the terms in the derivative along [v_u] leave a cross product with
    [vector43]. *)
Lemma torsion_net_force_formula (kd phi pn phase : R) (atom1 atom2 atom3 atom4 : Atom) :
  let c := -0.5 * kd * pn * sin (pn * phi - phase) * (-1 / sin phi) in
  let vector12 := CalculateVector atom1 atom2 in
  let vector32 := CalculateVector atom3 atom2 in
  let vector43 := CalculateVector atom4 atom3 in
  let t := CalculateDerivate (Cross vector12 vector32) (Cross vector43 vector32) phi in
  let u := CalculateDerivate (Cross vector43 vector32) (Cross vector12 vector32) phi in
  torsion_net_force
    (CalculateProperDihedralsForce kd phi pn phase atom1 atom2 atom3 atom4)
  = {| x := c * (u.1.2 * z vector43 - u.2 * y vector43);
       y := c * (u.2 * x vector43 - u.1.1 * z vector43);
       z := c * (u.1.1 * y vector43 - u.1.2 * x vector43
                 + t.1.2 * (x vector12 - z vector12)) |}.
Proof.
  unfold CalculateProperDihedralsForce, CalculateDerivate, torsion_net_force, Tri_add.
  cbv zeta. apply TriTuple_eq; cbn [x y z fst snd]; ring.
Qed.

Lemma pair_equal_spec_R {A B : Type} (a a' : A) (b b' : B) :
  a = a' -> b = b' -> (a, b) = (a', b').
Proof. intros -> ->. reflexivity. Qed.

Lemma magnitude_unit (a b c : R) :
  a * a + b * b + c * c = 1 -> magnitude {| x := a; y := b; z := c |} = 1.
Proof. intros H. unfold magnitude; cbn [x y z]. rewrite H. apply sqrt_1. Qed.

(** The dihedral angle of the four atoms [(1,0,1)], [(0,0,0)], [(-1,-1,0)],
    [(-1,-2,-1/2)], as the angle routine computes it: the two plane normals
    are orthogonal, so the angle is [Atan2 y 0] with [y > 0], a right angle. *)
Lemma torsion_atoms_dihedral (Atan2 : R -> R -> R) :
  CalculateDihedralAngle Atan2 torsion_atom1 torsion_atom2 torsion_atom3 torsion_atom4
  = Atan2 (3 / sqrt 2) 0 * (180 / PI).
Proof.
  unfold CalculateDihedralAngle, BuildNormalVector, dot, magnitude, CalculateVector,
    torsion_atom1, torsion_atom2, torsion_atom3, torsion_atom4, atom_at.
  cbv zeta. cbn [x y z position set_position].
  f_equal. f_equal.
  - f_equal; [lra | f_equal; lra].
  - lra.
Qed.

(** C1: at [kd = -2], [phi = PI/2], [pn = 1], [phase = 0] and the atoms
    [(1,0,1)], [(0,0,0)], [(-1,-1,0)], [(-1,-2,-1/2)] the four forces returned
    by [CalculateProperDihedralsForce] are [(0,0,-1)], [(-1,0,2)],
    [(1,-1/2,1)] and [(0,0,-1)]; they sum to [(0,-1/2,1)], not to the zero
    vector. *)
Theorem CalculateProperDihedralsForce_net_nonzero :
  CalculateProperDihedralsForce (-2) (PI / 2) 1 0
    torsion_atom1 torsion_atom2 torsion_atom3 torsion_atom4
  = ({| x := 0; y := 0; z := -1 |}, {| x := -1; y := 0; z := 2 |},
     {| x := 1; y := -0.5; z := 1 |}, {| x := 0; y := 0; z := -1 |})
  /\ torsion_net_force
       (CalculateProperDihedralsForce (-2) (PI / 2) 1 0
          torsion_atom1 torsion_atom2 torsion_atom3 torsion_atom4)
     = {| x := 0; y := -0.5; z := 1 |}
  /\ torsion_net_force
       (CalculateProperDihedralsForce (-2) (PI / 2) 1 0
          torsion_atom1 torsion_atom2 torsion_atom3 torsion_atom4)
     <> TriTuple_zero.
Proof.
  assert (E : CalculateProperDihedralsForce (-2) (PI / 2) 1 0
                torsion_atom1 torsion_atom2 torsion_atom3 torsion_atom4
              = ({| x := 0; y := 0; z := -1 |}, {| x := -1; y := 0; z := 2 |},
                 {| x := 1; y := -0.5; z := 1 |}, {| x := 0; y := 0; z := -1 |})).
  { unfold CalculateProperDihedralsForce, CalculateDerivate, Cross, CalculateVector,
      torsion_atom1, torsion_atom2, torsion_atom3, torsion_atom4, atom_at.
    cbv zeta. cbn [x y z fst snd position set_position].
    replace (1 * (PI / 2) - 0) with (PI / 2) by ring.
    rewrite sin_PI2, cos_PI2.
    rewrite !magnitude_unit by lra.
    repeat apply pair_equal_spec_R; apply TriTuple_eq; cbn [x y z]; lra. }
  split; [exact E|]. rewrite E. unfold torsion_net_force, Tri_add. cbn [x y z].
  split.
  - apply TriTuple_eq; cbn [x y z]; lra.
  - unfold TriTuple_zero. intros H. apply (f_equal z) in H. cbn [z] in H. lra.
Qed.

(** The slip in the last component of [force_k] ([vector12.z] where the
    cyclic pattern of the other components has [vector12.x]) shows on the
    atoms [(-1,0,0)], [(0,0,0)], [(-1,-1,-1)], [(-1,-2,-1)], where the other
    residue vanishes. *)
Lemma CalculateProperDihedralsForce_net_slip :
  torsion_net_force
    (CalculateProperDihedralsForce (-2) (PI / 2) 1 0
       slip_atom1 slip_atom2 slip_atom3 slip_atom4)
  = {| x := 0; y := 0; z := -2 |}.
Proof.
  rewrite torsion_net_force_formula. cbv zeta.
  unfold CalculateDerivate, Cross, CalculateVector,
    slip_atom1, slip_atom2, slip_atom3, slip_atom4, atom_at.
  cbn [x y z fst snd position set_position].
  replace (1 * (PI / 2) - 0) with (PI / 2) by ring.
  rewrite sin_PI2, cos_PI2.
  rewrite !magnitude_unit by ring.
  apply TriTuple_eq; cbn [x y z]; lra.
Qed.

(** ** The two products *)

Lemma BuildNormalVector_orthogonal (v1 v2 : TriTuple) :
  dot (BuildNormalVector v1 v2) v1 = 0 /\ dot (BuildNormalVector v1 v2) v2 = 0.
Proof. unfold dot, BuildNormalVector; cbn [x y z]; split; ring. Qed.

Lemma BuildNormalVector_antisym (v1 v2 : TriTuple) :
  BuildNormalVector v2 v1 = Tri_opp (BuildNormalVector v1 v2).
Proof. unfold BuildNormalVector, Tri_opp; apply TriTuple_eq; cbn [x y z]; ring. Qed.

Lemma Cross_comm (v1 v2 : TriTuple) : Cross v2 v1 = Cross v1 v2.
Proof. unfold Cross; apply TriTuple_eq; cbn [x y z]; ring. Qed.

(** C3: [Cross] is the element-wise product and not a cross product; the
    torsion-force routine feeds [CalculateDerivate] with the element-wise
    products of its bond vectors (seen on the forces of the two end atoms),
    whereas the torsion-angle routine takes the true cross products
    [BuildNormalVector] as its plane normals. *)
Theorem Cross_elementwise_BuildNormalVector_cross (Atan2 : R -> R -> R) :
  (forall v1 v2,
      Cross v1 v2 = {| x := x v1 * x v2; y := y v1 * y v2; z := z v1 * z v2 |}
      /\ Cross v1 v2 = elementwiseProduct v1 v2)
  /\ (forall v1 v2,
        BuildNormalVector v1 v2 = planeNormal v1 v2
        /\ dot (BuildNormalVector v1 v2) v1 = 0
        /\ dot (BuildNormalVector v1 v2) v2 = 0)
  /\ (exists v1 v2,
        Cross v1 v2 <> BuildNormalVector v1 v2 /\ dot (Cross v1 v2) v1 <> 0)
  /\ (forall kd phi pn phase atom1 atom2 atom3 atom4,
        let c := -0.5 * kd * pn * sin (pn * phi - phase) * (-1 / sin phi) in
        let vector12 := displacement atom1 atom2 in
        let vector32 := displacement atom3 atom2 in
        let vector43 := displacement atom4 atom3 in
        let v_t := elementwiseProduct vector12 vector32 in
        let v_u := elementwiseProduct vector43 vector32 in
        let '(force_i, _, _, force_l) :=
          CalculateProperDihedralsForce kd phi pn phase atom1 atom2 atom3 atom4 in
        force_i
          = Tri_scale c (planeNormal vector32 (Tri_of (CalculateDerivate v_t v_u phi)))
        /\ force_l
           = Tri_scale c (planeNormal vector32 (Tri_of (CalculateDerivate v_u v_t phi))))
  /\ (forall atom1 atom2 atom3 atom4,
        let v1 := displacement atom2 atom1 in
        let v2 := displacement atom3 atom2 in
        let v3 := displacement atom4 atom3 in
        let n1 := planeNormal v1 v2 in
        let n2 := planeNormal v2 v3 in
        let n3 := planeNormal n1 n2 in
        CalculateDihedralAngle Atan2 atom1 atom2 atom3 atom4
        = Atan2 (dot n3 v2 / magnitude v2) (dot n1 n2) * (180 / PI)).
Proof.
  split; [|split; [|split; [|split]]].
  - intros v1 v2. split; reflexivity.
  - intros v1 v2. split; [reflexivity|]. apply BuildNormalVector_orthogonal.
  - exists {| x := 1; y := 0; z := 0 |}, {| x := 1; y := 0; z := 0 |}.
    unfold Cross, BuildNormalVector, dot; cbn [x y z]. split.
    + intros H. apply (f_equal x) in H. cbn [x] in H. lra.
    + lra.
  - intros kd phi pn phase atom1 atom2 atom3 atom4. cbv zeta.
    unfold CalculateProperDihedralsForce, CalculateDerivate, Cross, Tri_scale,
      planeNormal, Tri_of, elementwiseProduct, displacement, Tri_sub, CalculateVector.
    cbn [x y z fst snd]. split; apply TriTuple_eq; cbn [x y z]; ring.
  - intros atom1 atom2 atom3 atom4. cbv zeta.
    unfold CalculateDihedralAngle, BuildNormalVector, planeNormal, displacement,
      CalculateVector, Tri_sub.
    reflexivity.
Qed.

(** ** Lennard-Jones energy *)

(** C8: for [r > 0], [CalculateLJPotentialEnergy B A r] is the absolute value
    of [A / r^12 - B / r^6], hence non-negative. *)
Theorem CalculateLJPotentialEnergy_abs (B A r : R) :
  0 < r ->
  CalculateLJPotentialEnergy B A r = Rabs (A / r ^ 12 - B / r ^ 6)
  /\ 0 <= CalculateLJPotentialEnergy B A r.
Proof.
  intros _.
  assert (E : CalculateLJPotentialEnergy B A r = Rabs (A / r ^ 12 - B / r ^ 6)).
  { unfold CalculateLJPotentialEnergy. cbv zeta.
    replace (r ^ 6 * r ^ 6) with (r ^ 12) by ring.
    destruct (Rlt_dec (A / r ^ 12 - B / r ^ 6) 0) as [Hneg|Hpos].
    - symmetry. apply Rabs_left. exact Hneg.
    - symmetry. apply Rabs_right. lra. }
  split; [exact E|]. rewrite E. apply Rabs_pos.
Qed.

Lemma CalculateLJPotentialEnergy_abs_witness :
  0 < 2
  /\ CalculateLJPotentialEnergy 3 5 2 = Rabs (5 / 2 ^ 12 - 3 / 2 ^ 6)
  /\ 0 <= CalculateLJPotentialEnergy 3 5 2.
Proof.
  split; [lra | apply (CalculateLJPotentialEnergy_abs 3 5 2); lra].
Defined.

(** ** Coulomb force *)

Lemma coulomb_denominator_pos (epsilon r : R) :
  0 < epsilon -> 0 < r -> 0 < 4 * PI * epsilon * r ^ 2.
Proof.
  intros He Hr. assert (HPI : 0 < PI) by apply PI_RGT_0.
  apply Rmult_lt_0_compat; [|apply pow_lt; exact Hr].
  apply Rmult_lt_0_compat; [|exact He].
  apply Rmult_lt_0_compat; [lra | exact HPI].
Qed.

Lemma Distance_magnitude (a1 a2 : Atom) :
  Distance (position a1) (position a2) = magnitude (displacement a1 a2).
Proof.
  unfold Distance, magnitude, displacement, Tri_sub. cbv zeta. cbn [x y z].
  f_equal. ring.
Qed.

Lemma magnitude_sqr (u : TriTuple) :
  magnitude u * magnitude u = x u * x u + y u * y u + z u * z u.
Proof. unfold magnitude. apply sqrt_sqrt. nra. Qed.

Lemma magnitude_Tri_unit (u : TriTuple) :
  magnitude u <> 0 -> magnitude (Tri_unit u) = 1.
Proof.
  intros Hm. unfold Tri_unit, Tri_scale.
  unfold magnitude at 1. cbn [x y z].
  replace (/ magnitude u * x u * (/ magnitude u * x u)
           + / magnitude u * y u * (/ magnitude u * y u)
           + / magnitude u * z u * (/ magnitude u * z u))
    with (/ magnitude u * / magnitude u * (x u * x u + y u * y u + z u * z u))
    by ring.
  rewrite <- magnitude_sqr.
  replace (/ magnitude u * / magnitude u * (magnitude u * magnitude u)) with 1
    by (field; exact Hm).
  apply sqrt_1.
Qed.

(** C9: for non-zero charges at distance [r > 0], [CalculateElectricForce]
    returns [s * (q1 * q2) / (4 PI epsilon r^2)] times the unit displacement
    vector from the first atom toward the second, with [s = 1] when
    [q1 * q2 > 0] and [s = -1] otherwise; for like charges (and a positive
    permittivity) that scalar factor is positive. *)
Theorem CalculateElectricForce_spec (epsilon : R) (a1 a2 : Atom) (r : R) :
  charge a1 <> 0 -> charge a2 <> 0 ->
  0 < r -> r = Distance (position a1) (position a2) ->
  let q := charge a1 * charge a2 in
  let s := if Rlt_dec 0 q then 1 else -1 in
  let u := Tri_unit (displacement a1 a2) in
  CalculateElectricForce epsilon a1 a2 r
    = Tri_scale (s * q / (4 * PI * epsilon * r ^ 2)) u
  /\ magnitude u = 1
  /\ (0 < epsilon -> 0 < q -> 0 < s * q / (4 * PI * epsilon * r ^ 2)).
Proof.
  intros _ _ Hr Hd. cbv zeta.
  assert (Hm : magnitude (displacement a1 a2) = r)
    by (rewrite <- Distance_magnitude; congruence).
  split; [|split].
  - unfold CalculateElectricForce, Tri_unit, Tri_scale. cbv zeta.
    rewrite Hm. unfold displacement, Tri_sub. cbn [x y z].
    replace (r ^ 2) with (r * r) by ring.
    replace (4 * PI * epsilon * r * r) with (4 * PI * epsilon * (r * r)) by ring.
    destruct (Rgt_dec (charge a1 * charge a2) 0) as [Hq|Hq];
      destruct (Rlt_dec 0 (charge a1 * charge a2)) as [Hq'|Hq'];
      try (exfalso; unfold Rgt in *; lra);
      apply TriTuple_eq; cbn [x y z]; unfold Rdiv; ring.
  - apply magnitude_Tri_unit. rewrite Hm. lra.
  - intros He Hq. destruct (Rlt_dec 0 (charge a1 * charge a2)); [|lra].
    apply Rdiv_lt_0_compat; [lra|]. apply coulomb_denominator_pos; assumption.
Qed.

Lemma CalculateElectricForce_spec_witness :
  CalculateElectricForce 1 charged_atom1 charged_atom2 1
  = Tri_scale ((if Rlt_dec 0 (charge charged_atom1 * charge charged_atom2)
                then 1 else -1)
               * (charge charged_atom1 * charge charged_atom2)
               / (4 * PI * 1 * 1 ^ 2))
      (Tri_unit (displacement charged_atom1 charged_atom2)).
Proof.
  apply (CalculateElectricForce_spec 1 charged_atom1 charged_atom2 1).
  - cbn. lra.
  - cbn. lra.
  - lra.
  - unfold Distance, charged_atom1, charged_atom2, atom_at. cbn.
    symmetry. apply sqrt_unit_sum. ring.
Defined.

(** The scalar factor is in fact positive for charges of either sign: the
    returned force always points from the first atom toward the second. *)
Lemma CalculateElectricForce_factor_pos (epsilon q r : R) :
  0 < epsilon -> 0 < r -> q <> 0 ->
  0 < (if Rlt_dec 0 q then 1 else -1) * q / (4 * PI * epsilon * r ^ 2).
Proof.
  intros He Hr Hq.
  apply Rdiv_lt_0_compat; [destruct (Rlt_dec 0 q); lra |].
  apply coulomb_denominator_pos; assumption.
Qed.

(** ** Loops *)

Lemma foldM_app {A S : Type} (body : S -> A -> option S) (s : S) (l1 l2 : list A) :
  foldM body s (l1 ++ l2)
  = match foldM body s l1 with
    | Some s' => foldM body s' l2
    | None => None
    end.
Proof.
  revert s. induction l1 as [|e l1 IH]; intros s; simpl; [reflexivity|].
  destruct (body s e); [apply IH | reflexivity].
Qed.

(** Two nested [range] loops visit the concatenation of the inner slices. *)
Lemma foldM_nested {A B S : Type} (inner : B -> list A) (body : S -> A -> option S)
    (s : S) (l : list B) :
  foldM (fun s b => foldM body s (inner b)) s l
  = foldM body s (concat (inner <$> l)).
Proof.
  revert s. induction l as [|b l IH]; intros s; simpl; [reflexivity|].
  rewrite foldM_app. destruct (foldM body s (inner b)); [apply IH | reflexivity].
Qed.

Lemma elem_of_concat {A : Type} (e : A) (ls : list (list A)) :
  e ∈ concat ls <-> exists l, e ∈ l /\ l ∈ ls.
Proof.
  induction ls as [|l0 ls IH]; simpl.
  - split; [intros H; inversion H | intros (l & _ & H); inversion H].
  - rewrite elem_of_app, IH. split.
    + intros [H|(l & H1 & H2)].
      * exists l0. split; [exact H | apply elem_of_cons; left; reflexivity].
      * exists l. split; [exact H1 | apply elem_of_cons; right; exact H2].
    + intros (l & H1 & [->|H2]%elem_of_cons); [left; exact H1|].
      right. exists l. split; assumption.
Qed.

(** ** Verlet neighbour list *)

Lemma Distance_nonneg (p1 p2 : TriTuple) : 0 <= Distance p1 p2.
Proof. unfold Distance. cbv zeta. apply sqrt_pos. Qed.

Lemma verlet_visit_alloc (m : heap) (bound : R) (atom otherAtom : loc)
    (nb : gmap loc (list loc)) (acc : list loc) :
  is_Some (m !! atom) -> is_Some (m !! otherAtom) ->
  nb !! atom = Some acc ->
  verlet_visit m bound atom nb otherAtom
  = Some (if is_neighbor m bound atom otherAtom
          then <[atom := acc ++ [otherAtom]]> nb else nb).
Proof.
  intros [a Ha] [o Ho] Hnb. unfold verlet_visit, is_neighbor.
  rewrite Ha, Ho, Hnb. cbn [default].
  destruct (decide (atom = otherAtom)) as [->|Hne].
  - rewrite bool_decide_eq_false_2 by (intros H; apply H; reflexivity).
    reflexivity.
  - rewrite bool_decide_eq_true_2 by exact Hne. cbn [andb].
    destruct (index_excluded a o); cbn [negb andb]; [reflexivity|].
    destruct (Rle_dec _ _); reflexivity.
Qed.

(** The inner scan for one atom appends, in order, the atoms that pass the
    tests. *)
Lemma verlet_scan_list (m : heap) (bound : R) (atom : loc) (l : list loc) :
  is_Some (m !! atom) ->
  Forall (fun o => is_Some (m !! o)) l ->
  forall (nb : gmap loc (list loc)) (acc : list loc),
    nb !! atom = Some acc ->
    foldM (verlet_visit m bound atom) nb l
    = Some (<[atom := acc ++ filter (fun o => is_neighbor m bound atom o) l]> nb).
Proof.
  intros Ha Hl. induction Hl as [|o l Ho Hl IH]; intros nb acc Hnb.
  - simpl. rewrite app_nil_r, insert_id by exact Hnb. reflexivity.
  - simpl. rewrite (verlet_visit_alloc m bound atom o nb acc Ha Ho Hnb).
    rewrite filter_cons. destruct (is_neighbor m bound atom o) eqn:E.
    + rewrite decide_True by exact I.
      rewrite (IH _ (acc ++ [o])) by apply lookup_insert_eq.
      rewrite insert_insert_eq, <- app_assoc. reflexivity.
    + rewrite decide_False by (intros H; exact H).
      apply IH. exact Hnb.
Qed.

(** The outer loop: every atom visited gets its list; other keys keep theirs. *)
Lemma verlet_outer_list (m : heap) (bound : R) (p : Protein) (l : list loc) :
  allocated m p ->
  Forall (fun a => is_Some (m !! a)) l ->
  forall nb0 : gmap loc (list loc),
  exists nb,
    foldM (fun nb atom => verlet_scan m bound p atom (<[atom := []]> nb)) nb0 l
    = Some nb
    /\ forall a,
        nb !! a = if decide (a ∈ l)
                  then Some (filter (fun o => is_neighbor m bound a o) (protein_atoms p))
                  else nb0 !! a.
Proof.
  intros Hp Hl. induction Hl as [|a0 l Ha0 Hl IH]; intros nb0.
  - exists nb0. split; [reflexivity|]. intros a.
    rewrite decide_False by apply not_elem_of_nil. reflexivity.
  - simpl. unfold verlet_scan at 1. rewrite foldM_nested.
    fold (protein_atoms p).
    rewrite (verlet_scan_list m bound a0 (protein_atoms p) Ha0 Hp _ [])
      by apply lookup_insert_eq.
    rewrite insert_insert_eq, app_nil_l.
    destruct (IH (<[a0 := filter (fun o => is_neighbor m bound a0 o)
                            (protein_atoms p)]> nb0)) as (nb & Hnb & Hlook).
    exists nb. split; [exact Hnb|]. intros a. rewrite Hlook.
    destruct (decide (a ∈ l)) as [Hin|Hnin].
    + rewrite decide_True by (apply elem_of_cons; right; exact Hin). reflexivity.
    + destruct (decide (a = a0)) as [->|Hne].
      * rewrite decide_True by (apply elem_of_cons; left; reflexivity).
        apply lookup_insert_eq.
      * rewrite decide_False
          by (intros [H|H]%elem_of_cons; [exact (Hne H) | exact (Hnin H)]).
        apply lookup_insert_ne. congruence.
Qed.

(** What [BuildVerlet] computes on a protein without nil atoms. *)
Lemma BuildVerlet_spec (m : heap) (v : VerletList) (p : Protein) :
  allocated m p ->
  exists v',
    BuildVerlet m v p = Some v'
    /\ Cutoff v' = Cutoff v /\ Buffer v' = Buffer v
    /\ forall a,
        Neighbors v' !! a
        = if decide (a ∈ protein_atoms p)
          then Some (filter (fun o => is_neighbor m (Cutoff v + Buffer v) a o)
                       (protein_atoms p))
          else None.
Proof.
  intros Hp. unfold BuildVerlet. cbv zeta.
  rewrite (foldM_nested Atoms
             (fun nb atom => verlet_scan m (Cutoff v + Buffer v) p atom (<[atom := []]> nb))).
  fold (protein_atoms p).
  destruct (verlet_outer_list m (Cutoff v + Buffer v) p (protein_atoms p) Hp Hp ∅)
    as (nb & -> & Hlook).
  eexists. split; [reflexivity|]. cbn [Neighbors Cutoff Buffer].
  split; [reflexivity|]. split; [reflexivity|].
  intros a. rewrite Hlook. destruct (decide (a ∈ protein_atoms p)); [reflexivity|].
  apply lookup_empty.
Qed.

Lemma is_neighbor_true (m : heap) (bound : R) (atom otherAtom : loc) :
  is_neighbor m bound atom otherAtom = true
  <-> atom <> otherAtom
      /\ exists a o,
          m !! atom = Some a /\ m !! otherAtom = Some o
          /\ index_excluded a o = false
          /\ Distance (position a) (position o) <= bound.
Proof.
  unfold is_neighbor. split.
  - destruct (m !! atom) as [a|]; [|discriminate].
    destruct (m !! otherAtom) as [o|]; [|discriminate].
    intros H. apply andb_prop in H as [H Hd]. apply andb_prop in H as [Hne Hx].
    apply bool_decide_eq_true_1 in Hne. split; [exact Hne|].
    exists a, o. repeat split; try reflexivity.
    + destruct (index_excluded a o); [discriminate | reflexivity].
    + destruct (Rle_dec _ _); [assumption | discriminate].
  - intros (Hne & a & o & -> & -> & Hx & Hd).
    rewrite Hx, bool_decide_eq_true_2 by exact Hne. cbn [negb andb].
    destruct (Rle_dec _ _); [reflexivity | contradiction].
Qed.

Lemma Int_wrap_in_range (n : Z) : Int.in_range n -> Int.wrap n = n.
Proof.
  unfold Int.in_range, Int.wrap, Int.min_int, Int.max_int, Int.modulus, Int.bits.
  intros H. rewrite Z.mod_small; lia.
Qed.

(** Away from the two ends of the integer range the index test is the test
    [|otherAtom.index - atom.index| <= 3]. *)
Lemma index_excluded_interior (a o : Atom) :
  (Int.min_int + 3 <= index a <= Int.max_int - 3)%Z ->
  index_excluded a o = true <-> (Z.abs (index o - index a) <= 3)%Z.
Proof.
  intros H. unfold index_excluded, Int.add, Int.sub.
  rewrite !Int_wrap_in_range by (unfold Int.in_range; lia).
  rewrite andb_true_iff, !Z.leb_le. lia.
Qed.

Lemma allocated_pair_heap : allocated pair_heap pair_protein.
Proof. repeat constructor; eexists; reflexivity. Qed.

Lemma allocated_edge_heap : allocated edge_heap pair_protein.
Proof. repeat constructor; eexists; reflexivity. Qed.

Lemma Distance_unit_x :
  Distance (position (atom_at 0 0 0)) (position (atom_at 1 0 0)) = 1.
Proof.
  unfold Distance, atom_at. cbn [position set_position x y z].
  apply sqrt_unit_sum. ring.
Qed.

(** Apart from the identity test, exclusion rests on the index test, which
    is the test [|index difference| <= 3] for every atom whose index is at
    least 3 away from both ends of the integer range: on a protein without
    nil atoms [BuildVerlet] returns, no neighbour list contains its own atom,
    and the list of such an atom contains no atom whose index differs from
    its own by 3 or fewer, whatever the distance. *)
Lemma BuildVerlet_excludes_near_indices (m : heap) (v : VerletList) (p : Protein) :
  allocated m p ->
  exists v',
    BuildVerlet m v p = Some v'
    /\ forall atom ns otherAtom,
        Neighbors v' !! atom = Some ns -> otherAtom ∈ ns ->
        atom <> otherAtom
        /\ forall a o,
            m !! atom = Some a -> m !! otherAtom = Some o ->
            (Int.min_int + 3 <= index a <= Int.max_int - 3)%Z ->
            (3 < Z.abs (index o - index a))%Z.
Proof.
  intros Hp. destruct (BuildVerlet_spec m v p Hp) as (v' & Hv' & _ & _ & Hlook).
  exists v'. split; [exact Hv'|]. intros atom ns otherAtom Hns Hin.
  rewrite Hlook in Hns. destruct (decide (atom ∈ protein_atoms p)); [|discriminate].
  injection Hns as <-. apply list_elem_of_filter in Hin as [Hn _].
  apply Is_true_true_1, is_neighbor_true in Hn
    as (Hne & a & o & Ha & Ho & Hx & _).
  split; [exact Hne|]. intros a' o' Ha' Ho' Hr.
  rewrite Ha in Ha'. rewrite Ho in Ho'. injection Ha' as <-. injection Ho' as <-.
  destruct (Z_le_gt_dec (Z.abs (index o - index a)) 3) as [Hle|Hgt]; [|lia].
  apply (index_excluded_interior a o Hr) in Hle. congruence.
Qed.

Example BuildVerlet_excludes_near_indices_pair :
  exists v',
    BuildVerlet pair_heap {| Neighbors := ∅; Cutoff := 0; Buffer := 2 |} pair_protein
    = Some v'
    /\ forall atom ns otherAtom,
        Neighbors v' !! atom = Some ns -> otherAtom ∈ ns ->
        atom <> otherAtom
        /\ forall a o,
            pair_heap !! atom = Some a -> pair_heap !! otherAtom = Some o ->
            (Int.min_int + 3 <= index a <= Int.max_int - 3)%Z ->
            (3 < Z.abs (index o - index a))%Z.
Proof.
  apply (BuildVerlet_excludes_near_indices pair_heap _ pair_protein).
  repeat constructor; eexists; reflexivity.
Defined.

(** C4: at the upper end of the integer range [atom.index + 3] wraps around.
    For two atoms one length unit apart with indices [max_int] and
    [max_int - 1], [Cutoff = 2] and [Buffer = 0], [BuildVerlet] records the
    second atom as a neighbour of the first, although their indices differ
    by 1. *)
Theorem BuildVerlet_adjacent_indices_recorded :
  exists v' a o,
    BuildVerlet edge_heap {| Neighbors := ∅; Cutoff := 2; Buffer := 0 |} pair_protein
    = Some v'
    /\ Neighbors v' !! 1%positive = Some [2%positive]
    /\ edge_heap !! 1%positive = Some a /\ edge_heap !! 2%positive = Some o
    /\ Int.in_range (index a) /\ Int.in_range (index o)
    /\ Z.abs (index o - index a) = 1%Z.
Proof.
  destruct (BuildVerlet_spec edge_heap {| Neighbors := ∅; Cutoff := 2; Buffer := 0 |}
              pair_protein allocated_edge_heap) as (v' & Hv' & _ & _ & Hlook).
  exists v'. eexists _, _. split; [exact Hv'|]. split.
  - rewrite Hlook. cbn [Cutoff Buffer].
    assert (N11 : is_neighbor edge_heap (2 + 0) 1%positive 1%positive = false).
    { unfold is_neighbor, edge_heap. rewrite lookup_insert_eq.
      rewrite bool_decide_eq_false_2 by (intros H; apply H; reflexivity).
      reflexivity. }
    assert (N12 : is_neighbor edge_heap (2 + 0) 1%positive 2%positive = true).
    { apply is_neighbor_true. split; [discriminate|].
      eexists _, _. split; [reflexivity|]. split; [reflexivity|].
      split; [reflexivity|].
      cbn [position set_index]. rewrite Distance_unit_x. lra. }
    rewrite decide_True by (apply elem_of_cons; left; reflexivity).
    unfold protein_atoms, pair_protein. cbn [Protein_Residue fmap list_fmap Atoms concat app].
    rewrite !filter_cons, filter_nil, N11, N12.
    rewrite decide_False by (intros H; exact H).
    rewrite decide_True by exact I. reflexivity.
  - split; [reflexivity|]. split; [reflexivity|].
    cbn [index set_index]. unfold Int.in_range.
    split; [split; discriminate|]. split; [split; discriminate|]. reflexivity.
Qed.

(** C2: with [Cutoff = 0] the distance bound is the buffer alone.  On a
    protein without nil atoms [BuildVerlet] returns and gives every atom a
    list; [otherAtom] is on the list of [atom] exactly when it is another
    atom of the protein, not index-excluded, at distance at most [Buffer];
    so every list is empty when the buffer is negative, and the outcome is
    not independent of the buffer. *)
Theorem BuildVerlet_zero_cutoff (m : heap) (v : VerletList) (p : Protein) :
  allocated m p -> Cutoff v = 0 ->
  exists v',
    BuildVerlet m v p = Some v'
    /\ (forall atom, atom ∈ protein_atoms p -> is_Some (Neighbors v' !! atom))
    /\ (forall atom ns,
          Neighbors v' !! atom = Some ns ->
          forall otherAtom,
            otherAtom ∈ ns
            <-> otherAtom ∈ protein_atoms p
                /\ atom <> otherAtom
                /\ exists a o,
                    m !! atom = Some a /\ m !! otherAtom = Some o
                    /\ index_excluded a o = false
                    /\ Distance (position a) (position o) <= Buffer v)
    /\ (Buffer v < 0 -> forall atom ns, Neighbors v' !! atom = Some ns -> ns = []).
Proof.
  intros Hp Hc. destruct (BuildVerlet_spec m v p Hp) as (v' & Hv' & _ & _ & Hlook).
  rewrite Hc, Rplus_0_l in Hlook.
  assert (Hmem : forall atom ns,
             Neighbors v' !! atom = Some ns ->
             forall otherAtom,
               otherAtom ∈ ns
               <-> otherAtom ∈ protein_atoms p
                   /\ atom <> otherAtom
                   /\ exists a o,
                       m !! atom = Some a /\ m !! otherAtom = Some o
                       /\ index_excluded a o = false
                       /\ Distance (position a) (position o) <= Buffer v).
  { intros atom ns Hns otherAtom. rewrite Hlook in Hns.
    destruct (decide (atom ∈ protein_atoms p)); [|discriminate].
    injection Hns as <-. rewrite list_elem_of_filter. split.
    - intros [Hn Hin]. apply Is_true_true_1, is_neighbor_true in Hn as [Hne Hex].
      split; [exact Hin|]. split; [exact Hne | exact Hex].
    - intros (Hin & Hne & Hex). split; [|exact Hin].
      apply Is_true_true_2, is_neighbor_true. split; [exact Hne | exact Hex]. }
  exists v'. split; [exact Hv'|]. split; [|split; [exact Hmem|]].
  - intros atom Hin. rewrite Hlook, decide_True by exact Hin. eexists; reflexivity.
  - intros Hb atom ns Hns. destruct ns as [|o ns]; [reflexivity|]. exfalso.
    destruct (proj1 (Hmem atom (o :: ns) Hns o)) as (_ & _ & a & o' & _ & _ & _ & Hd).
    + apply elem_of_cons; left; reflexivity.
    + pose proof (Distance_nonneg (position a) (position o')). lra.
Qed.

Lemma BuildVerlet_zero_cutoff_witness :
  exists v',
    BuildVerlet pair_heap {| Neighbors := ∅; Cutoff := 0; Buffer := -1 |} pair_protein
    = Some v'
    /\ forall atom ns, Neighbors v' !! atom = Some ns -> ns = [].
Proof.
  destruct (BuildVerlet_zero_cutoff pair_heap
              {| Neighbors := ∅; Cutoff := 0; Buffer := -1 |} pair_protein)
    as (v' & Hv' & _ & _ & Hempty).
  - repeat constructor; eexists; reflexivity.
  - reflexivity.
  - exists v'. split; [exact Hv'|]. apply Hempty. cbn [Buffer]. lra.
Defined.

(** With [Cutoff = 0] and [Buffer = 2] two atoms one length unit apart are
    neighbours; with [Buffer = 1/2] they are not. *)
Lemma BuildVerlet_zero_cutoff_nonempty :
  (exists v',
      BuildVerlet pair_heap {| Neighbors := ∅; Cutoff := 0; Buffer := 2 |} pair_protein
      = Some v'
      /\ Neighbors v' !! 1%positive = Some [2%positive])
  /\ (exists v',
        BuildVerlet pair_heap {| Neighbors := ∅; Cutoff := 0; Buffer := 0.5 |}
          pair_protein
        = Some v'
        /\ Neighbors v' !! 1%positive = Some []).
Proof.
  assert (N11 : forall b, is_neighbor pair_heap b 1%positive 1%positive = false).
  { intros b. unfold is_neighbor, pair_heap. rewrite lookup_insert_eq.
    rewrite bool_decide_eq_false_2 by (intros H; apply H; reflexivity).
    reflexivity. }
  assert (N12 : is_neighbor pair_heap (0 + 2) 1%positive 2%positive = true).
  { apply is_neighbor_true. split; [discriminate|].
    eexists _, _. split; [reflexivity|]. split; [reflexivity|].
    split; [reflexivity|].
    cbn [position set_index]. rewrite Distance_unit_x. lra. }
  assert (N12' : is_neighbor pair_heap (0 + 0.5) 1%positive 2%positive = false).
  { destruct (is_neighbor pair_heap (0 + 0.5) 1%positive 2%positive) eqn:E;
      [|reflexivity].
    apply is_neighbor_true in E as (_ & a & o & Ha & Ho & _ & Hd).
    unfold pair_heap in Ha, Ho.
    rewrite lookup_insert_eq in Ha.
    rewrite lookup_insert_ne, lookup_insert_eq in Ho by discriminate.
    injection Ha as <-. injection Ho as <-.
    cbn [position set_index] in Hd. rewrite Distance_unit_x in Hd. lra. }
  split.
  - destruct (BuildVerlet_spec pair_heap {| Neighbors := ∅; Cutoff := 0; Buffer := 2 |}
                pair_protein allocated_pair_heap) as (v' & Hv' & _ & _ & Hlook).
    exists v'. split; [exact Hv'|]. rewrite Hlook. cbn [Cutoff Buffer].
    rewrite decide_True by (apply elem_of_cons; left; reflexivity).
    unfold protein_atoms, pair_protein.
    cbn [Protein_Residue fmap list_fmap Atoms concat app].
    rewrite !filter_cons, filter_nil, N11, N12.
    rewrite decide_False by (intros H; exact H).
    rewrite decide_True by exact I. reflexivity.
  - destruct (BuildVerlet_spec pair_heap {| Neighbors := ∅; Cutoff := 0; Buffer := 0.5 |}
                pair_protein allocated_pair_heap) as (v' & Hv' & _ & _ & Hlook).
    exists v'. split; [exact Hv'|]. rewrite Hlook. cbn [Cutoff Buffer].
    rewrite decide_True by (apply elem_of_cons; left; reflexivity).
    unfold protein_atoms, pair_protein.
    cbn [Protein_Residue fmap list_fmap Atoms concat app].
    rewrite !filter_cons, filter_nil, N11, N12'.
    rewrite !decide_False by (intros H; exact H). reflexivity.
Qed.

(** ** The atom store *)

Lemma M_bind_unfold {A B : Type} (c : M A) (f : A -> M B) (m : heap) :
  (c ≫= f) m = match c m with Some (a, m') => f a m' | None => None end.
Proof. reflexivity. Qed.

Lemma CopyTriTuple_id (t : TriTuple) : CopyTriTuple t = t.
Proof. destruct t; reflexivity. Qed.

Lemma alloc_fresh (a : Atom) (m : heap) :
  exists p, alloc a m = Some (p, <[p := a]> m) /\ m !! p = None.
Proof.
  exists (fresh (dom m)). split; [reflexivity|].
  apply not_elem_of_dom, is_fresh.
Qed.

Lemma CopyAtom_spec (currAtom : loc) (c : Atom) (m : heap) :
  m !! currAtom = Some c ->
  exists p c',
    CopyAtom currAtom m = Some (p, <[p := c']> m)
    /\ m !! p = None /\ is_copy c c'.
Proof.
  intros Hc. unfold CopyAtom. rewrite M_bind_unfold. unfold load. rewrite Hc.
  cbv zeta.
  destruct (alloc_fresh
              (set_element (element c)
                 (set_accelerated (CopyTriTuple (accelerated c))
                    (set_velocity (CopyTriTuple (velocity c))
                       (set_position (CopyTriTuple (position c))
                          (set_force (CopyTriTuple (force c))
                             (set_mass (mass c) Atom_zero)))))) m)
    as (p & Hp & Hfresh).
  eexists p, _. split; [exact Hp|]. split; [exact Hfresh|].
  unfold is_copy. cbn. rewrite !CopyTriTuple_id. repeat split; reflexivity.
Qed.

Lemma copy_at_weaken (m m1 m2 : heap) (p p' : loc) :
  m1 ⊆ m2 -> copy_at m m1 p p' -> copy_at m m2 p p'.
Proof.
  intros Hsub (c & c' & Hc & Hc' & Hcopy). exists c, c'.
  split; [exact Hc|]. split; [|exact Hcopy].
  eapply lookup_weaken; eassumption.
Qed.

Lemma copy_at_source (m0 m m' : heap) (p p' : loc) :
  m0 ⊆ m -> is_Some (m0 !! p) -> copy_at m m' p p' -> copy_at m0 m' p p'.
Proof.
  intros Hsub [c0 Hc0] (c & c' & Hc & Hc' & Hcopy). exists c, c'.
  split; [|split; assumption].
  rewrite Hc0. rewrite (lookup_weaken _ _ _ _ Hc0 Hsub) in Hc. exact Hc.
Qed.

Lemma allocated_weaken (m m' : heap) (l : list loc) :
  m ⊆ m' -> Forall (fun p => is_Some (m !! p)) l ->
  Forall (fun p => is_Some (m' !! p)) l.
Proof.
  intros Hsub Hl. eapply Forall_impl; [exact Hl|]. intros p [c Hc]. exists c.
  eapply lookup_weaken; eassumption.
Qed.

(** Copying the atoms of a residue: the store only grows, by one fresh
    location per atom. *)
Lemma mapM_CopyAtom_spec (l : list loc) :
  forall m : heap,
    Forall (fun p => is_Some (m !! p)) l ->
    exists l' m',
      mapM CopyAtom l m = Some (l', m')
      /\ m ⊆ m'
      /\ Forall2 (copy_at m m') l l'
      /\ Forall (fun p' => m !! p' = None /\ is_Some (m' !! p')) l'.
Proof.
  induction l as [|p l IH]; intros m Hl.
  - exists [], m. split; [reflexivity|]. split; [reflexivity|].
    split; constructor.
  - apply Forall_cons in Hl as [[c Hc] Hl]. cbn [mapM].
    destruct (CopyAtom_spec p c m Hc) as (p' & c' & Hp' & Hfresh & Hcopy).
    assert (Hsub1 : m ⊆ <[p' := c']> m) by (apply insert_subseteq; exact Hfresh).
    destruct (IH (<[p' := c']> m) (allocated_weaken _ _ _ Hsub1 Hl))
      as (l' & m' & Hl' & Hsub2 & Hcopies & Hnew).
    exists (p' :: l'), m'. split; [|split; [|split]].
    + rewrite M_bind_unfold, Hp', M_bind_unfold, Hl'. reflexivity.
    + etransitivity; eassumption.
    + constructor.
      * exists c, c'. split; [exact Hc|]. split; [|exact Hcopy].
        eapply lookup_weaken; [apply lookup_insert_eq | exact Hsub2].
      * eapply Forall2_impl; [|intros q q' H; exact H].
        clear -Hcopies Hsub1 Hl.
        induction Hcopies as [|q q' l l' Hq Hqs IHq]; [constructor|].
        apply Forall_cons in Hl as [Hq0 Hl]. constructor; [|apply IHq; exact Hl].
        eapply copy_at_source; eassumption.
    + constructor.
      * split; [exact Hfresh|]. exists c'.
        eapply lookup_weaken; [apply lookup_insert_eq | exact Hsub2].
      * eapply Forall_impl; [exact Hnew|]. intros q [Hq1 Hq2]. split; [|exact Hq2].
        destruct (m !! q) as [cq|] eqn:E; [|reflexivity].
        rewrite (lookup_weaken _ _ _ _ E Hsub1) in Hq1. discriminate.
Qed.

Lemma lookup_None_weaken (m m' : heap) (p : loc) :
  m ⊆ m' -> m' !! p = None -> m !! p = None.
Proof.
  intros Hsub Hnone. destruct (m !! p) as [c|] eqn:E; [|reflexivity].
  rewrite (lookup_weaken _ _ _ _ E Hsub) in Hnone. discriminate.
Qed.

Lemma is_Some_weaken (m m' : heap) (p : loc) :
  m ⊆ m' -> is_Some (m !! p) -> is_Some (m' !! p).
Proof. intros Hsub [c Hc]. exists c. eapply lookup_weaken; eassumption. Qed.

Lemma Forall2_copy_at_weaken (m m1 m2 : heap) (l l' : list loc) :
  m1 ⊆ m2 -> Forall2 (copy_at m m1) l l' -> Forall2 (copy_at m m2) l l'.
Proof.
  intros Hsub H. eapply Forall2_impl; [exact H|].
  intros p p'. apply copy_at_weaken. exact Hsub.
Qed.

Lemma Forall2_copy_at_source (m0 m m' : heap) (l l' : list loc) :
  m0 ⊆ m -> Forall (fun p => is_Some (m0 !! p)) l ->
  Forall2 (copy_at m m') l l' -> Forall2 (copy_at m0 m') l l'.
Proof.
  intros Hsub Hl H. induction H as [|p p' l l' Hp Hps IH]; [constructor|].
  apply Forall_cons in Hl as [Hp0 Hl]. constructor; [|apply IH; exact Hl].
  eapply copy_at_source; eassumption.
Qed.

Lemma CopyResidue_spec (currRes : Residue) (m : heap) :
  Forall (fun p => is_Some (m !! p)) (Atoms currRes) ->
  exists r' m',
    CopyResidue currRes m = Some (r', m')
    /\ m ⊆ m'
    /\ residue_copy_at m m' currRes r'
    /\ Forall (fun p' => m !! p' = None /\ is_Some (m' !! p')) (Atoms r').
Proof.
  intros Hl. destruct (mapM_CopyAtom_spec (Atoms currRes) m Hl)
    as (l' & m' & Hl' & Hsub & Hcopies & Hnew).
  eexists _, m'. split; [|split; [exact Hsub|split]].
  - unfold CopyResidue. rewrite M_bind_unfold, Hl'. reflexivity.
  - unfold residue_copy_at. cbn [Residue_Name ID ChainID Atoms].
    repeat split; try reflexivity. exact Hcopies.
  - exact Hnew.
Qed.

Lemma mapM_CopyResidue_spec (rs : list Residue) :
  forall m : heap,
    Forall (fun r => Forall (fun p => is_Some (m !! p)) (Atoms r)) rs ->
    exists rs' m',
      mapM CopyResidue rs m = Some (rs', m')
      /\ m ⊆ m'
      /\ Forall2 (residue_copy_at m m') rs rs'
      /\ Forall (fun r' =>
                   Forall (fun p' => m !! p' = None /\ is_Some (m' !! p')) (Atoms r'))
           rs'.
Proof.
  induction rs as [|r rs IH]; intros m Hrs.
  - exists [], m. split; [reflexivity|]. split; [reflexivity|]. split; constructor.
  - apply Forall_cons in Hrs as [Hr Hrs]. cbn [mapM].
    destruct (CopyResidue_spec r m Hr) as (r' & m1 & Hr' & Hsub1 & Hcopy & Hnew).
    destruct (IH m1) as (rs' & m' & Hrs' & Hsub2 & Hcopies & Hnews).
    { eapply Forall_impl; [exact Hrs|]. intros r0. apply allocated_weaken. exact Hsub1. }
    exists (r' :: rs'), m'. split; [|split; [|split]].
    + rewrite M_bind_unfold, Hr', M_bind_unfold, Hrs'. reflexivity.
    + etransitivity; eassumption.
    + constructor.
      * destruct Hcopy as (Hn & Hi & Hc & Hat). repeat split; try assumption.
        eapply Forall2_copy_at_weaken; eassumption.
      * clear -Hcopies Hsub1 Hrs.
        induction Hcopies as [|r0 r0' rs rs' Hr0 Hrs0 IHr]; [constructor|].
        apply Forall_cons in Hrs as [Hr0a Hrs]. constructor; [|apply IHr; exact Hrs].
        destruct Hr0 as (Hn & Hi & Hc & Hat). repeat split; try assumption.
        eapply Forall2_copy_at_source; eassumption.
    + constructor.
      * eapply Forall_impl; [exact Hnew|]. intros q [Hq1 Hq2].
        split; [exact Hq1|]. eapply is_Some_weaken; eassumption.
      * eapply Forall_impl; [exact Hnews|]. intros r0 Hr0.
        eapply Forall_impl; [exact Hr0|]. intros q [Hq1 Hq2].
        split; [|exact Hq2]. eapply lookup_None_weaken; eassumption.
Qed.

Lemma allocated_residues (m : heap) (p : Protein) :
  allocated m p
  <-> Forall (fun r => Forall (fun q => is_Some (m !! q)) (Atoms r)) (Protein_Residue p).
Proof.
  unfold allocated, protein_atoms. rewrite Forall_concat, Forall_fmap. reflexivity.
Qed.

(** What [CopyProtein] computes on a protein without nil atoms. *)
Lemma CopyProtein_spec (currentProtein : Protein) (m : heap) :
  allocated m currentProtein ->
  exists p' m',
    CopyProtein currentProtein m = Some (p', m')
    /\ m ⊆ m'
    /\ Name p' = Name currentProtein
    /\ Forall2 (residue_copy_at m m') (Protein_Residue currentProtein) (Protein_Residue p')
    /\ Forall (fun q' => m !! q' = None /\ is_Some (m' !! q')) (protein_atoms p').
Proof.
  intros Hp. apply allocated_residues in Hp.
  destruct (mapM_CopyResidue_spec (Protein_Residue currentProtein) m Hp)
    as (rs' & m' & Hrs' & Hsub & Hcopies & Hnew).
  eexists _, m'. split; [|split; [exact Hsub|split; [|split]]].
  - unfold CopyProtein. rewrite M_bind_unfold, Hrs'. reflexivity.
  - reflexivity.
  - exact Hcopies.
  - unfold protein_atoms. cbn [Protein_Residue].
    rewrite Forall_concat, Forall_fmap. exact Hnew.
Qed.

(** C7: [CopyProtein] succeeds on a protein without nil atoms and leaves the
    existing atoms alone; the copy has the same name and, residue by residue
    and atom by atom, the mass, force, position, velocity, acceleration and
    element of the original, while every atom of the copy has index 0 and
    charge 0. *)
Theorem CopyProtein_drops_index_and_charge (currentProtein : Protein) (m : heap) :
  allocated m currentProtein ->
  exists p' m',
    CopyProtein currentProtein m = Some (p', m')
    /\ m ⊆ m'
    /\ Name p' = Name currentProtein
    /\ Forall2 (fun r r' =>
                  Residue_Name r' = Residue_Name r /\ ID r' = ID r
                  /\ ChainID r' = ChainID r
                  /\ Forall2 (fun q q' =>
                                exists c c',
                                  m !! q = Some c /\ m' !! q' = Some c'
                                  /\ mass c' = mass c /\ force c' = force c
                                  /\ position c' = position c
                                  /\ velocity c' = velocity c
                                  /\ accelerated c' = accelerated c
                                  /\ element c' = element c)
                       (Atoms r) (Atoms r'))
         (Protein_Residue currentProtein) (Protein_Residue p')
    /\ forall q', q' ∈ protein_atoms p' ->
         exists c', m' !! q' = Some c' /\ index c' = 0%Z /\ charge c' = 0.
Proof.
  intros Hp.
  destruct (CopyProtein_spec currentProtein m Hp)
    as (p' & m' & Hrun & Hsub & Hname & Hcopies & Hnew).
  exists p', m'. split; [exact Hrun|]. split; [exact Hsub|]. split; [exact Hname|].
  split.
  - eapply Forall2_impl; [exact Hcopies|]. intros r r' (Hn & Hi & Hc & Hat).
    repeat split; try assumption.
    eapply Forall2_impl; [exact Hat|]. intros q q' (c & c' & Hq & Hq' & Hcopy).
    exists c, c'. unfold is_copy in Hcopy. intuition.
  - intros q' Hq'. unfold protein_atoms in Hq'.
    apply elem_of_concat in Hq' as (l' & Hq' & Hl').
    apply list_elem_of_fmap in Hl' as (r' & -> & Hr').
    apply list_elem_of_lookup in Hr' as [i Hi].
    destruct (Forall2_lookup_r _ _ _ _ _ Hcopies Hi) as (r & _ & _ & _ & _ & Hat).
    apply list_elem_of_lookup in Hq' as [j Hj].
    destruct (Forall2_lookup_r _ _ _ _ _ Hat Hj) as (q & _ & c & c' & _ & Hc' & Hcopy).
    exists c'. unfold is_copy in Hcopy. intuition.
Qed.

(** ** Steepest descent *)

Lemma store_alloc (p : loc) (a : Atom) (m : heap) :
  is_Some (m !! p) -> store p a m = Some (tt, <[p := a]> m).
Proof. intros [c Hc]. unfold store. rewrite Hc. reflexivity. Qed.

Lemma descend_atom_spec (h : R) (j : Z) (p : loc) (m : heap) :
  is_Some (m !! p) ->
  exists a', descend_atom h j p m = Some (tt, <[p := a']> m).
Proof.
  intros [a Ha]. unfold descend_atom. cbv zeta.
  rewrite M_bind_unfold. unfold load at 1. rewrite Ha.
  rewrite M_bind_unfold, store_alloc by (exists a; exact Ha).
  rewrite M_bind_unfold. unfold load at 1. rewrite lookup_insert_eq.
  rewrite M_bind_unfold, store_alloc by (rewrite lookup_insert_eq; eexists; reflexivity).
  rewrite M_bind_unfold. unfold load at 1. rewrite insert_insert_eq, lookup_insert_eq.
  rewrite store_alloc by (rewrite lookup_insert_eq; eexists; reflexivity).
  rewrite insert_insert_eq. eexists. reflexivity.
Qed.

(** The inner loop moves the listed atoms and nothing else. *)
Lemma descend_atoms_spec (h : R) (l : list loc) :
  forall (j : Z) (m : heap),
    Forall (fun p => is_Some (m !! p)) l ->
    exists m',
      range_loop (descend_atom h) j l m = Some (tt, m')
      /\ dom m' = dom m
      /\ forall q, q ∉ l -> m' !! q = m !! q.
Proof.
  induction l as [|p l IH]; intros j m Hl.
  - exists m. split; [reflexivity|]. split; [reflexivity|]. intros; reflexivity.
  - apply Forall_cons in Hl as [Hp Hl]. cbn [range_loop].
    destruct (descend_atom_spec h j p m Hp) as [a' Ha'].
    assert (Hdom : dom (<[p := a']> m) = dom m).
    { rewrite dom_insert_L. apply subseteq_union_1_L, singleton_subseteq_l.
      apply elem_of_dom. exact Hp. }
    destruct (IH (j + 1)%Z (<[p := a']> m)) as (m' & Hrun & Hdom' & Hframe).
    { eapply Forall_impl; [exact Hl|]. intros q Hq.
      apply elem_of_dom. rewrite Hdom. apply elem_of_dom. exact Hq. }
    exists m'. split; [|split].
    + rewrite M_bind_unfold, Ha'. exact Hrun.
    + rewrite Hdom'. exact Hdom.
    + intros q Hq. apply not_elem_of_cons in Hq as [Hne Hq].
      rewrite (Hframe q Hq). apply lookup_insert_ne. congruence.
Qed.

Lemma descend_residues_spec (h : R) (rs : list Residue) :
  forall (i : Z) (m : heap),
    Forall (fun r => Forall (fun p => is_Some (m !! p)) (Atoms r)) rs ->
    exists m',
      range_loop (fun _ residue => range_loop (descend_atom h) 0%Z (Atoms residue))
        i rs m
      = Some (tt, m')
      /\ dom m' = dom m
      /\ forall q, q ∉ concat (Atoms <$> rs) -> m' !! q = m !! q.
Proof.
  induction rs as [|r rs IH]; intros i m Hrs.
  - exists m. split; [reflexivity|]. split; [reflexivity|]. intros; reflexivity.
  - apply Forall_cons in Hrs as [Hr Hrs]. cbn [range_loop].
    destruct (descend_atoms_spec h (Atoms r) 0%Z m Hr) as (m1 & Hrun1 & Hdom1 & Hframe1).
    destruct (IH (i + 1)%Z m1) as (m' & Hrun & Hdom' & Hframe).
    { eapply Forall_impl; [exact Hrs|]. intros r0 Hr0.
      eapply Forall_impl; [exact Hr0|]. intros q Hq.
      apply elem_of_dom. rewrite Hdom1. apply elem_of_dom. exact Hq. }
    exists m'. split; [|split].
    + rewrite M_bind_unfold, Hrun1. exact Hrun.
    + rewrite Hdom'. exact Hdom1.
    + intros q Hq. cbn [fmap list_fmap concat] in Hq.
      apply not_elem_of_app in Hq as [Hq1 Hq2].
      rewrite (Hframe q Hq2). apply Hframe1. exact Hq1.
Qed.

(** [SteepestDescent] on a protein without nil atoms returns that protein,
    having touched only the atoms of the protein. *)
Lemma SteepestDescent_spec (protein : Protein) (h : R) (m : heap) :
  allocated m protein ->
  exists m',
    SteepestDescent protein h m = Some (protein, m')
    /\ dom m' = dom m
    /\ forall q, q ∉ protein_atoms protein -> m' !! q = m !! q.
Proof.
  intros Hp. apply allocated_residues in Hp.
  destruct (descend_residues_spec h (Protein_Residue protein) 0%Z m Hp)
    as (m' & Hrun & Hdom & Hframe).
  exists m'. split; [|split; assumption].
  unfold SteepestDescent. rewrite M_bind_unfold, Hrun. reflexivity.
Qed.

(** ** Minimizer *)

Section MinimizerLoop.
Variable TotalEnergy : Protein -> heap -> R.

Lemma minimize_loop_step (iteration i : Z) (st : Protein * R) (m : heap) :
  minimize_loop TotalEnergy iteration i st m
  = if Z_lt_dec i iteration
    then match minimize_body TotalEnergy st m with
         | Some (st', m') => minimize_loop TotalEnergy iteration (i + 1) st' m'
         | None => None
         end
    else Some (st, m).
Proof.
  rewrite minimize_loop_unfold_eq. unfold minimize_loop_unfold.
  destruct (Z_lt_dec i iteration); [|reflexivity].
  cbn [minimize_loop_unfold_clause_1].
  destruct (minimize_body TotalEnergy st m) as [[st' m']|]; reflexivity.
Qed.

(** The counting loop runs its body once for every integer from [i] up to
    [iteration - 1]. *)
Lemma minimize_loop_iterate (iteration : Z) (n : nat) :
  forall (i : Z) (st : Protein * R) (m : heap),
    (i + Z.of_nat n = iteration)%Z ->
    minimize_loop TotalEnergy iteration i st m
    = iterate n (minimize_body TotalEnergy) st m.
Proof.
  induction n as [|n IH]; intros i st m Hi; rewrite minimize_loop_step.
  - destruct (Z_lt_dec i iteration); [lia | reflexivity].
  - destruct (Z_lt_dec i iteration); [|lia].
    cbn [iterate]. rewrite M_bind_unfold.
    destruct (minimize_body TotalEnergy st m) as [[st' m']|]; [|reflexivity].
    apply IH. lia.
Qed.

(** The loop body is one iteration as the specification words it. *)
Lemma minimize_body_spec_iteration (st : Protein * R) (m : heap) :
  minimize_body TotalEnergy st m = spec_iteration TotalEnergy st m.
Proof.
  destruct st as [currentProtein h]. unfold minimize_body, spec_iteration.
  cbn [fst snd]. rewrite M_bind_unfold. unfold read at 1.
  rewrite M_bind_unfold.
  destruct (CopyProtein currentProtein m) as [[tempProtein m1]|]; [|reflexivity].
  rewrite M_bind_unfold.
  destruct (SteepestDescent tempProtein h m1) as [[p2 m2]|]; [|reflexivity].
  rewrite M_bind_unfold. unfold read.
  destruct (Rlt_dec (TotalEnergy tempProtein m2) (TotalEnergy currentProtein m)).
  - replace (1.2 * h) with (h * 1.2) by ring. reflexivity.
  - replace (0.2 * h ^ 2) with (h * (0.2 * h)) by ring. reflexivity.
Qed.

(** On a protein without nil atoms an iteration succeeds; the store only
    grows, and the structure it leaves as current has no nil atoms either. *)
Lemma minimize_body_total (currentProtein : Protein) (h : R) (m : heap) :
  allocated m currentProtein ->
  exists p' h' m',
    minimize_body TotalEnergy (currentProtein, h) m = Some ((p', h'), m')
    /\ m ⊆ m' /\ allocated m' p'.
Proof.
  intros Hp. rewrite minimize_body_spec_iteration. unfold spec_iteration.
  cbn [fst snd].
  destruct (CopyProtein_spec currentProtein m Hp)
    as (trial & m1 & -> & Hsub1 & _ & _ & Hnew).
  assert (Htrial : allocated m1 trial).
  { eapply Forall_impl; [exact Hnew|]. intros q [_ Hq]. exact Hq. }
  destruct (SteepestDescent_spec trial h m1 Htrial) as (m2 & -> & Hdom & Hframe).
  assert (Hsub : m ⊆ m2).
  { apply map_subseteq_spec. intros q a Hq.
    rewrite Hframe; [eapply lookup_weaken; eassumption|].
    intros Hin. apply (proj1 (Forall_forall _ _) Hnew) in Hin as [Hnone _].
    congruence. }
  destruct (Rlt_dec _ _).
  - exists trial, (1.2 * h), m2. split; [reflexivity|]. split; [exact Hsub|].
    eapply Forall_impl; [exact Htrial|]. intros q Hq.
    apply elem_of_dom. rewrite Hdom. apply elem_of_dom. exact Hq.
  - exists currentProtein, (0.2 * h ^ 2), m2. split; [reflexivity|].
    split; [exact Hsub|]. eapply allocated_weaken; eassumption.
Qed.

Lemma iterate_minimize_total (n : nat) :
  forall (currentProtein : Protein) (h : R) (m : heap),
    allocated m currentProtein ->
    exists p' h' m',
      iterate n (minimize_body TotalEnergy) (currentProtein, h) m
      = Some ((p', h'), m')
      /\ m ⊆ m'.
Proof.
  induction n as [|n IH]; intros currentProtein h m Hp.
  - exists currentProtein, h, m. split; reflexivity.
  - destruct (minimize_body_total currentProtein h m Hp)
      as (p1 & h1 & m1 & Hrun & Hsub1 & Hp1).
    destruct (IH p1 h1 m1 Hp1) as (p' & h' & m' & Hrun' & Hsub').
    exists p', h', m'. split; [|etransitivity; eassumption].
    cbn [iterate]. rewrite M_bind_unfold, Hrun. exact Hrun'.
Qed.

End MinimizerLoop.

Lemma iterate_ext {St : Type} (body body' : St -> M St) (n : nat) :
  (forall s m, body s m = body' s m) ->
  forall s m, iterate n body s m = iterate n body' s m.
Proof.
  intros Hext. induction n as [|n IH]; intros s m; [reflexivity|].
  cbn [iterate]. rewrite !M_bind_unfold, Hext.
  destruct (body' s m) as [[s' m']|]; [apply IH | reflexivity].
Qed.

Lemma PerformEnergyMinimization_with_iterate (TotalEnergy : Protein -> heap -> R)
    (currentProtein : Protein) (m : heap) :
  PerformEnergyMinimization_with TotalEnergy currentProtein m
  = match iterate 100 (minimize_body TotalEnergy) (currentProtein, 0.01) m with
    | Some ((p', _), m') => Some (p', m')
    | None => None
    end.
Proof.
  unfold PerformEnergyMinimization_with. cbv zeta. rewrite M_bind_unfold.
  rewrite (minimize_loop_iterate TotalEnergy 100 100) by reflexivity.
  destruct (iterate 100 (minimize_body TotalEnergy) (currentProtein, 0.01) m)
    as [[[p' h'] m']|]; reflexivity.
Qed.

Lemma SteepestDescent_returns (protein p2 : Protein) (h : R) (m m2 : heap) :
  SteepestDescent protein h m = Some (p2, m2) -> p2 = protein.
Proof.
  unfold SteepestDescent. rewrite M_bind_unfold.
  destruct (range_loop _ _ _ m) as [[[] m']|]; [|discriminate].
  intros H. injection H as <- _. reflexivity.
Qed.

(** A copy that succeeds only adds atoms to the store, whatever the
    structure copied: the copied atoms are at locations that were free. *)
Lemma mapM_CopyAtom_fresh (l : list loc) :
  forall (m : heap) (l' : list loc) (m' : heap),
    mapM CopyAtom l m = Some (l', m') ->
    m ⊆ m' /\ Forall (fun q' => m !! q' = None /\ is_Some (m' !! q')) l'.
Proof.
  induction l as [|p l IH]; intros m l' m' Hrun.
  - injection Hrun as <- <-. split; [reflexivity | constructor].
  - cbn [mapM] in Hrun. rewrite M_bind_unfold in Hrun.
    destruct (m !! p) as [c|] eqn:Hc.
    + destruct (CopyAtom_spec p c m Hc) as (p' & c' & Hp' & Hfresh & _).
      rewrite Hp', M_bind_unfold in Hrun.
      destruct (mapM CopyAtom l (<[p' := c']> m)) as [[l1 m1]|] eqn:Hl; [|discriminate].
      injection Hrun as <- <-.
      destruct (IH _ _ _ Hl) as [Hsub2 Hnew].
      assert (Hsub1 : m ⊆ <[p' := c']> m) by (apply insert_subseteq; exact Hfresh).
      split; [etransitivity; eassumption|]. constructor.
      * split; [exact Hfresh|]. exists c'.
        eapply lookup_weaken; [apply lookup_insert_eq | exact Hsub2].
      * eapply Forall_impl; [exact Hnew|]. intros q [Hq1 Hq2]. split; [|exact Hq2].
        eapply lookup_None_weaken; eassumption.
    + unfold CopyAtom in Hrun. rewrite M_bind_unfold in Hrun. unfold load in Hrun.
      rewrite Hc in Hrun. discriminate.
Qed.

Lemma CopyResidue_fresh (currRes r' : Residue) (m m' : heap) :
  CopyResidue currRes m = Some (r', m') ->
  m ⊆ m' /\ Forall (fun q' => m !! q' = None /\ is_Some (m' !! q')) (Atoms r').
Proof.
  unfold CopyResidue. rewrite M_bind_unfold.
  destruct (mapM CopyAtom (Atoms currRes) m) as [[l1 m1]|] eqn:Hl; [|discriminate].
  intros Hrun. injection Hrun as <- <-. cbn [Atoms].
  exact (mapM_CopyAtom_fresh _ _ _ _ Hl).
Qed.

Lemma mapM_CopyResidue_fresh (rs : list Residue) :
  forall (m : heap) (rs' : list Residue) (m' : heap),
    mapM CopyResidue rs m = Some (rs', m') ->
    m ⊆ m'
    /\ Forall (fun q' => m !! q' = None /\ is_Some (m' !! q')) (concat (Atoms <$> rs')).
Proof.
  induction rs as [|r rs IH]; intros m rs' m' Hrun.
  - injection Hrun as <- <-. split; [reflexivity | constructor].
  - cbn [mapM] in Hrun. rewrite M_bind_unfold in Hrun.
    destruct (CopyResidue r m) as [[r1 m1]|] eqn:Hr; [|discriminate].
    rewrite M_bind_unfold in Hrun.
    destruct (mapM CopyResidue rs m1) as [[rs1 m2]|] eqn:Hrs; [|discriminate].
    injection Hrun as <- <-.
    destruct (CopyResidue_fresh _ _ _ _ Hr) as [Hsub1 Hnew1].
    destruct (IH _ _ _ Hrs) as [Hsub2 Hnew2].
    split; [etransitivity; eassumption|].
    cbn [fmap list_fmap concat]. apply Forall_app. split.
    + eapply Forall_impl; [exact Hnew1|]. intros q [Hq1 Hq2].
      split; [exact Hq1|]. eapply is_Some_weaken; eassumption.
    + eapply Forall_impl; [exact Hnew2|]. intros q [Hq1 Hq2].
      split; [|exact Hq2]. eapply lookup_None_weaken; eassumption.
Qed.

Lemma CopyProtein_fresh (currentProtein p' : Protein) (m m' : heap) :
  CopyProtein currentProtein m = Some (p', m') ->
  m ⊆ m'
  /\ Forall (fun q' => m !! q' = None /\ is_Some (m' !! q')) (protein_atoms p').
Proof.
  unfold CopyProtein. rewrite M_bind_unfold.
  destruct (mapM CopyResidue (Protein_Residue currentProtein) m)
    as [[rs' m1]|] eqn:Hrs; [|discriminate].
  intros Hrun. injection Hrun as <- <-.
  exact (mapM_CopyResidue_fresh _ _ _ _ Hrs).
Qed.

(** A pass of the loop body that succeeds leaves every atom of the store as
    it was: the trial is made of atoms that did not exist before, and the
    descent step touches only those. *)
Lemma minimize_pass_frame (currentProtein tempProtein p2 : Protein) (h : R)
    (m m1 m' : heap) :
  CopyProtein currentProtein m = Some (tempProtein, m1) ->
  SteepestDescent tempProtein h m1 = Some (p2, m') ->
  m ⊆ m' /\ Forall (fun q' => m !! q' = None) (protein_atoms tempProtein).
Proof.
  intros Hcopy Hsd. destruct (CopyProtein_fresh _ _ _ _ Hcopy) as [Hsub1 Hnew].
  assert (Htrial : allocated m1 tempProtein).
  { eapply Forall_impl; [exact Hnew|]. intros q [_ Hq]. exact Hq. }
  destruct (SteepestDescent_spec tempProtein h m1 Htrial) as (m2 & Hrun & _ & Hframe).
  rewrite Hrun in Hsd. injection Hsd as _ <-.
  split.
  - apply map_subseteq_spec. intros q a Hq.
    rewrite Hframe; [eapply lookup_weaken; eassumption|].
    intros Hin. apply (proj1 (Forall_forall _ _) Hnew) in Hin as [Hnone _].
    congruence.
  - eapply Forall_impl; [exact Hnew|]. intros q [Hq _]. exact Hq.
Qed.

(** C6: the minimizer starts from [h = 0.01] and runs its loop body exactly
    100 times; one pass of the body takes a moved copy of the current
    structure as trial, and accepts it exactly when its total energy is
    strictly lower than the current one, replacing [h] by [1.2 h]; otherwise
    it keeps the current structure and replaces [h] by [0.2 h^2].  The trial
    is made of atoms that did not exist before the pass, and the pass leaves
    every atom that did exist as it was: a rejected trial leaves the current
    structure, which is then kept, unchanged.  On a protein without nil
    atoms all 100 passes succeed. *)
Theorem PerformEnergyMinimization_with_spec (TotalEnergy : Protein -> heap -> R) :
  (forall currentProtein m,
      PerformEnergyMinimization_with TotalEnergy currentProtein m
      = match iterate 100 (spec_iteration TotalEnergy) (currentProtein, 0.01) m with
        | Some ((p', _), m') => Some (p', m')
        | None => None
        end)
  /\ (forall currentProtein h m st' m',
        minimize_body TotalEnergy (currentProtein, h) m = Some (st', m') ->
        exists tempProtein m1,
          CopyProtein currentProtein m = Some (tempProtein, m1)
          /\ SteepestDescent tempProtein h m1 = Some (tempProtein, m')
          /\ (TotalEnergy tempProtein m' < TotalEnergy currentProtein m ->
              st' = (tempProtein, 1.2 * h))
          /\ (~ TotalEnergy tempProtein m' < TotalEnergy currentProtein m ->
              st' = (currentProtein, 0.2 * h ^ 2))
          /\ m ⊆ m'
          /\ Forall (fun q' => m !! q' = None) (protein_atoms tempProtein))
  /\ (forall currentProtein m,
        allocated m currentProtein ->
        is_Some (PerformEnergyMinimization_with TotalEnergy currentProtein m)).
Proof.
  split; [|split].
  - intros currentProtein m. rewrite PerformEnergyMinimization_with_iterate.
    rewrite (iterate_ext _ (spec_iteration TotalEnergy) 100
               (minimize_body_spec_iteration TotalEnergy)).
    reflexivity.
  - intros currentProtein h m st' m'.
    rewrite minimize_body_spec_iteration. unfold spec_iteration. cbn [fst snd].
    destruct (CopyProtein currentProtein m) as [[tempProtein m1]|] eqn:Hcopy;
      [|discriminate].
    destruct (SteepestDescent tempProtein h m1) as [[p2 m2]|] eqn:Hsd; [|discriminate].
    pose proof (SteepestDescent_returns _ _ _ _ _ Hsd) as ->.
    destruct (minimize_pass_frame _ _ _ _ _ _ _ Hcopy Hsd) as [Hsub Hnew].
    intros Hrun. exists tempProtein, m1. split; [reflexivity|].
    destruct (Rlt_dec _ _) as [Hlt|Hge]; injection Hrun as <- <-;
      (split; [exact Hsd|]);
      (split; [intros H; try reflexivity; contradiction|]);
      (split; [intros H; try reflexivity; contradiction|]);
      (split; [exact Hsub | exact Hnew]).
  - intros currentProtein m Hp. rewrite PerformEnergyMinimization_with_iterate.
    destruct (iterate_minimize_total TotalEnergy 100 currentProtein 0.01 m Hp)
      as (p' & h' & m' & -> & _).
    eexists. reflexivity.
Qed.

Lemma PerformEnergyMinimization_with_spec_witness :
  is_Some (PerformEnergyMinimization_with CalculateTotalEnergy single_protein single_heap).
Proof.
  apply (PerformEnergyMinimization_with_spec CalculateTotalEnergy).
  repeat constructor; eexists; reflexivity.
Defined.

(** With the stub evaluator no trial is ever accepted. *)
Lemma minimize_body_stub (currentProtein : Protein) (h : R) (m : heap) :
  allocated m currentProtein ->
  exists m',
    minimize_body CalculateTotalEnergy (currentProtein, h) m
    = Some ((currentProtein, 0.2 * h ^ 2), m')
    /\ m ⊆ m'.
Proof.
  intros Hp.
  destruct (minimize_body_total CalculateTotalEnergy currentProtein h m Hp)
    as (p' & h' & m' & Hrun & Hsub & _).
  exists m'. split; [|exact Hsub]. rewrite Hrun.
  rewrite minimize_body_spec_iteration in Hrun. unfold spec_iteration in Hrun.
  cbn [fst snd] in Hrun.
  destruct (CopyProtein currentProtein m) as [[trial m1]|]; [|discriminate].
  destruct (SteepestDescent trial h m1) as [[p2 m2]|]; [|discriminate].
  destruct (Rlt_dec _ _) as [Hlt|_].
  - unfold CalculateTotalEnergy in Hlt. lra.
  - injection Hrun as <- <- <-. reflexivity.
Qed.

Lemma iterate_minimize_stub (n : nat) :
  forall (currentProtein : Protein) (h : R) (m : heap),
    allocated m currentProtein ->
    exists h' m',
      iterate n (minimize_body CalculateTotalEnergy) (currentProtein, h) m
      = Some ((currentProtein, h'), m')
      /\ m ⊆ m'.
Proof.
  induction n as [|n IH]; intros currentProtein h m Hp.
  - exists h, m. split; reflexivity.
  - destruct (minimize_body_stub currentProtein h m Hp) as (m1 & Hrun & Hsub1).
    destruct (IH currentProtein (0.2 * h ^ 2) m1) as (h' & m' & Hrun' & Hsub').
    { eapply allocated_weaken; eassumption. }
    exists h', m'. split; [|etransitivity; eassumption].
    cbn [iterate]. rewrite M_bind_unfold, Hrun. exact Hrun'.
Qed.

(** C5: [CalculateTotalEnergy] is constantly 1, so the test
    [updatedEnergy < initialEnergy] never holds: on a protein without nil
    atoms [PerformEnergyMinimization] returns the protein it was given, and
    every atom that existed before the call, in particular every atom of
    that protein with its position, is as it was. *)
Theorem PerformEnergyMinimization_returns_input (currentProtein : Protein) (m : heap) :
  allocated m currentProtein ->
  (forall p m0, CalculateTotalEnergy p m0 = 1)
  /\ exists m',
      PerformEnergyMinimization currentProtein m = Some (currentProtein, m')
      /\ m ⊆ m'
      /\ forall q a,
          q ∈ protein_atoms currentProtein -> m !! q = Some a ->
          m' !! q = Some a.
Proof.
  intros Hp. split; [intros p m0; unfold CalculateTotalEnergy; lra|].
  unfold PerformEnergyMinimization. rewrite PerformEnergyMinimization_with_iterate.
  destruct (iterate_minimize_stub 100 currentProtein 0.01 m Hp)
    as (h' & m' & -> & Hsub).
  exists m'. split; [reflexivity|]. split; [exact Hsub|].
  intros q a _ Hq. eapply lookup_weaken; eassumption.
Qed.

Lemma PerformEnergyMinimization_returns_input_witness :
  exists m',
    PerformEnergyMinimization single_protein single_heap = Some (single_protein, m')
    /\ single_heap ⊆ m'.
Proof.
  destruct (PerformEnergyMinimization_returns_input single_protein single_heap)
    as (_ & m' & Hrun & Hsub & _).
  - repeat constructor; eexists; reflexivity.
  - exists m'. split; assumption.
Defined.

Lemma CopyProtein_drops_index_and_charge_witness :
  (exists c, single_heap !! 1%positive = Some c /\ index c = 10%Z /\ charge c = 1)
  /\ exists p' m',
      CopyProtein single_protein single_heap = Some (p', m')
      /\ forall q', q' ∈ protein_atoms p' ->
           exists c', m' !! q' = Some c' /\ index c' = 0%Z /\ charge c' = 0.
Proof.
  split; [eexists; split; [reflexivity|]; split; reflexivity|].
  destruct (CopyProtein_drops_index_and_charge single_protein single_heap)
    as (p' & m' & Hrun & _ & _ & _ & Hzero).
  - repeat constructor; eexists; reflexivity.
  - exists p', m'. split; assumption.
Defined.

(** * Further properties of the force field *)

(** ** Harmonic and torsion energies *)

(** X1: the three harmonic energies ([CalculateBondStretchEnergy], its twin
    [CalculateTotoalBondStretchEnergy] and [CalculateAnglePotentialEnergy])
    are the same function; for a positive force constant the energy is
    non-negative, symmetric about the equilibrium value, and zero exactly at
    the equilibrium value. *)
Theorem harmonic_energy_minimum (k r r_0 : R) :
  0 < k ->
  CalculateTotoalBondStretchEnergy k r r_0 = CalculateBondStretchEnergy k r r_0
  /\ CalculateAnglePotentialEnergy k r r_0 = CalculateBondStretchEnergy k r r_0
  /\ 0 <= CalculateBondStretchEnergy k r r_0
  /\ (CalculateBondStretchEnergy k r r_0 = 0 <-> r = r_0)
  /\ CalculateBondStretchEnergy k (r_0 - (r - r_0)) r_0
     = CalculateBondStretchEnergy k r r_0.
Proof.
  intros Hk.
  unfold CalculateTotoalBondStretchEnergy, CalculateAnglePotentialEnergy,
    CalculateBondStretchEnergy.
  split; [reflexivity|]. split; [reflexivity|].
  pose proof (Rle_0_sqr (r - r_0)) as Hsq. unfold Rsqr in Hsq.
  split.
  { replace (0.5 * k * (r - r_0) * (r - r_0))
      with ((0.5 * k) * ((r - r_0) * (r - r_0))) by ring.
    apply Rmult_le_pos; lra. }
  split; [|ring].
  split.
  - intros H.
    replace (0.5 * k * (r - r_0) * (r - r_0))
      with ((0.5 * k) * ((r - r_0) * (r - r_0))) in H by ring.
    apply Rmult_integral in H as [H|H]; [lra|].
    apply Rmult_integral in H. lra.
  - intros ->. ring.
Qed.

Lemma harmonic_energy_minimum_witness :
  CalculateBondStretchEnergy 100 1.5 1 = 12.5
  /\ 0 <= CalculateBondStretchEnergy 100 1.5 1.
Proof.
  split.
  - unfold CalculateBondStretchEnergy. lra.
  - apply (harmonic_energy_minimum 100 1.5 1). lra.
Defined.

(** X2: for [kd >= 0] the torsion energy lies between 0 and [2 kd], and it
    is periodic in the angle with period [2 PI / pn]. *)
Theorem CalculateProperDihedralAngleEnergy_bounds (kd phi pn phase : R) :
  0 <= kd -> pn <> 0 ->
  0 <= CalculateProperDihedralAngleEnergy kd phi pn phase <= 2 * kd
  /\ CalculateProperDihedralAngleEnergy kd (phi + 2 * PI / pn) pn phase
     = CalculateProperDihedralAngleEnergy kd phi pn phase.
Proof.
  intros Hkd Hpn. unfold CalculateProperDihedralAngleEnergy. split.
  - pose proof (COS_bound (pn * phi - phase)) as [Hlo Hhi]. split.
    + apply Rmult_le_pos; lra.
    + replace (2 * kd) with (kd * 2) by ring.
      apply Rmult_le_compat_l; lra.
  - replace (pn * (phi + 2 * PI / pn) - phase) with (pn * phi - phase + 2 * PI)
      by (field; exact Hpn).
    rewrite cos_plus, cos_2PI, sin_2PI. ring.
Qed.

Lemma CalculateProperDihedralAngleEnergy_bounds_witness :
  0 <= CalculateProperDihedralAngleEnergy 3 1 2 0 <= 2 * 3.
Proof.
  apply (CalculateProperDihedralAngleEnergy_bounds 3 1 2 0); lra.
Defined.

(** ** Vector geometry *)

Lemma sum_sqr_nonneg (a b c : R) : 0 <= a * a + b * b + c * c.
Proof.
  pose proof (Rle_0_sqr a). pose proof (Rle_0_sqr b). pose proof (Rle_0_sqr c).
  unfold Rsqr in *. lra.
Qed.

Lemma sum_sqr_zero (a b c : R) :
  a * a + b * b + c * c = 0 -> a = 0 /\ b = 0 /\ c = 0.
Proof.
  intros H.
  pose proof (Rle_0_sqr a) as Ha. pose proof (Rle_0_sqr b) as Hb.
  pose proof (Rle_0_sqr c) as Hc. unfold Rsqr in *.
  assert (Ha0 : a * a = 0) by lra. assert (Hb0 : b * b = 0) by lra.
  assert (Hc0 : c * c = 0) by lra.
  apply Rmult_integral in Ha0, Hb0, Hc0. lra.
Qed.

(** The Lagrange identity in three dimensions. *)
Lemma lagrange_identity (a1 a2 a3 b1 b2 b3 : R) :
  (a1 * a1 + a2 * a2 + a3 * a3) * (b1 * b1 + b2 * b2 + b3 * b3)
  - (a1 * b1 + a2 * b2 + a3 * b3) * (a1 * b1 + a2 * b2 + a3 * b3)
  = (a2 * b3 - a3 * b2) * (a2 * b3 - a3 * b2)
    + (a3 * b1 - a1 * b3) * (a3 * b1 - a1 * b3)
    + (a1 * b2 - a2 * b1) * (a1 * b2 - a2 * b1).
Proof. ring. Qed.

Lemma dot_le_magnitudes (u v : TriTuple) : dot u v <= magnitude u * magnitude v.
Proof.
  unfold magnitude. rewrite <- sqrt_mult by apply sum_sqr_nonneg.
  destruct (Rle_lt_dec (dot u v) 0) as [Hneg|Hpos].
  - pose proof (sqrt_pos ((x u * x u + y u * y u + z u * z u)
                          * (x v * x v + y v * y v + z v * z v))). lra.
  - rewrite <- (sqrt_square (dot u v)) by lra.
    apply sqrt_le_1_alt. unfold dot.
    pose proof (lagrange_identity (x u) (y u) (z u) (x v) (y v) (z v)) as HL.
    pose proof (sum_sqr_nonneg (y u * z v - z u * y v) (z u * x v - x u * z v)
                  (x u * y v - y u * x v)).
    lra.
Qed.

(** X3: the dot product is bounded by the product of the magnitudes
    (Cauchy-Schwarz, both signs), and [dot v v] is the squared magnitude. *)
Theorem dot_magnitude_bound (u v : TriTuple) :
  Rabs (dot u v) <= magnitude u * magnitude v
  /\ dot v v = magnitude v * magnitude v.
Proof.
  split.
  - apply Rabs_le. split.
    + pose proof (dot_le_magnitudes (Tri_opp u) v) as H.
      replace (dot (Tri_opp u) v) with (- dot u v) in H
        by (unfold dot, Tri_opp; cbn [x y z]; ring).
      replace (magnitude (Tri_opp u)) with (magnitude u) in H.
      * lra.
      * unfold magnitude, Tri_opp; cbn [x y z]. f_equal. ring.
    + apply dot_le_magnitudes.
  - rewrite magnitude_sqr. reflexivity.
Qed.

Lemma Distance_sym (p q : TriTuple) : Distance p q = Distance q p.
Proof. unfold Distance. cbv zeta. f_equal. ring. Qed.

Lemma Distance_zero_iff (p q : TriTuple) : Distance p q = 0 <-> p = q.
Proof.
  unfold Distance. cbv zeta. split.
  - intros H. apply sqrt_eq_0 in H; [|apply sum_sqr_nonneg].
    apply sum_sqr_zero in H as (Hx & Hy & Hz).
    apply TriTuple_eq; lra.
  - intros ->. replace ((x q - x q) * (x q - x q) + (y q - y q) * (y q - y q)
                        + (z q - z q) * (z q - z q)) with 0 by ring.
    apply sqrt_0.
Qed.

(** X4: [Distance] is a metric on points: non-negative, symmetric, zero
    exactly between equal points, and it obeys the triangle inequality. *)
Theorem Distance_metric (p q r : TriTuple) :
  0 <= Distance p q
  /\ Distance p q = Distance q p
  /\ (Distance p q = 0 <-> p = q)
  /\ Distance p r <= Distance p q + Distance q r.
Proof.
  split; [apply Distance_nonneg|]. split; [apply Distance_sym|].
  split; [apply Distance_zero_iff|].
  set (a := Tri_sub p q). set (b := Tri_sub q r).
  assert (Hpq : Distance p q = magnitude a)
    by (unfold Distance, magnitude, a, Tri_sub; cbn [x y z]; reflexivity).
  assert (Hqr : Distance q r = magnitude b)
    by (unfold Distance, magnitude, b, Tri_sub; cbn [x y z]; reflexivity).
  assert (Hpr : Distance p r = magnitude (Tri_add a b)).
  { unfold Distance, magnitude, a, b, Tri_add, Tri_sub; cbn [x y z].
    f_equal. ring. }
  rewrite Hpq, Hqr, Hpr.
  apply Rsqr_incr_0_var.
  - unfold Rsqr.
    replace ((magnitude a + magnitude b) * (magnitude a + magnitude b))
      with (magnitude a * magnitude a + magnitude b * magnitude b
            + 2 * (magnitude a * magnitude b)) by ring.
    rewrite !magnitude_sqr. pose proof (dot_le_magnitudes a b) as Hcs.
    unfold dot in Hcs. unfold Tri_add; cbn [x y z]. lra.
  - pose proof (sqrt_pos (x a * x a + y a * y a + z a * z a)).
    pose proof (sqrt_pos (x b * x b + y b * y b + z b * z b)).
    unfold magnitude. lra.
Qed.

(** X5: [BuildNormalVector] is a cross product: it vanishes on a vector with
    itself, changes sign when its arguments are swapped, and its squared
    magnitude is [|u|^2 |v|^2 - (u.v)^2], so it vanishes exactly on pairs
    that meet the Cauchy-Schwarz bound (parallel vectors). *)
Theorem BuildNormalVector_cross_product (u v : TriTuple) :
  BuildNormalVector v v = TriTuple_zero
  /\ BuildNormalVector v u = Tri_opp (BuildNormalVector u v)
  /\ magnitude (BuildNormalVector u v) * magnitude (BuildNormalVector u v)
     = magnitude u * magnitude u * (magnitude v * magnitude v) - dot u v * dot u v
  /\ (BuildNormalVector u v = TriTuple_zero
      <-> dot u v * dot u v = magnitude u * magnitude u * (magnitude v * magnitude v)).
Proof.
  assert (HL : magnitude (BuildNormalVector u v) * magnitude (BuildNormalVector u v)
               = magnitude u * magnitude u * (magnitude v * magnitude v)
                 - dot u v * dot u v).
  { rewrite !magnitude_sqr. unfold BuildNormalVector, dot; cbn [x y z]. ring. }
  split; [|split; [apply BuildNormalVector_antisym|split; [exact HL|]]].
  - unfold BuildNormalVector, TriTuple_zero. apply TriTuple_eq; cbn [x y z]; ring.
  - split.
    + intros H. rewrite H in HL.
      replace (magnitude TriTuple_zero) with 0 in HL; [lra|].
      unfold magnitude, TriTuple_zero; cbn [x y z].
      replace (0 * 0 + 0 * 0 + 0 * 0) with 0 by ring. symmetry. apply sqrt_0.
    + intros H. rewrite magnitude_sqr in HL.
      assert (Hz : x (BuildNormalVector u v) * x (BuildNormalVector u v)
                   + y (BuildNormalVector u v) * y (BuildNormalVector u v)
                   + z (BuildNormalVector u v) * z (BuildNormalVector u v) = 0)
        by lra.
      apply sum_sqr_zero in Hz as (Hx & Hy & Hz).
      apply TriTuple_eq; assumption.
Qed.

(** ** Bond force and bond angle *)

Lemma magnitude_Tri_scale (c : R) (u : TriTuple) :
  magnitude (Tri_scale c u) = Rabs c * magnitude u.
Proof.
  unfold magnitude, Tri_scale; cbn [x y z].
  replace (c * x u * (c * x u) + c * y u * (c * y u) + c * z u * (c * z u))
    with (Rsqr c * (x u * x u + y u * y u + z u * z u)) by (unfold Rsqr; ring).
  rewrite sqrt_mult; [|apply Rle_0_sqr | apply sum_sqr_nonneg].
  rewrite sqrt_Rsqr_abs. reflexivity.
Qed.

Lemma Distance_pos_neq (p q : TriTuple) : p <> q -> 0 < Distance p q.
Proof.
  intros Hne. destruct (Distance_nonneg p q) as [Hlt|Heq]; [exact Hlt|].
  exfalso. apply Hne, Distance_zero_iff. symmetry. exact Heq.
Qed.

(** X6: between atoms at different places [CalculateBondForce] is
    [-k (r - r_0)] times the unit vector from the first atom to the second;
    its magnitude is [|k (r - r_0)|], it vanishes at [r = r_0], and
    exchanging the two atoms negates it. *)
Theorem CalculateBondForce_spec (k r r_0 : R) (atom1 atom2 : Atom) :
  position atom1 <> position atom2 ->
  CalculateBondForce k r r_0 atom1 atom2
    = Tri_scale (- k * (r - r_0)) (Tri_unit (displacement atom1 atom2))
  /\ magnitude (CalculateBondForce k r r_0 atom1 atom2) = Rabs (k * (r - r_0))
  /\ CalculateBondForce k r_0 r_0 atom1 atom2 = TriTuple_zero
  /\ CalculateBondForce k r r_0 atom2 atom1
     = Tri_opp (CalculateBondForce k r r_0 atom1 atom2).
Proof.
  intros Hne. pose proof (Distance_pos_neq _ _ Hne) as Hd.
  assert (Hm : magnitude (displacement atom1 atom2) <> 0)
    by (rewrite <- Distance_magnitude; lra).
  assert (E : CalculateBondForce k r r_0 atom1 atom2
              = Tri_scale (- k * (r - r_0)) (Tri_unit (displacement atom1 atom2))).
  { unfold CalculateBondForce. cbv zeta. rewrite Distance_magnitude.
    unfold Tri_unit, Tri_scale, displacement, Tri_sub. cbn [x y z].
    apply TriTuple_eq; cbn [x y z]; unfold Rdiv; ring. }
  split; [exact E|]. split; [|split].
  - rewrite E, magnitude_Tri_scale, magnitude_Tri_unit by exact Hm.
    replace (- k * (r - r_0)) with (- (k * (r - r_0))) by ring.
    rewrite Rabs_Ropp. ring.
  - unfold CalculateBondForce, TriTuple_zero. cbv zeta.
    apply TriTuple_eq; cbn [x y z]; ring.
  - unfold CalculateBondForce. cbv zeta.
    rewrite (Distance_sym (position atom1) (position atom2)).
    unfold Tri_opp. apply TriTuple_eq; cbn [x y z]; unfold Rdiv; ring.
Qed.

Lemma CalculateBondForce_spec_witness :
  magnitude (CalculateBondForce 100 1.5 1 (atom_at 0 0 0) (atom_at 1 0 0))
  = Rabs (100 * (1.5 - 1)).
Proof.
  apply (CalculateBondForce_spec 100 1.5 1 (atom_at 0 0 0) (atom_at 1 0 0)).
  unfold atom_at; cbn [position set_position]. intros H.
  apply (f_equal x) in H. cbn [x] in H. lra.
Defined.



(** ** Pair interactions *)

(** X8: for a positive permittivity and a positive distance the Coulomb
    energy is [|q1 q2| / (4 PI epsilon r)]: it is non-negative whatever the
    signs of the charges, and it does not depend on the order of the two
    atoms. *)
Theorem CalculateElectricPotentialEnergy_abs (epsilon : R) (a1 a2 : Atom) (r : R) :
  0 < epsilon -> 0 < r ->
  CalculateElectricPotentialEnergy epsilon a1 a2 r
    = Rabs (charge a1 * charge a2) / (4 * PI * epsilon * r)
  /\ 0 <= CalculateElectricPotentialEnergy epsilon a1 a2 r
  /\ CalculateElectricPotentialEnergy epsilon a2 a1 r
     = CalculateElectricPotentialEnergy epsilon a1 a2 r.
Proof.
  intros He Hr.
  assert (Hden : 0 < 4 * PI * epsilon * r).
  { assert (HPI : 0 < PI) by apply PI_RGT_0.
    apply Rmult_lt_0_compat; [|exact Hr].
    apply Rmult_lt_0_compat; [|exact He].
    apply Rmult_lt_0_compat; [lra | exact HPI]. }
  assert (E : forall b1 b2,
             CalculateElectricPotentialEnergy epsilon b1 b2 r
             = Rabs (charge b1 * charge b2) / (4 * PI * epsilon * r)).
  { intros b1 b2. unfold CalculateElectricPotentialEnergy. cbv zeta.
    destruct (Rlt_dec (charge b1 * charge b2) 0) as [Hneg|Hpos].
    - rewrite Rabs_left by exact Hneg. reflexivity.
    - rewrite Rabs_right by lra. reflexivity. }
  split; [apply E|]. split.
  - rewrite E. apply Rmult_le_pos; [apply Rabs_pos|].
    apply Rlt_le, Rinv_0_lt_compat. exact Hden.
  - rewrite !E. rewrite (Rmult_comm (charge a2)). reflexivity.
Qed.

Lemma CalculateElectricPotentialEnergy_abs_witness :
  0 <= CalculateElectricPotentialEnergy 1 charged_atom1 charged_atom2 1.
Proof.
  apply (CalculateElectricPotentialEnergy_abs 1 charged_atom1 charged_atom2 1); lra.
Defined.

(** X9: the two pair forces obey Newton's third law: computed for the pair
    in the other order, [CalculateElectricForce] and [CalculateLJForce]
    return the opposite vector. *)
Theorem pair_forces_antisymmetric (epsilon : R) (a1 a2 : Atom) (B A r : R) :
  CalculateElectricForce epsilon a2 a1 r
    = Tri_opp (CalculateElectricForce epsilon a1 a2 r)
  /\ CalculateLJForce a2 a1 B A r = Tri_opp (CalculateLJForce a1 a2 B A r).
Proof.
  split.
  - unfold CalculateElectricForce. cbv zeta.
    rewrite (Rmult_comm (charge a2) (charge a1)).
    destruct (Rgt_dec (charge a1 * charge a2) 0);
      unfold Tri_opp; apply TriTuple_eq; cbn [x y z]; unfold Rdiv; ring.
  - unfold CalculateLJForce. cbv zeta.
    unfold Tri_opp; apply TriTuple_eq; cbn [x y z]; unfold Rdiv; ring.
Qed.

Lemma derivable_pt_lim_inv_pow (c r : R) (n : nat) :
  r <> 0 ->
  derivable_pt_lim (fun s => c / s ^ S n) r (- (INR (S n) * c) / (r ^ S n * r)).
Proof.
  intros Hr.
  assert (Hp : r ^ S n <> 0) by (apply pow_nonzero; exact Hr).
  pose proof (derivable_pt_lim_div (fct_cte c) (fun s => s ^ S n) r 0
                (INR (S n) * r ^ pred (S n))
                (derivable_pt_lim_const c r) (derivable_pt_lim_pow r (S n)) Hp) as H.
  unfold div_fct, fct_cte in H.
  replace (- (INR (S n) * c) / (r ^ S n * r))
    with ((0 * r ^ S n - INR (S n) * r ^ pred (S n) * c) / (r ^ S n)²).
  - exact H.
  - cbn [pred]. unfold Rsqr. rewrite <- !tech_pow_Rmult. field.
    split; [exact Hr|]. apply pow_nonzero. exact Hr.
Qed.

(** X10: the scalar that [CalculateLJForce] puts on the unit displacement
    is the derivative of the signed Lennard-Jones potential
    [A / r^12 - B / r^6] with respect to the distance, so the returned
    vector is minus the gradient of that potential in the position of the
    first atom; it vanishes exactly where [B r^6 = 2 A]. *)
Theorem CalculateLJForce_gradient (a1 a2 : Atom) (B A r : R) :
  r <> 0 ->
  exists l,
    derivable_pt_lim (fun s => A / s ^ 12 - B / s ^ 6) r l
    /\ CalculateLJForce a1 a2 B A r = Tri_scale (l / r) (displacement a1 a2)
    /\ (l = 0 <-> B * r ^ 6 = 2 * A).
Proof.
  intros Hr.
  assert (H6 : r ^ 6 <> 0) by (apply pow_nonzero; exact Hr).
  exists ((-12 * A / (r ^ 6 * r ^ 6) + 6 * B / r ^ 6) / r). split; [|split].
  - pose proof (derivable_pt_lim_minus _ _ r _ _
                  (derivable_pt_lim_inv_pow A r 11 Hr)
                  (derivable_pt_lim_inv_pow B r 5 Hr)) as H.
    unfold minus_fct in H.
    replace ((-12 * A / (r ^ 6 * r ^ 6) + 6 * B / r ^ 6) / r)
      with (- (INR 12 * A) / (r ^ 12 * r) - - (INR 6 * B) / (r ^ 6 * r)).
    + exact H.
    + replace (INR 12) with 12 by (simpl; lra).
      replace (INR 6) with 6 by (simpl; lra).
      field. exact Hr.
  - unfold CalculateLJForce, Tri_scale, displacement, Tri_sub. cbv zeta.
    apply TriTuple_eq; cbn [x y z]; unfold Rdiv; ring.
  - split.
    + intros Hl.
      assert (Hn : -12 * A / (r ^ 6 * r ^ 6) + 6 * B / r ^ 6 = 0).
      { apply (Rmult_eq_reg_r (/ r)); [|apply Rinv_neq_0_compat; exact Hr].
        rewrite Rmult_0_l. exact Hl. }
      assert (Hm : (-12 * A / (r ^ 6 * r ^ 6) + 6 * B / r ^ 6) * (r ^ 6 * r ^ 6)
                   = 6 * (B * r ^ 6 - 2 * A)) by (field; exact Hr).
      rewrite Hn, Rmult_0_l in Hm. lra.
    + intros HB.
      replace ((-12 * A / (r ^ 6 * r ^ 6) + 6 * B / r ^ 6) / r)
        with (6 * (B * r ^ 6 - 2 * A) / (r ^ 6 * r ^ 6 * r)) by (field; exact Hr).
      rewrite HB. unfold Rdiv. ring.
Qed.

Lemma CalculateLJForce_gradient_witness :
  exists l,
    derivable_pt_lim (fun s => 4 / s ^ 12 - 8 / s ^ 6) 1 l
    /\ CalculateLJForce charged_atom1 charged_atom2 8 4 1
       = Tri_scale (l / 1) (displacement charged_atom1 charged_atom2)
    /\ (l = 0 <-> 8 * 1 ^ 6 = 2 * 4).
Proof.
  apply (CalculateLJForce_gradient charged_atom1 charged_atom2 8 4 1). lra.
Defined.

(** X11: where the torsion formula divides by no zero (the two auxiliary
    vectors [v_t] and [v_u] have non-zero length and [sin phi] is not zero),
    the torsion forces on the two end atoms are perpendicular to the central
    bond [vector32]. *)
Theorem CalculateProperDihedralsForce_end_forces_perpendicular
    (kd phi pn phase : R) (atom1 atom2 atom3 atom4 : Atom) :
  magnitude (Cross (CalculateVector atom1 atom2) (CalculateVector atom3 atom2)) <> 0 ->
  magnitude (Cross (CalculateVector atom4 atom3) (CalculateVector atom3 atom2)) <> 0 ->
  sin phi <> 0 ->
  let '(force_i, _, _, force_l) :=
    CalculateProperDihedralsForce kd phi pn phase atom1 atom2 atom3 atom4 in
  dot force_i (CalculateVector atom3 atom2) = 0
  /\ dot force_l (CalculateVector atom3 atom2) = 0.
Proof.
  intros Ht Hu Hphi.
  unfold CalculateProperDihedralsForce, CalculateDerivate. cbv zeta.
  unfold dot. cbn [x y z]. split; field; auto.
Qed.

Lemma CalculateProperDihedralsForce_end_forces_perpendicular_witness :
  let '(force_i, _, _, force_l) :=
    CalculateProperDihedralsForce (-2) (PI / 2) 1 0
      torsion_atom1 torsion_atom2 torsion_atom3 torsion_atom4 in
  dot force_i (CalculateVector torsion_atom3 torsion_atom2) = 0
  /\ dot force_l (CalculateVector torsion_atom3 torsion_atom2) = 0.
Proof.
  apply (CalculateProperDihedralsForce_end_forces_perpendicular (-2) (PI / 2) 1 0
           torsion_atom1 torsion_atom2 torsion_atom3 torsion_atom4).
  - unfold Cross, CalculateVector, torsion_atom1, torsion_atom2, torsion_atom3, atom_at.
    cbn [x y z position set_position]. rewrite magnitude_unit by lra. lra.
  - unfold Cross, CalculateVector, torsion_atom2, torsion_atom3, torsion_atom4, atom_at.
    cbn [x y z position set_position]. rewrite magnitude_unit by lra. lra.
  - rewrite sin_PI2. lra.
Defined.

(** ** Further properties of the Verlet list *)

(** X12: on a protein without nil atoms [BuildVerlet] gives a list to the
    atoms of the protein and to nothing else (the empty map for an empty
    protein); every list is a sublist of the protein's atom sequence, so it
    holds atoms of the protein only, in iteration order, and is free of
    repetitions when the protein is. *)
Theorem BuildVerlet_keys_and_order (m : heap) (v : VerletList) (p : Protein) :
  allocated m p ->
  exists v',
    BuildVerlet m v p = Some v'
    /\ Cutoff v' = Cutoff v /\ Buffer v' = Buffer v
    /\ (forall atom, is_Some (Neighbors v' !! atom) <-> atom ∈ protein_atoms p)
    /\ (forall atom ns,
          Neighbors v' !! atom = Some ns ->
          sublist ns (protein_atoms p)
          /\ (NoDup (protein_atoms p) -> NoDup ns)).
Proof.
  intros Hp. destruct (BuildVerlet_spec m v p Hp) as (v' & Hv' & Hc & Hb & Hlook).
  exists v'. split; [exact Hv'|]. split; [exact Hc|]. split; [exact Hb|]. split.
  - intros atom. rewrite Hlook.
    destruct (decide (atom ∈ protein_atoms p)) as [Hin|Hnin].
    + split; [intros _; exact Hin | intros _; eexists; reflexivity].
    + split; [intros [ns Hns]; discriminate | intros Hin; contradiction].
  - intros atom ns Hns. rewrite Hlook in Hns.
    destruct (decide (atom ∈ protein_atoms p)); [|discriminate].
    injection Hns as <-. split.
    + apply sublist_filter.
    + intros Hnd. apply NoDup_filter. exact Hnd.
Qed.

Lemma BuildVerlet_keys_and_order_witness :
  exists v',
    BuildVerlet pair_heap {| Neighbors := ∅; Cutoff := 0; Buffer := 2 |} pair_protein
    = Some v'
    /\ forall atom, is_Some (Neighbors v' !! atom) <-> atom ∈ protein_atoms pair_protein.
Proof.
  destruct (BuildVerlet_keys_and_order pair_heap
              {| Neighbors := ∅; Cutoff := 0; Buffer := 2 |} pair_protein)
    as (v' & Hv' & _ & _ & Hkeys & _).
  - repeat constructor; eexists; reflexivity.
  - exists v'. split; assumption.
Defined.

Lemma index_excluded_sym (a o : Atom) :
  (Int.min_int + 3 <= index a <= Int.max_int - 3)%Z ->
  (Int.min_int + 3 <= index o <= Int.max_int - 3)%Z ->
  index_excluded o a = index_excluded a o.
Proof.
  intros Ha Ho.
  destruct (index_excluded a o) eqn:E1; destruct (index_excluded o a) eqn:E2;
    try reflexivity; exfalso.
  - apply (index_excluded_interior a o Ha) in E1.
    assert (H : index_excluded o a = true)
      by (apply (index_excluded_interior o a Ho); lia).
    congruence.
  - apply (index_excluded_interior o a Ho) in E2.
    assert (H : index_excluded a o = true)
      by (apply (index_excluded_interior a o Ha); lia).
    congruence.
Qed.

(** X13: the neighbour relation is symmetric between atoms whose indices
    are at least 3 away from both ends of the integer range: one is on the
    list of the other exactly when the other is on its list. *)
Theorem BuildVerlet_symmetric (m : heap) (v : VerletList) (p : Protein) :
  allocated m p ->
  exists v',
    BuildVerlet m v p = Some v'
    /\ forall atom otherAtom a o ns ns',
        m !! atom = Some a -> m !! otherAtom = Some o ->
        (Int.min_int + 3 <= index a <= Int.max_int - 3)%Z ->
        (Int.min_int + 3 <= index o <= Int.max_int - 3)%Z ->
        Neighbors v' !! atom = Some ns -> Neighbors v' !! otherAtom = Some ns' ->
        otherAtom ∈ ns <-> atom ∈ ns'.
Proof.
  intros Hp. destruct (BuildVerlet_spec m v p Hp) as (v' & Hv' & _ & _ & Hlook).
  exists v'. split; [exact Hv'|].
  intros atom otherAtom a o ns ns' Ha Ho Hia Hio Hns Hns'.
  rewrite Hlook in Hns, Hns'.
  destruct (decide (atom ∈ protein_atoms p)) as [Hin|]; [|discriminate].
  destruct (decide (otherAtom ∈ protein_atoms p)) as [Hin'|]; [|discriminate].
  injection Hns as <-. injection Hns' as <-.
  rewrite !list_elem_of_filter.
  assert (Hsym : is_neighbor m (Cutoff v + Buffer v) atom otherAtom
                 = is_neighbor m (Cutoff v + Buffer v) otherAtom atom).
  { unfold is_neighbor. rewrite Ha, Ho.
    rewrite (index_excluded_sym a o Hia Hio).
    rewrite (Distance_sym (position a) (position o)).
    f_equal. f_equal. apply bool_decide_ext. split; intros H E; apply H; congruence. }
  rewrite Hsym. tauto.
Qed.

Lemma BuildVerlet_symmetric_witness :
  exists v',
    BuildVerlet pair_heap {| Neighbors := ∅; Cutoff := 0; Buffer := 2 |} pair_protein
    = Some v'
    /\ forall ns ns',
        Neighbors v' !! 1%positive = Some ns -> Neighbors v' !! 2%positive = Some ns' ->
        2%positive ∈ ns <-> 1%positive ∈ ns'.
Proof.
  destruct (BuildVerlet_symmetric pair_heap
              {| Neighbors := ∅; Cutoff := 0; Buffer := 2 |} pair_protein)
    as (v' & Hv' & Hsym).
  - repeat constructor; eexists; reflexivity.
  - exists v'. split; [exact Hv'|]. intros ns ns' Hns Hns'.
    apply (Hsym 1%positive 2%positive
             (set_index 0 (atom_at 0 0 0)) (set_index 10 (atom_at 1 0 0)) ns ns');
      try assumption; try reflexivity.
    + cbn. unfold Int.min_int, Int.max_int, Int.bits. lia.
    + cbn. unfold Int.min_int, Int.max_int, Int.bits. lia.
Defined.

(** X14: enlarging [Cutoff + Buffer] only adds neighbours: every list built
    with the smaller bound is contained in the list built with the larger
    one. *)
Theorem BuildVerlet_monotone (m : heap) (v1 v2 : VerletList) (p : Protein) :
  allocated m p ->
  Cutoff v1 + Buffer v1 <= Cutoff v2 + Buffer v2 ->
  exists v1' v2',
    BuildVerlet m v1 p = Some v1' /\ BuildVerlet m v2 p = Some v2'
    /\ forall atom ns1 ns2,
        Neighbors v1' !! atom = Some ns1 -> Neighbors v2' !! atom = Some ns2 ->
        forall otherAtom, otherAtom ∈ ns1 -> otherAtom ∈ ns2.
Proof.
  intros Hp Hle.
  destruct (BuildVerlet_spec m v1 p Hp) as (w1 & Hw1 & _ & _ & Hlook1).
  destruct (BuildVerlet_spec m v2 p Hp) as (w2 & Hw2 & _ & _ & Hlook2).
  exists w1, w2. split; [exact Hw1|]. split; [exact Hw2|].
  intros atom ns1 ns2 Hns1 Hns2 otherAtom.
  rewrite Hlook1 in Hns1. rewrite Hlook2 in Hns2.
  destruct (decide (atom ∈ protein_atoms p)); [|discriminate].
  injection Hns1 as <-. injection Hns2 as <-.
  rewrite !list_elem_of_filter. intros [Hn Hin]. split; [|exact Hin].
  apply Is_true_true_1, is_neighbor_true in Hn as (Hne & a & o & Ha & Ho & Hx & Hd).
  apply Is_true_true_2, is_neighbor_true. split; [exact Hne|].
  exists a, o. repeat split; try assumption. lra.
Qed.

Lemma BuildVerlet_monotone_witness :
  exists v1' v2',
    BuildVerlet pair_heap {| Neighbors := ∅; Cutoff := 0; Buffer := 0.5 |} pair_protein
    = Some v1'
    /\ BuildVerlet pair_heap {| Neighbors := ∅; Cutoff := 0; Buffer := 2 |} pair_protein
       = Some v2'
    /\ forall atom ns1 ns2,
        Neighbors v1' !! atom = Some ns1 -> Neighbors v2' !! atom = Some ns2 ->
        forall otherAtom, otherAtom ∈ ns1 -> otherAtom ∈ ns2.
Proof.
  apply (BuildVerlet_monotone pair_heap
           {| Neighbors := ∅; Cutoff := 0; Buffer := 0.5 |}
           {| Neighbors := ∅; Cutoff := 0; Buffer := 2 |} pair_protein).
  - repeat constructor; eexists; reflexivity.
  - cbn [Cutoff Buffer]. lra.
Defined.

(** ** In-place updates of the atoms of a structure *)

Lemma insert_as_alter (f : Atom -> Atom) (q : loc) (a : Atom) (m : heap) :
  m !! q = Some a -> <[q := f a]> m = alter f q m.
Proof.
  intros Hq. apply map_eq. intros i. destruct (decide (q = i)) as [->|Hne].
  - rewrite lookup_insert_eq, lookup_alter_eq, Hq. reflexivity.
  - rewrite lookup_insert_ne, lookup_alter_ne by exact Hne. reflexivity.
Qed.

Lemma holds_alter (P : Atom -> Prop) (f : Atom -> Atom) (m : heap) (q q' : loc) :
  (forall a, P a -> P (f a)) -> holds P m q -> holds P (alter f q' m) q.
Proof.
  intros Hf (a & Ha & HP). destruct (decide (q' = q)) as [->|Hne].
  - exists (f a). rewrite lookup_alter_eq, Ha. split; [reflexivity | apply Hf, HP].
  - exists a. rewrite lookup_alter_ne by exact Hne. split; assumption.
Qed.

Lemma holds_update_atoms (P : Atom -> Prop) (f : Atom -> Atom) (l : list loc) :
  (forall a, P a -> P (f a)) ->
  forall (m : heap) (q : loc), holds P m q -> holds P (update_atoms f l m) q.
Proof.
  intros Hf. unfold update_atoms.
  induction l as [|q0 l IH]; intros m q Hq; [exact Hq|].
  cbn [foldl]. apply IH, holds_alter; assumption.
Qed.

Lemma lookup_update_atoms_notin (f : Atom -> Atom) (l : list loc) :
  forall (m : heap) (q : loc), q ∉ l -> update_atoms f l m !! q = m !! q.
Proof.
  unfold update_atoms. induction l as [|q0 l IH]; intros m q Hq; [reflexivity|].
  apply not_elem_of_cons in Hq as [Hne Hq]. cbn [foldl].
  rewrite IH by exact Hq. apply lookup_alter_ne. congruence.
Qed.

Lemma lookup_update_atoms_NoDup (f : Atom -> Atom) (l : list loc) :
  forall (m : heap) (q : loc),
    NoDup l -> q ∈ l -> update_atoms f l m !! q = f <$> m !! q.
Proof.
  induction l as [|q0 l IH]; intros m q Hnd Hq; [inversion Hq|].
  apply NoDup_cons in Hnd as [Hq0 Hnd].
  change (update_atoms f (q0 :: l) m) with (update_atoms f l (alter f q0 m)).
  apply elem_of_cons in Hq as [->|Hq].
  - rewrite lookup_update_atoms_notin by exact Hq0. apply lookup_alter_eq.
  - rewrite IH by assumption. rewrite lookup_alter_ne; [reflexivity|].
    intros ->. contradiction.
Qed.

Lemma dom_update_atoms (f : Atom -> Atom) (l : list loc) :
  forall m : heap, dom (update_atoms f l m) = dom m.
Proof.
  unfold update_atoms. induction l as [|q0 l IH]; intros m; [reflexivity|].
  cbn [foldl]. rewrite IH. apply dom_alter_L.
Qed.

Lemma lookup_update_protein_notin (F : Residue -> Atom -> Atom) (rs : list Residue) :
  forall (m : heap) (q : loc),
    q ∉ concat (Atoms <$> rs) -> update_protein F rs m !! q = m !! q.
Proof.
  unfold update_protein. induction rs as [|r rs IH]; intros m q Hq; [reflexivity|].
  cbn [fmap list_fmap concat] in Hq. apply not_elem_of_app in Hq as [Hq1 Hq2].
  cbn [foldl]. rewrite IH by exact Hq2.
  apply lookup_update_atoms_notin. exact Hq1.
Qed.

Lemma lookup_update_protein_NoDup (F : Residue -> Atom -> Atom) (rs : list Residue) :
  forall (m : heap) (r : Residue) (q : loc),
    NoDup (concat (Atoms <$> rs)) -> r ∈ rs -> q ∈ Atoms r ->
    update_protein F rs m !! q = F r <$> m !! q.
Proof.
  induction rs as [|r0 rs IH]; intros m r q Hnd Hr Hq; [inversion Hr|].
  cbn [fmap list_fmap concat] in Hnd.
  apply NoDup_app in Hnd as (Hnd0 & Hdisj & Hnd).
  change (update_protein F (r0 :: rs) m)
    with (update_protein F rs (update_atoms (F r0) (Atoms r0) m)).
  destruct (decide (q ∈ Atoms r0)) as [Hq0|Hq0].
  - rewrite lookup_update_protein_notin by (apply Hdisj; exact Hq0).
    apply elem_of_cons in Hr as [->|Hr].
    + apply lookup_update_atoms_NoDup; assumption.
    + exfalso. apply (Hdisj q Hq0). apply elem_of_concat.
      exists (Atoms r). split; [exact Hq|].
      apply list_elem_of_fmap. exists r. split; [reflexivity | exact Hr].
  - apply elem_of_cons in Hr as [->|Hr]; [contradiction|].
    rewrite (IH _ r q Hnd Hr Hq).
    rewrite lookup_update_atoms_notin by exact Hq0. reflexivity.
Qed.

Lemma dom_update_protein (F : Residue -> Atom -> Atom) (rs : list Residue) :
  forall m : heap, dom (update_protein F rs m) = dom m.
Proof.
  unfold update_protein. induction rs as [|r rs IH]; intros m; [reflexivity|].
  cbn [foldl]. rewrite IH. apply dom_update_atoms.
Qed.

Section UpdateLoops.
Variable F : Residue -> Atom -> Atom.
Variable P : Atom -> Prop.
Variable body : Residue -> Z -> loc -> M unit.
Hypothesis body_ok :
  forall r j q m a, m !! q = Some a -> P a -> body r j q m = Some (tt, <[q := F r a]> m).
Hypothesis body_fail :
  forall r j q m a, m !! q = Some a -> ~ P a -> body r j q m = None.
Hypothesis F_keeps : forall r a, P a -> P (F r a).
Hypothesis P_dec : forall a, {P a} + {~ P a}.

Lemma holds_or_fails (m : heap) (l : list loc) :
  Forall (fun q => is_Some (m !! q)) l ->
  Forall (holds P m) l \/ Exists (holds (fun a => ~ P a) m) l.
Proof.
  induction 1 as [|q l [a Ha] Hl IH]; [left; constructor|].
  destruct (P_dec a) as [HP|HnP].
  - destruct IH as [IH|IH].
    + left. constructor; [exists a; split; assumption | exact IH].
    + right. apply Exists_cons. right. exact IH.
  - right. apply Exists_cons. left. exists a. split; assumption.
Qed.

Lemma update_loop_atoms (r : Residue) (l : list loc) :
  forall (j : Z) (m : heap),
    Forall (holds P m) l ->
    range_loop (body r) j l m = Some (tt, update_atoms (F r) l m).
Proof.
  induction l as [|q l IH]; intros j m Hl; [reflexivity|].
  apply Forall_cons in Hl as [(a & Ha & HP) Hl]. cbn [range_loop].
  rewrite M_bind_unfold, (body_ok r j q m a Ha HP).
  rewrite (insert_as_alter (F r) q a m Ha).
  apply IH. eapply Forall_impl; [exact Hl|]. intros q'.
  apply holds_alter, F_keeps.
Qed.

Lemma update_loop_residues (rs : list Residue) :
  forall (i : Z) (m : heap),
    Forall (holds P m) (concat (Atoms <$> rs)) ->
    range_loop (fun _ r => range_loop (body r) 0%Z (Atoms r)) i rs m
    = Some (tt, update_protein F rs m).
Proof.
  induction rs as [|r rs IH]; intros i m Hrs; [reflexivity|].
  cbn [fmap list_fmap concat] in Hrs. apply Forall_app in Hrs as [Hr Hrs].
  cbn [range_loop]. rewrite M_bind_unfold, (update_loop_atoms r (Atoms r) 0%Z m Hr).
  apply IH. eapply Forall_impl; [exact Hrs|]. intros q.
  apply holds_update_atoms, F_keeps.
Qed.

Lemma update_loop_atoms_fail (r : Residue) (l : list loc) :
  forall (j : Z) (m : heap),
    Forall (fun q => is_Some (m !! q)) l ->
    Exists (holds (fun a => ~ P a) m) l ->
    range_loop (body r) j l m = None.
Proof.
  induction l as [|q l IH]; intros j m Hl Hex; [inversion Hex|].
  apply Forall_cons in Hl as [[a Ha] Hl]. cbn [range_loop]. rewrite M_bind_unfold.
  destruct (P_dec a) as [HP|HnP].
  - rewrite (body_ok r j q m a Ha HP).
    apply IH.
    + eapply Forall_impl; [exact Hl|]. intros q' [a' Ha'].
      destruct (decide (q = q')) as [->|Hne].
      * rewrite lookup_insert_eq. eexists; reflexivity.
      * rewrite lookup_insert_ne by exact Hne. eexists; exact Ha'.
    + apply Exists_cons in Hex as [(a' & Ha' & HnP)|Hex].
      * exfalso. rewrite Ha in Ha'. injection Ha' as <-. contradiction.
      * eapply Exists_impl; [exact Hex|]. intros q' (a' & Ha' & HnP).
        destruct (decide (q = q')) as [->|Hne].
        -- exfalso. rewrite Ha in Ha'. injection Ha' as <-. contradiction.
        -- exists a'. rewrite lookup_insert_ne by exact Hne. split; assumption.
  - rewrite (body_fail r j q m a Ha HnP). reflexivity.
Qed.

Lemma update_loop_atoms_total (r : Residue) (l : list loc) (j : Z) (m : heap) :
  Forall (fun q => is_Some (m !! q)) l ->
  range_loop (body r) j l m = None
  \/ range_loop (body r) j l m = Some (tt, update_atoms (F r) l m)
     /\ Forall (holds P m) l.
Proof.
  intros Hl. destruct (holds_or_fails m l Hl) as [Hall|Hex].
  - right. split; [apply update_loop_atoms|]; exact Hall.
  - left. apply update_loop_atoms_fail; assumption.
Qed.

Lemma update_loop_residues_fail (rs : list Residue) :
  forall (i : Z) (m : heap),
    Forall (fun q => is_Some (m !! q)) (concat (Atoms <$> rs)) ->
    Exists (holds (fun a => ~ P a) m) (concat (Atoms <$> rs)) ->
    range_loop (fun _ r => range_loop (body r) 0%Z (Atoms r)) i rs m = None.
Proof.
  induction rs as [|r rs IH]; intros i m Hrs Hex; [inversion Hex|].
  cbn [fmap list_fmap concat] in Hrs, Hex.
  apply Forall_app in Hrs as [Hr Hrs]. cbn [range_loop]. rewrite M_bind_unfold.
  destruct (update_loop_atoms_total r (Atoms r) 0%Z m Hr) as [->|[-> Hall]];
    [reflexivity|].
  apply Exists_app in Hex as [Hex|Hex].
  - exfalso. apply Exists_exists in Hex as (q & Hq & a & Ha & HnP).
    destruct (proj1 (Forall_forall _ _) Hall q Hq) as (a' & Ha' & HP).
    rewrite Ha in Ha'. injection Ha' as <-. contradiction.
  - apply IH.
    + eapply Forall_impl; [exact Hrs|]. intros q Hq.
      apply elem_of_dom. rewrite dom_update_atoms. apply elem_of_dom. exact Hq.
    + eapply Exists_impl; [exact Hex|]. intros q (a & Ha & HnP).
      destruct (decide (q ∈ Atoms r)) as [Hin|Hnin].
      * exfalso. destruct (proj1 (Forall_forall _ _) Hall q Hin) as (a' & Ha' & HP).
        rewrite Ha in Ha'. injection Ha' as <-. contradiction.
      * exists a. rewrite lookup_update_atoms_notin by exact Hnin. split; assumption.
Qed.

End UpdateLoops.

(** ** Steepest descent, charges and masses *)

Lemma magnitude_CalculateNetForce (j : Z) : magnitude (CalculateNetForce j) = sqrt 3.
Proof.
  unfold magnitude, CalculateNetForce; cbn [x y z]. f_equal. lra.
Qed.

Lemma sqrt3_pos : 0 < sqrt 3.
Proof. apply sqrt_lt_R0. lra. Qed.

Lemma descend_atom_moved (h : R) (j : Z) (q : loc) (m : heap) (a : Atom) :
  m !! q = Some a -> descend_atom h j q m = Some (tt, <[q := moved h a]> m).
Proof.
  intros Ha. unfold descend_atom. cbv zeta. rewrite magnitude_CalculateNetForce.
  rewrite M_bind_unfold. unfold load at 1. rewrite Ha.
  rewrite M_bind_unfold, store_alloc by (exists a; exact Ha).
  rewrite M_bind_unfold. unfold load at 1. rewrite lookup_insert_eq.
  rewrite M_bind_unfold, store_alloc by (rewrite lookup_insert_eq; eexists; reflexivity).
  rewrite M_bind_unfold. unfold load at 1. rewrite insert_insert_eq, lookup_insert_eq.
  rewrite store_alloc by (rewrite lookup_insert_eq; eexists; reflexivity).
  rewrite insert_insert_eq. do 3 f_equal.
  unfold moved, set_position_z, set_position_y, set_position_x, set_position,
    CalculateNetForce.
  cbn [x y z position index velocity force accelerated mass element charge].
  f_equal. apply TriTuple_eq; cbn [x y z];
    replace 1.0 with 1 by lra; unfold Rdiv; ring.
Qed.

Lemma Distance_moved (h : R) (a : Atom) :
  Distance (position a) (position (moved h a)) = Rabs h.
Proof.
  unfold Distance, moved, set_position. cbv zeta. cbn [position x y z].
  rewrite <- sqrt_Rsqr_abs. f_equal. unfold Rsqr.
  pose proof sqrt3_pos as H3.
  replace (x (position a) - (x (position a) + h / sqrt 3)) with (- (h / sqrt 3)) by ring.
  replace (y (position a) - (y (position a) + h / sqrt 3)) with (- (h / sqrt 3)) by ring.
  replace (z (position a) - (z (position a) + h / sqrt 3)) with (- (h / sqrt 3)) by ring.
  replace (- (h / sqrt 3) * - (h / sqrt 3) + - (h / sqrt 3) * - (h / sqrt 3)
           + - (h / sqrt 3) * - (h / sqrt 3))
    with (h * h * (3 / (sqrt 3 * sqrt 3))) by (field; lra).
  rewrite sqrt_sqrt by lra. field.
Qed.

Lemma allocated_holds (m : heap) (l : list loc) :
  Forall (fun q => is_Some (m !! q)) l -> Forall (holds (fun _ => True) m) l.
Proof.
  intros H. eapply Forall_impl; [exact H|]. intros q [a Ha]. exists a. split; [exact Ha | exact I].
Qed.

Lemma SteepestDescent_update (protein : Protein) (h : R) (m : heap) :
  allocated m protein ->
  SteepestDescent protein h m
  = Some (protein, update_protein (fun _ => moved h) (Protein_Residue protein) m).
Proof.
  intros Hp. unfold SteepestDescent. rewrite M_bind_unfold.
  rewrite (update_loop_residues (fun _ => moved h) (fun _ => True)
             (fun _ => descend_atom h)).
  - reflexivity.
  - intros r j q m0 a Ha _. apply descend_atom_moved. exact Ha.
  - intros; exact I.
  - apply allocated_holds. exact Hp.
Qed.

Lemma lookup_update_protein_atoms (F : Residue -> Atom -> Atom) (p : Protein)
    (m : heap) (q : loc) (a : Atom) :
  NoDup (protein_atoms p) -> q ∈ protein_atoms p -> m !! q = Some a ->
  exists r, r ∈ Protein_Residue p
            /\ update_protein F (Protein_Residue p) m !! q = Some (F r a).
Proof.
  intros Hnd Hq Ha.
  apply elem_of_concat in Hq as (l & Hq & Hl).
  apply list_elem_of_fmap in Hl as (r & -> & Hr).
  exists r. split; [exact Hr|].
  rewrite (lookup_update_protein_NoDup F _ m r q Hnd Hr Hq), Ha. reflexivity.
Qed.

(** X15: [SteepestDescent] moves every atom of the protein by [h / sqrt 3]
    along each axis, a step of length [|h|], and changes nothing else: no
    other field of these atoms, no other atom, and the set of atoms in the
    store.  (An atom listed twice is moved twice; the statement about single
    atoms is for proteins that list each atom once.) *)
Theorem SteepestDescent_moves (protein : Protein) (h : R) (m : heap) :
  allocated m protein ->
  exists m',
    SteepestDescent protein h m = Some (protein, m')
    /\ dom m' = dom m
    /\ (forall q, q ∉ protein_atoms protein -> m' !! q = m !! q)
    /\ (NoDup (protein_atoms protein) ->
        forall q a,
          q ∈ protein_atoms protein -> m !! q = Some a ->
          m' !! q = Some (moved h a)
          /\ Distance (position a) (position (moved h a)) = Rabs h).
Proof.
  intros Hp.
  exists (update_protein (fun _ => moved h) (Protein_Residue protein) m).
  split; [apply SteepestDescent_update; exact Hp|].
  split; [apply dom_update_protein|]. split.
  - intros q Hq. apply lookup_update_protein_notin. exact Hq.
  - intros Hnd q a Hq Ha. split; [|apply Distance_moved].
    destruct (lookup_update_protein_atoms (fun _ => moved h) protein m q a Hnd Hq Ha)
      as (r & _ & Hlook).
    exact Hlook.
Qed.

Lemma SteepestDescent_moves_witness :
  exists m',
    SteepestDescent single_protein 0.01 single_heap = Some (single_protein, m')
    /\ dom m' = dom single_heap.
Proof.
  destruct (SteepestDescent_moves single_protein 0.01 single_heap)
    as (m' & Hrun & Hdom & _).
  - repeat constructor; eexists; reflexivity.
  - exists m'. split; assumption.
Defined.

Lemma set_charge_charge_for (chargeData : gmap string (gmap string R))
    (r : Residue) (q : loc) (a : Atom) (m : heap) :
  m !! q = Some a ->
  (a' ← load q;
   match chargeData !! Residue_Name r with
   | Some data =>
       match data !! element a' with
       | Some atomCharge => store q (set_charge atomCharge a')
       | None => store q (set_charge 0.0 a')
       end
   | None => store q (set_charge 0.0 a')
   end) m
  = Some (tt, <[q := set_charge (charge_for chargeData (Residue_Name r) (element a)) a]> m).
Proof.
  intros Ha. rewrite M_bind_unfold. unfold load. rewrite Ha. unfold charge_for.
  replace 0.0 with 0 by lra.
  destruct (chargeData !! Residue_Name r) as [data|];
    [destruct (data !! element a) as [c|]|];
    cbn [default]; apply store_alloc; exists a; exact Ha.
Qed.

(** X16: [AssignChargesToProtein] succeeds on a protein without nil atoms.
    It sets the charge of every atom to the table's entry for the residue
    name and the atom's element label, and to 0 when the residue or the
    label has no entry; it changes no other field and no other atom, and
    running it a second time changes nothing.  (Single-atom statements are
    for proteins that list each atom once.) *)
Theorem AssignChargesToProtein_spec (chargeData : gmap string (gmap string R))
    (protein : Protein) (m : heap) :
  allocated m protein ->
  exists m',
    AssignChargesToProtein chargeData protein m = Some (tt, m')
    /\ dom m' = dom m
    /\ (forall q, q ∉ protein_atoms protein -> m' !! q = m !! q)
    /\ (NoDup (protein_atoms protein) ->
        (forall r q a,
            r ∈ Protein_Residue protein -> q ∈ Atoms r -> m !! q = Some a ->
            m' !! q
            = Some (set_charge (charge_for chargeData (Residue_Name r) (element a)) a))
        /\ AssignChargesToProtein chargeData protein m' = Some (tt, m')).
Proof.
  intros Hp.
  set (F := fun (r : Residue) (a : Atom) =>
              set_charge (charge_for chargeData (Residue_Name r) (element a)) a).
  assert (Hrun : forall m0, allocated m0 protein ->
            AssignChargesToProtein chargeData protein m0
            = Some (tt, update_protein F (Protein_Residue protein) m0)).
  { intros m0 Hp0. unfold AssignChargesToProtein.
    apply (update_loop_residues F (fun _ => True)
             (fun r _ q =>
                a' ← load q;
                match chargeData !! Residue_Name r with
                | Some data =>
                    match data !! element a' with
                    | Some atomCharge => store q (set_charge atomCharge a')
                    | None => store q (set_charge 0.0 a')
                    end
                | None => store q (set_charge 0.0 a')
                end)).
    - intros r j q m1 a Ha _. apply set_charge_charge_for. exact Ha.
    - intros; exact I.
    - apply allocated_holds. exact Hp0. }
  exists (update_protein F (Protein_Residue protein) m).
  split; [apply Hrun; exact Hp|]. split; [apply dom_update_protein|]. split.
  - intros q Hq. apply lookup_update_protein_notin. exact Hq.
  - intros Hnd.
    assert (Hlook : forall m0 r q,
               r ∈ Protein_Residue protein -> q ∈ Atoms r ->
               update_protein F (Protein_Residue protein) m0 !! q = F r <$> m0 !! q).
    { intros m0 r q Hr Hq. apply lookup_update_protein_NoDup; assumption. }
    split.
    + intros r q a Hr Hq Ha. rewrite (Hlook m r q Hr Hq), Ha. reflexivity.
    + rewrite Hrun.
      * do 2 f_equal. apply map_eq. intros q.
        destruct (decide (q ∈ protein_atoms protein)) as [Hin|Hnin].
        -- apply elem_of_concat in Hin as (l & Hq & Hl).
           apply list_elem_of_fmap in Hl as (r & -> & Hr).
           rewrite !(Hlook _ r q Hr Hq).
           destruct (m !! q) as [a|]; [|reflexivity]. reflexivity.
        -- rewrite lookup_update_protein_notin by exact Hnin. reflexivity.
      * eapply Forall_impl; [exact Hp|]. intros q Hq.
        apply elem_of_dom. rewrite dom_update_protein. apply elem_of_dom. exact Hq.
Qed.

Lemma AssignChargesToProtein_spec_witness :
  exists m',
    AssignChargesToProtein ∅ single_protein single_heap = Some (tt, m')
    /\ dom m' = dom single_heap.
Proof.
  destruct (AssignChargesToProtein_spec ∅ single_protein single_heap)
    as (m' & Hrun & Hdom & _).
  - repeat constructor; eexists; reflexivity.
  - exists m'. split; assumption.
Defined.

Lemma UpdateMasses_body_ok (table : gmap string R) (q : loc) (a : Atom) (m : heap) :
  m !! q = Some a -> element a <> EmptyString ->
  (a' ← load q;
   match element a' with
   | EmptyString => panic
   | String b _ =>
       match table !! string_of_byte b with
       | Some mass => store q (set_mass mass a')
       | None => store q (set_mass 0.0 a')
       end
   end) m
  = Some (tt, <[q := set_mass (mass_for table (element a)) a]> m).
Proof.
  intros Ha Hne. rewrite M_bind_unfold. unfold load. rewrite Ha. unfold mass_for.
  destruct (element a) as [|b s]; [contradiction|].
  replace 0.0 with 0 by lra.
  destruct (table !! string_of_byte b) as [mass|]; cbn [default];
    apply store_alloc; exists a; exact Ha.
Qed.

Lemma UpdateMasses_body_fail (table : gmap string R) (q : loc) (a : Atom) (m : heap) :
  m !! q = Some a -> ~ element a <> EmptyString ->
  (a' ← load q;
   match element a' with
   | EmptyString => panic
   | String b _ =>
       match table !! string_of_byte b with
       | Some mass => store q (set_mass mass a')
       | None => store q (set_mass 0.0 a')
       end
   end) m
  = None.
Proof.
  intros Ha Hne. rewrite M_bind_unfold. unfold load. rewrite Ha.
  destruct (element a) as [|b s]; [reflexivity|].
  exfalso. apply Hne. discriminate.
Qed.

(** X17: on a protein without nil atoms [UpdateMasses] panics exactly when
    some atom has an empty element label.  Otherwise it sets the mass of
    every atom to the table's entry for the first byte of its label, and to
    0 when there is none, and changes no other field and no other atom.
    (Single-atom statements are for proteins that list each atom once.) *)
Theorem UpdateMasses_spec (table : gmap string R) (p : Protein) (m : heap) :
  allocated m p ->
  (UpdateMasses table p m = None
   <-> exists q a, q ∈ protein_atoms p /\ m !! q = Some a /\ element a = EmptyString)
  /\ ((forall q a, q ∈ protein_atoms p -> m !! q = Some a -> element a <> EmptyString) ->
      exists m',
        UpdateMasses table p m = Some (tt, m')
        /\ dom m' = dom m
        /\ (forall q, q ∉ protein_atoms p -> m' !! q = m !! q)
        /\ (NoDup (protein_atoms p) ->
            forall q a,
              q ∈ protein_atoms p -> m !! q = Some a ->
              m' !! q = Some (set_mass (mass_for table (element a)) a))).
Proof.
  intros Hp.
  set (F := fun (_ : Residue) (a : Atom) => set_mass (mass_for table (element a)) a).
  set (P := fun a : Atom => element a <> EmptyString).
  set (body := fun (_ : Residue) (_ : Z) (q : loc) =>
                 a' ← load q;
                 match element a' with
                 | EmptyString => panic
                 | String b _ =>
                     match table !! string_of_byte b with
                     | Some mass => store q (set_mass mass a')
                     | None => store q (set_mass 0.0 a')
                     end
                 end).
  assert (Hok : forall r j q m0 a, m0 !! q = Some a -> P a ->
                  body r j q m0 = Some (tt, <[q := F r a]> m0))
    by (intros r j q m0 a; apply UpdateMasses_body_ok).
  assert (Hfail : forall r j q m0 a, m0 !! q = Some a -> ~ P a -> body r j q m0 = None)
    by (intros r j q m0 a; apply UpdateMasses_body_fail).
  assert (Hkeep : forall (r : Residue) a, P a -> P (F r a)) by (intros r a H; exact H).
  assert (Hdec : forall a, {P a} + {~ P a}).
  { intros a. unfold P. destruct (decide (element a = EmptyString)) as [E|E].
    - right. intros H. exact (H E).
    - left. exact E. }
  assert (Hsucc : Forall (holds P m) (protein_atoms p) ->
                  UpdateMasses table p m
                  = Some (tt, update_protein F (Protein_Residue p) m)).
  { intros Hall. unfold UpdateMasses.
    apply (update_loop_residues F P body Hok Hkeep). exact Hall. }
  split.
  - split.
    + intros Hnone.
      destruct (holds_or_fails P Hdec m (protein_atoms p) Hp) as [Hall|Hex].
      * rewrite (Hsucc Hall) in Hnone. discriminate.
      * apply Exists_exists in Hex as (q & Hq & a & Ha & HnP).
        exists q, a. split; [exact Hq|]. split; [exact Ha|].
        destruct (decide (element a = EmptyString)) as [E|E]; [exact E|].
        exfalso. exact (HnP E).
    + intros (q & a & Hq & Ha & He). unfold UpdateMasses.
      apply (update_loop_residues_fail F P body Hok Hfail Hkeep Hdec); [exact Hp|].
      apply Exists_exists. exists q. split; [exact Hq|]. exists a.
      split; [exact Ha|]. intros H. exact (H He).
  - intros Hne.
    assert (Hall : Forall (holds P m) (protein_atoms p)).
    { apply Forall_forall. intros q Hq.
      destruct (proj1 (Forall_forall _ _) Hp q Hq) as [a Ha].
      exists a. split; [exact Ha | exact (Hne q a Hq Ha)]. }
    exists (update_protein F (Protein_Residue p) m).
    split; [exact (Hsucc Hall)|]. split; [apply dom_update_protein|]. split.
    + intros q Hq. apply lookup_update_protein_notin. exact Hq.
    + intros Hnd q a Hq Ha.
      apply elem_of_concat in Hq as (l & Hq & Hl).
      apply list_elem_of_fmap in Hl as (r & -> & Hr).
      rewrite (lookup_update_protein_NoDup F _ m r q Hnd Hr Hq), Ha. reflexivity.
Qed.

Lemma UpdateMasses_spec_witness :
  UpdateMasses massTable single_protein single_heap = None
  <-> exists q a,
      q ∈ protein_atoms single_protein /\ single_heap !! q = Some a
      /\ element a = EmptyString.
Proof.
  apply (UpdateMasses_spec massTable single_protein single_heap).
  repeat constructor; eexists; reflexivity.
Defined.

(** ** Copies *)

Lemma mapM_CopyAtom_NoDup (l : list loc) :
  forall (m : heap) (l' : list loc) (m' : heap),
    Forall (fun q => is_Some (m !! q)) l ->
    mapM CopyAtom l m = Some (l', m') -> NoDup l'.
Proof.
  induction l as [|q l IH]; intros m l' m' Hl Hrun.
  - injection Hrun as <- _. constructor.
  - apply Forall_cons in Hl as [[c Hc] Hl]. cbn [mapM] in Hrun.
    destruct (CopyAtom_spec q c m Hc) as (q' & c' & Hq' & Hfresh & _).
    rewrite M_bind_unfold, Hq', M_bind_unfold in Hrun.
    assert (Hl1 : Forall (fun q0 => is_Some (<[q' := c']> m !! q0)) l).
    { eapply allocated_weaken; [|exact Hl]. apply insert_subseteq. exact Hfresh. }
    destruct (mapM_CopyAtom_spec l (<[q' := c']> m) Hl1)
      as (l1 & m1 & Hrun1 & _ & _ & Hnew).
    rewrite Hrun1 in Hrun. injection Hrun as <- <-.
    apply NoDup_cons. split.
    + intros Hin. apply (proj1 (Forall_forall _ _) Hnew) in Hin as [Hnone _].
      rewrite lookup_insert_eq in Hnone. discriminate.
    + eapply IH; eassumption.
Qed.

Lemma mapM_CopyResidue_NoDup (rs : list Residue) :
  forall (m : heap) (rs' : list Residue) (m' : heap),
    Forall (fun r => Forall (fun q => is_Some (m !! q)) (Atoms r)) rs ->
    mapM CopyResidue rs m = Some (rs', m') ->
    NoDup (concat (Atoms <$> rs')).
Proof.
  induction rs as [|r rs IH]; intros m rs' m' Hrs Hrun.
  - injection Hrun as <- _. constructor.
  - apply Forall_cons in Hrs as [Hr Hrs]. cbn [mapM] in Hrun.
    destruct (CopyResidue_spec r m Hr) as (r' & m1 & Hr' & Hsub1 & _ & Hnew1).
    rewrite M_bind_unfold, Hr', M_bind_unfold in Hrun.
    assert (Hrs1 : Forall (fun r0 => Forall (fun q => is_Some (m1 !! q)) (Atoms r0)) rs).
    { eapply Forall_impl; [exact Hrs|]. intros r0. apply allocated_weaken. exact Hsub1. }
    destruct (mapM_CopyResidue_spec rs m1 Hrs1) as (rs1 & m2 & Hrun1 & _ & _ & Hnew).
    rewrite Hrun1 in Hrun. injection Hrun as <- <-.
    cbn [fmap list_fmap concat]. apply NoDup_app. split; [|split].
    + unfold CopyResidue in Hr'. rewrite M_bind_unfold in Hr'.
      destruct (mapM CopyAtom (Atoms r) m) as [[l' m0]|] eqn:E; [|discriminate].
      injection Hr' as <- <-. cbn [Atoms].
      eapply mapM_CopyAtom_NoDup; eassumption.
    + intros q Hq Hin.
      apply (proj1 (Forall_forall _ _) Hnew1) in Hq as [_ [c Hc]].
      apply elem_of_concat in Hin as (l0 & Hq0 & Hl0).
      apply list_elem_of_fmap in Hl0 as (r0 & -> & Hr0).
      apply (proj1 (Forall_forall _ _) Hnew) in Hr0.
      apply (proj1 (Forall_forall _ _) Hr0) in Hq0 as [Hnone _].
      congruence.
    + eapply IH; eassumption.
Qed.

Lemma Forall2_concat_atoms (R : loc -> loc -> Prop) (S : Residue -> Residue -> Prop)
    (rs rs' : list Residue) :
  (forall r r', S r r' -> Forall2 R (Atoms r) (Atoms r')) ->
  Forall2 S rs rs' ->
  Forall2 R (concat (Atoms <$> rs)) (concat (Atoms <$> rs')).
Proof.
  intros HS H. induction H as [|r r' rs rs' Hr Hrs IH]; [constructor|].
  cbn [fmap list_fmap concat]. apply Forall2_app; [apply HS; exact Hr | exact IH].
Qed.

(** The atoms of a copy: copies of the original atoms, in order, at new
    and pairwise different locations. *)
Lemma CopyProtein_atoms (currentProtein : Protein) (m : heap) :
  allocated m currentProtein ->
  exists p' m',
    CopyProtein currentProtein m = Some (p', m')
    /\ m ⊆ m'
    /\ Forall2 (copy_at m m') (protein_atoms currentProtein) (protein_atoms p')
    /\ NoDup (protein_atoms p')
    /\ Forall (fun q' => m !! q' = None /\ is_Some (m' !! q')) (protein_atoms p').
Proof.
  intros Hp.
  destruct (CopyProtein_spec currentProtein m Hp)
    as (p' & m' & Hrun & Hsub & _ & Hcopies & Hnew).
  exists p', m'. split; [exact Hrun|]. split; [exact Hsub|].
  split; [|split; [|exact Hnew]].
  - unfold protein_atoms.
    apply (Forall2_concat_atoms _ (residue_copy_at m m')); [|exact Hcopies].
    intros r r' (_ & _ & _ & Hat). exact Hat.
  - unfold CopyProtein in Hrun. rewrite M_bind_unfold in Hrun.
    destruct (mapM CopyResidue (Protein_Residue currentProtein) m)
      as [[rs' m0]|] eqn:E; [|discriminate].
    injection Hrun as <- <-. unfold protein_atoms. cbn [Protein_Residue].
    eapply mapM_CopyResidue_NoDup; [|exact E].
    apply allocated_residues. exact Hp.
Qed.

(** X19: [CopyProtein] is a deep copy.  On a protein without nil atoms the
    copy has as many residues, and in each residue as many atoms, as the
    original; its atoms are new (none of them was in the store before, so
    none is an atom of the original) and pairwise different, even where the
    original lists an atom twice. *)
Theorem CopyProtein_deep_copy (currentProtein : Protein) (m : heap) :
  allocated m currentProtein ->
  exists p' m',
    CopyProtein currentProtein m = Some (p', m')
    /\ Forall2 (fun r r' => length (Atoms r') = length (Atoms r))
         (Protein_Residue currentProtein) (Protein_Residue p')
    /\ Forall2 (copy_at m m') (protein_atoms currentProtein) (protein_atoms p')
    /\ NoDup (protein_atoms p')
    /\ allocated m' p'
    /\ forall q', q' ∈ protein_atoms p' ->
         m !! q' = None /\ q' ∉ protein_atoms currentProtein.
Proof.
  intros Hp.
  destruct (CopyProtein_atoms currentProtein m Hp)
    as (p' & m' & Hrun & _ & Hatoms & Hnd & Hnew).
  destruct (CopyProtein_spec currentProtein m Hp)
    as (p0 & m0 & Hrun0 & _ & _ & Hcopies & _).
  rewrite Hrun in Hrun0. injection Hrun0 as <- <-.
  exists p', m'. split; [exact Hrun|]. split; [|split; [exact Hatoms|split; [exact Hnd|split]]].
  - eapply Forall2_impl; [exact Hcopies|]. intros r r' (_ & _ & _ & Hat).
    symmetry. eapply Forall2_length. exact Hat.
  - eapply Forall_impl; [exact Hnew|]. intros q [_ Hq]. exact Hq.
  - intros q' Hq'. apply (proj1 (Forall_forall _ _) Hnew) in Hq' as [Hnone _].
    split; [exact Hnone|]. intros Hin.
    apply (proj1 (Forall_forall _ _) Hp) in Hin as [c Hc]. congruence.
Qed.

Lemma CopyProtein_deep_copy_witness :
  exists p' m',
    CopyProtein single_protein single_heap = Some (p', m')
    /\ NoDup (protein_atoms p').
Proof.
  destruct (CopyProtein_deep_copy single_protein single_heap)
    as (p' & m' & Hrun & _ & _ & Hnd & _).
  - repeat constructor; eexists; reflexivity.
  - exists p', m'. split; assumption.
Defined.

(** X20: the trial structure of the minimizer.  Copying a protein and
    running [SteepestDescent] on the copy leaves every atom that existed
    before as it was, and gives, atom by atom, the original moved by
    [h / sqrt 3] along each axis, with the copied mass, force, velocity,
    acceleration and element, and with index 0 and charge 0. *)
Theorem trial_structure (currentProtein : Protein) (h : R) (m : heap) :
  allocated m currentProtein ->
  exists tempProtein m1 m2,
    CopyProtein currentProtein m = Some (tempProtein, m1)
    /\ SteepestDescent tempProtein h m1 = Some (tempProtein, m2)
    /\ m ⊆ m2
    /\ Forall2 (fun q q' =>
                  exists a c,
                    m !! q = Some a /\ m2 !! q' = Some (moved h c) /\ is_copy a c)
         (protein_atoms currentProtein) (protein_atoms tempProtein).
Proof.
  intros Hp.
  destruct (CopyProtein_atoms currentProtein m Hp)
    as (p' & m1 & Hrun & Hsub & Hcopies & Hnd & Hnew).
  assert (Hp' : allocated m1 p').
  { eapply Forall_impl; [exact Hnew|]. intros q [_ Hq]. exact Hq. }
  exists p', m1, (update_protein (fun _ => moved h) (Protein_Residue p') m1).
  split; [exact Hrun|]. split; [apply SteepestDescent_update; exact Hp'|]. split.
  - apply map_subseteq_spec. intros q a Hq.
    rewrite lookup_update_protein_notin; [eapply lookup_weaken; eassumption|].
    intros Hin. apply (proj1 (Forall_forall _ _) Hnew) in Hin as [Hnone _].
    congruence.
  - assert (Hgen : forall l l',
               Forall2 (copy_at m m1) l l' ->
               Forall (fun q' => q' ∈ protein_atoms p') l' ->
               Forall2 (fun q q' =>
                          exists a c,
                            m !! q = Some a
                            /\ update_protein (fun _ => moved h) (Protein_Residue p') m1
                                 !! q' = Some (moved h c)
                            /\ is_copy a c) l l').
    { intros l l' Hc. induction Hc as [|q q' l l' (a & c & Ha & Hc & Hcopy) Hrest IH];
        intros Hin; [constructor|].
      apply Forall_cons in Hin as [Hq' Hin]. constructor; [|apply IH; exact Hin].
      exists a, c. split; [exact Ha|]. split; [|exact Hcopy].
      destruct (lookup_update_protein_atoms (fun _ => moved h) p' m1 q' c Hnd Hq' Hc)
        as (r & _ & Hlook).
      exact Hlook. }
    apply Hgen; [exact Hcopies|]. apply Forall_forall. intros q' H. exact H.
Qed.

Lemma trial_structure_witness :
  exists tempProtein m1 m2,
    CopyProtein single_protein single_heap = Some (tempProtein, m1)
    /\ SteepestDescent tempProtein 0.01 m1 = Some (tempProtein, m2)
    /\ single_heap ⊆ m2.
Proof.
  destruct (trial_structure single_protein 0.01 single_heap)
    as (p' & m1 & m2 & Hrun & Hsd & Hsub & _).
  - repeat constructor; eexists; reflexivity.
  - exists p', m1, m2. split; [exact Hrun|]. split; assumption.
Defined.

Lemma copy_atoms_zero_index (m m' : heap) (l l' : list loc) :
  Forall2 (copy_at m m') l l' ->
  Forall (holds (fun a => index a = 0%Z /\ charge a = 0) m') l'.
Proof.
  induction 1 as [|q q' l l' (c & c' & _ & Hc' & Hcopy) _ IH]; constructor;
    [|exact IH].
  exists c'. split; [exact Hc'|].
  destruct Hcopy as (_ & _ & _ & _ & _ & _ & Hidx & Hch). split; assumption.
Qed.

Lemma holds_update_protein (P : Atom -> Prop) (F : Residue -> Atom -> Atom)
    (rs : list Residue) :
  (forall r a, P a -> P (F r a)) ->
  forall (m : heap) (q : loc), holds P m q -> holds P (update_protein F rs m) q.
Proof.
  intros HF. unfold update_protein.
  induction rs as [|r rs IH]; intros m q Hq; [exact Hq|].
  cbn [foldl]. apply IH, holds_update_atoms; [apply HF | exact Hq].
Qed.

(** ** The minimizer with any energy evaluator *)

Section MinimizerFrame.
Variable TotalEnergy : Protein -> heap -> R.

Lemma minimize_body_frame (currentProtein : Protein) (h : R) (m : heap) :
  allocated m currentProtein ->
  exists p' h' m',
    minimize_body TotalEnergy (currentProtein, h) m = Some ((p', h'), m')
    /\ m ⊆ m' /\ allocated m' p'
    /\ (p' = currentProtein \/ trial_atoms m m' p').
Proof.
  intros Hp. rewrite minimize_body_spec_iteration. unfold spec_iteration.
  cbn [fst snd].
  destruct (CopyProtein_atoms currentProtein m Hp)
    as (trial & m1 & Hcp & Hsub1 & Hcopies & _ & Hnew).
  assert (Hp1 : allocated m1 trial).
  { eapply Forall_impl; [exact Hnew|]. intros q [_ Hq]. exact Hq. }
  rewrite Hcp, (SteepestDescent_update trial h m1 Hp1).
  set (m2 := update_protein (fun _ => moved h) (Protein_Residue trial) m1).
  assert (Hsub : m ⊆ m2).
  { apply map_subseteq_spec. intros q a Hq. unfold m2.
    rewrite lookup_update_protein_notin; [eapply lookup_weaken; eassumption|].
    intros Hin. apply (proj1 (Forall_forall _ _) Hnew) in Hin as [Hnone _].
    congruence. }
  assert (Htrial : trial_atoms m m2 trial).
  { pose proof (copy_atoms_zero_index m m1 _ _ Hcopies) as Hzero.
    apply Forall_forall. intros q Hq. split.
    - apply (proj1 (Forall_forall _ _) Hnew q Hq).
    - apply holds_update_protein; [intros _ a Ha; exact Ha|].
      exact (proj1 (Forall_forall _ _) Hzero q Hq). }
  assert (Halloc : allocated m2 trial).
  { eapply Forall_impl; [exact Htrial|]. intros q [_ (a & Ha & _)]. exists a. exact Ha. }
  destruct (Rlt_dec _ _).
  - exists trial, (1.2 * h), m2. split; [reflexivity|]. split; [exact Hsub|].
    split; [exact Halloc|]. right. exact Htrial.
  - exists currentProtein, (0.2 * h ^ 2), m2. split; [reflexivity|].
    split; [exact Hsub|]. split; [eapply allocated_weaken; eassumption|].
    left. reflexivity.
Qed.

Lemma iterate_minimize_frame (n : nat) (p0 : Protein) (m0 : heap) :
  forall (currentProtein : Protein) (h : R) (m : heap),
    m0 ⊆ m -> allocated m currentProtein ->
    currentProtein = p0 \/ trial_atoms m0 m currentProtein ->
    exists p' h' m',
      iterate n (minimize_body TotalEnergy) (currentProtein, h) m
      = Some ((p', h'), m')
      /\ m0 ⊆ m' /\ allocated m' p'
      /\ (p' = p0 \/ trial_atoms m0 m' p').
Proof.
  induction n as [|n IH]; intros currentProtein h m Hsub Hp Hinv.
  - exists currentProtein, h, m. split; [reflexivity|]. split; [exact Hsub|].
    split; assumption.
  - destruct (minimize_body_frame currentProtein h m Hp)
      as (p1 & h1 & m1 & Hrun & Hsub1 & Hp1 & Hinv1).
    destruct (IH p1 h1 m1) as (p' & h' & m' & Hrun' & Hsub' & Hp' & Hinv').
    + etransitivity; eassumption.
    + exact Hp1.
    + destruct Hinv1 as [->|Htrial].
      * destruct Hinv as [->|Htrial]; [left; reflexivity|]. right.
        eapply Forall_impl; [exact Htrial|]. intros q [Hnone (a & Ha & Hz)].
        split; [exact Hnone|]. exists a. split; [|exact Hz].
        eapply lookup_weaken; eassumption.
      * right. eapply Forall_impl; [exact Htrial|]. intros q [Hnone Hz].
        split; [|exact Hz]. eapply lookup_None_weaken; eassumption.
    + exists p', h', m'. split; [|split; [exact Hsub'|split; assumption]].
      cbn [iterate]. rewrite M_bind_unfold, Hrun. exact Hrun'.
Qed.

End MinimizerFrame.

(** X21: whatever the energy evaluator, the minimizer never changes an atom
    that existed before the call.  On a protein without nil atoms it returns
    either the protein it was given or a structure made of new atoms only,
    and in that case every atom of the result has index 0 and charge 0. *)
Theorem PerformEnergyMinimization_with_frame (TotalEnergy : Protein -> heap -> R)
    (currentProtein : Protein) (m : heap) :
  allocated m currentProtein ->
  exists p' m',
    PerformEnergyMinimization_with TotalEnergy currentProtein m = Some (p', m')
    /\ m ⊆ m'
    /\ allocated m' p'
    /\ (p' = currentProtein
        \/ forall q, q ∈ protein_atoms p' ->
             m !! q = None
             /\ exists a, m' !! q = Some a /\ index a = 0%Z /\ charge a = 0).
Proof.
  intros Hp. rewrite PerformEnergyMinimization_with_iterate.
  destruct (iterate_minimize_frame TotalEnergy 100 currentProtein m
              currentProtein 0.01 m)
    as (p' & h' & m' & -> & Hsub & Hp' & Hinv);
    [reflexivity | exact Hp | left; reflexivity |].
  exists p', m'. split; [reflexivity|]. split; [exact Hsub|]. split; [exact Hp'|].
  destruct Hinv as [->|Htrial]; [left; reflexivity|]. right.
  intros q Hq. apply (proj1 (Forall_forall _ _) Htrial) in Hq as [Hnone (a & Ha & Hz)].
  split; [exact Hnone|]. exists a. split; [exact Ha | exact Hz].
Qed.

Lemma PerformEnergyMinimization_with_frame_witness :
  exists p' m',
    PerformEnergyMinimization_with (fun _ _ => 0) single_protein single_heap
    = Some (p', m')
    /\ single_heap ⊆ m'.
Proof.
  destruct (PerformEnergyMinimization_with_frame (fun _ _ => 0) single_protein single_heap)
    as (p' & m' & Hrun & Hsub & _).
  - repeat constructor; eexists; reflexivity.
  - exists p', m'. split; assumption.
Defined.

(** ** The non-bonded pass *)

Section UnbondedPassProperties.
Variables epsilon verletCutOff verletBuffer : R.
Variable parameterDatabase : Type.
Variable SearchParameter : Z -> parameterDatabase -> Atom -> Atom -> list R.

Abbreviation visit := (unbonded_visit epsilon parameterDatabase SearchParameter).
Abbreviation pass_atom := (unbonded_atom epsilon parameterDatabase SearchParameter).
Abbreviation pass :=
  (CalculateTotalUnbondedEnergyForce epsilon verletCutOff verletBuffer
     parameterDatabase SearchParameter).

Lemma force_accumulate_present (i : Z) (f t : TriTuple) (fm : gmap Z TriTuple) :
  fm !! i = Some t ->
  exists t', force_accumulate i f (<[i := t]> fm) = Some (<[i := t']> fm).
Proof.
  intros _. unfold force_accumulate. rewrite lookup_insert_eq, insert_insert_eq.
  eexists. reflexivity.
Qed.

Lemma force_accumulate_insert (i : Z) (f t : TriTuple) (fm : gmap Z TriTuple) :
  exists t', force_accumulate i f (<[i := t]> fm) = Some (<[i := t']> fm).
Proof.
  unfold force_accumulate. rewrite lookup_insert_eq, insert_insert_eq.
  eexists. reflexivity.
Qed.

Lemma electric_energy_nonneg (a1 a2 : Atom) (r : R) :
  0 < epsilon -> 0 < r -> 0 <= CalculateElectricPotentialEnergy epsilon a1 a2 r.
Proof.
  intros He Hr. unfold CalculateElectricPotentialEnergy. cbv zeta.
  assert (Hden : 0 < 4 * PI * epsilon * r).
  { assert (HPI : 0 < PI) by apply PI_RGT_0.
    apply Rmult_lt_0_compat; [|exact Hr].
    apply Rmult_lt_0_compat; [|exact He].
    apply Rmult_lt_0_compat; [lra | exact HPI]. }
  destruct (Rlt_dec (charge a1 * charge a2) 0) as [Hneg|Hpos].
  - apply Rmult_le_pos; [lra|]. apply Rlt_le, Rinv_0_lt_compat. exact Hden.
  - apply Rmult_le_pos; [lra|]. apply Rlt_le, Rinv_0_lt_compat. exact Hden.
Qed.

Lemma LJ_energy_nonneg (B A r : R) : 0 <= CalculateLJPotentialEnergy B A r.
Proof.
  unfold CalculateLJPotentialEnergy. cbv zeta.
  destruct (Rlt_dec _ _); lra.
Qed.

(** One neighbour: the energy grows by a term that is non-negative for atoms
    at different places, and only the force of [atom1] is touched. *)
Lemma unbonded_visit_step (m : heap) (db : parameterDatabase) (atom1 atom2 : loc)
    (a1 a2 : Atom) (E : R) (t : TriTuple) (fm : gmap Z TriTuple) :
  m !! atom1 = Some a1 -> m !! atom2 = Some a2 ->
  exists e t',
    visit m db atom1 (E, <[index a1 := t]> fm) atom2
    = Some (E + e, <[index a1 := t']> fm)
    /\ (0 < epsilon -> position a1 <> position a2 -> 0 <= e).
Proof.
  intros H1 H2. unfold unbonded_visit. rewrite H1, H2. cbn [mbind option_bind].
  set (r := Distance (position a1) (position a2)).
  assert (Hstep1 : exists e1 t1,
             match SearchParameter 2 db a1 a2 with
             | [p0; p1] =>
                 forceMap' ← force_accumulate (index a1) (CalculateLJForce a1 a2 p0 p1 r)
                               (<[index a1 := t]> fm);
                 Some (E + CalculateLJPotentialEnergy p0 p1 r, forceMap')
             | _ => Some (E, <[index a1 := t]> fm)
             end = Some (E + e1, <[index a1 := t1]> fm) /\ 0 <= e1).
  { destruct (SearchParameter 2 db a1 a2) as [|p0 [|p1 [|p2 l]]].
    - exists 0, t. rewrite Rplus_0_r. split; [reflexivity | lra].
    - exists 0, t. rewrite Rplus_0_r. split; [reflexivity | lra].
    - destruct (force_accumulate_insert (index a1) (CalculateLJForce a1 a2 p0 p1 r) t fm)
        as [t1 ->].
      exists (CalculateLJPotentialEnergy p0 p1 r), t1.
      split; [reflexivity | apply LJ_energy_nonneg].
    - exists 0, t. rewrite Rplus_0_r. split; [reflexivity | lra]. }
  destruct Hstep1 as (e1 & t1 & -> & He1). cbn [mbind option_bind].
  destruct (Req_dec_T (charge a1) 0.0) as [Hq1|Hq1].
  { exists e1, t1. split; [reflexivity|]. intros _ _. exact He1. }
  destruct (Req_dec_T (charge a2) 0.0) as [Hq2|Hq2].
  { exists e1, t1. split; [reflexivity|]. intros _ _. exact He1. }
  destruct (force_accumulate_insert (index a1) (CalculateElectricForce epsilon a1 a2 r)
              t1 fm) as [t2 ->].
  cbn [mbind option_bind].
  exists (e1 + CalculateElectricPotentialEnergy epsilon a1 a2 r), t2. split.
  - do 2 f_equal. ring.
  - intros He Hne.
    pose proof (electric_energy_nonneg a1 a2 r He (Distance_pos_neq _ _ Hne)). lra.
Qed.

Lemma unbonded_neighbors (m : heap) (db : parameterDatabase) (atom1 : loc)
    (a1 : Atom) (fm : gmap Z TriTuple) (ns : list loc) :
  m !! atom1 = Some a1 ->
  Forall (fun q => is_Some (m !! q)) ns ->
  forall (E : R) (t : TriTuple),
  exists e t',
    foldM (visit m db atom1) (E, <[index a1 := t]> fm) ns
    = Some (E + e, <[index a1 := t']> fm)
    /\ (0 < epsilon ->
        Forall (fun q => forall a2, m !! q = Some a2 -> position a1 <> position a2) ns ->
        0 <= e)
    /\ (ns = [] -> e = 0 /\ t' = t).
Proof.
  intros H1 Hns. induction Hns as [|q ns [a2 H2] Hns IH]; intros E t.
  - exists 0, t. rewrite Rplus_0_r. split; [reflexivity|].
    split; [intros; lra | intros _; split; reflexivity].
  - destruct (unbonded_visit_step m db atom1 q a1 a2 E t fm H1 H2)
      as (e1 & t1 & Hrun1 & He1).
    destruct (IH (E + e1) t1) as (e2 & t2 & Hrun2 & He2 & _).
    exists (e1 + e2), t2. split; [|split].
    + cbn [foldM]. rewrite Hrun1, Hrun2. do 2 f_equal. ring.
    + intros He Hsep. apply Forall_cons in Hsep as [Hq Hsep].
      pose proof (He1 He (Hq a2 H2)). pose proof (He2 He Hsep). lra.
    + discriminate.
Qed.

(** The atoms of a list, one after the other: the energy grows by a
    non-negative amount and the force map gains the indices of the atoms. *)
Lemma unbonded_atoms (m : heap) (db : parameterDatabase) (v : VerletList)
    (p : Protein) (l : list loc) :
  Forall (fun q => is_Some (m !! q)) l ->
  (forall q, q ∈ l ->
     exists ns, Neighbors v !! q = Some ns
       /\ Forall (fun o => is_Some (m !! o)) ns
       /\ (separated m p -> q ∈ protein_atoms p ->
           forall a1, m !! q = Some a1 ->
             Forall (fun o => forall a2, m !! o = Some a2 ->
                                position a1 <> position a2) ns)) ->
  forall (E : R) (fm : gmap Z TriTuple),
  exists e fm',
    foldM (pass_atom m db v) (E, fm) l = Some (E + e, fm')
    /\ (0 < epsilon -> separated m p -> Forall (fun q => q ∈ protein_atoms p) l ->
        0 <= e)
    /\ (forall i, is_Some (fm' !! i)
                  <-> is_Some (fm !! i)
                      \/ exists q a, q ∈ l /\ m !! q = Some a /\ index a = i)
    /\ ((forall q, q ∈ l -> Neighbors v !! q = Some []) ->
        e = 0
        /\ forall i t, fm' !! i = Some t -> fm !! i = Some t \/ t = zero_force).
Proof.
  intros Hl. induction Hl as [|q l [a1 H1] Hl IH]; intros Hnb E fm.
  - exists 0, fm. rewrite Rplus_0_r. split; [reflexivity|]. split; [intros; lra|].
    split.
    + intros i. split; [intros H; left; exact H|].
      intros [H|(q & a & Hq & _)]; [exact H | inversion Hq].
    + intros _. split; [reflexivity|]. intros i t H. left. exact H.
  - destruct (Hnb q) as (ns & Hns & Hnsalloc & Hnssep);
      [apply elem_of_cons; left; reflexivity|].
    destruct (unbonded_neighbors m db q a1 fm ns H1 Hnsalloc E zero_force)
      as (e1 & t1 & Hrun1 & He1 & Hnil1).
    destruct (IH (fun q0 Hq0 => Hnb q0 (proj2 (elem_of_cons _ _ _) (or_intror Hq0)))
                (E + e1) (<[index a1 := t1]> fm))
      as (e2 & fm' & Hrun2 & He2 & Hkeys & Hnil2).
    exists (e1 + e2), fm'. split; [|split; [|split]].
    + cbn [foldM]. unfold unbonded_atom at 1. rewrite H1. cbn [mbind option_bind].
      rewrite Hns. fold zero_force. rewrite Hrun1, Hrun2. do 2 f_equal. ring.
    + intros He Hsep Hin. apply Forall_cons in Hin as [Hq Hin].
      pose proof (He1 He (Hnssep Hsep Hq a1 H1)). pose proof (He2 He Hsep Hin). lra.
    + intros i. rewrite Hkeys. split.
      * intros [H|(q0 & a0 & Hq0 & Ha0 & Hi)].
        -- destruct (decide (index a1 = i)) as [<-|Hne].
           ++ right. exists q, a1. split; [apply elem_of_cons; left; reflexivity|].
              split; [exact H1 | reflexivity].
           ++ left. rewrite lookup_insert_ne in H by exact Hne. exact H.
        -- right. exists q0, a0. split; [apply elem_of_cons; right; exact Hq0|].
           split; assumption.
      * intros [H|(q0 & a0 & Hq0 & Ha0 & Hi)].
        -- left. destruct (decide (index a1 = i)) as [<-|Hne].
           ++ rewrite lookup_insert_eq. eexists; reflexivity.
           ++ rewrite lookup_insert_ne by exact Hne. exact H.
        -- apply elem_of_cons in Hq0 as [->|Hq0].
           ++ left. rewrite H1 in Ha0. injection Ha0 as <-. rewrite <- Hi.
              rewrite lookup_insert_eq. eexists; reflexivity.
           ++ right. exists q0, a0. split; [exact Hq0|]. split; assumption.
    + intros Hempty.
      assert (Hnsnil : ns = []).
      { pose proof (Hempty q (proj2 (elem_of_cons _ _ _) (or_introl eq_refl))) as H.
        rewrite Hns in H. injection H as ->. reflexivity. }
      destruct (Hnil1 Hnsnil) as [-> ->].
      destruct Hnil2 as [-> Hz].
      { intros q0 Hq0. apply Hempty. apply elem_of_cons. right. exact Hq0. }
      split; [ring|]. intros i t Hi. destruct (Hz i t Hi) as [H|H]; [|right; exact H].
      destruct (decide (index a1 = i)) as [<-|Hne].
      * rewrite lookup_insert_eq in H. injection H as <-. right. reflexivity.
      * rewrite lookup_insert_ne in H by exact Hne. left. exact H.
Qed.

Lemma index_excluded_zero (a o : Atom) :
  index a = 0%Z -> index o = 0%Z -> index_excluded a o = true.
Proof. intros Ha Ho. unfold index_excluded. rewrite Ha, Ho. reflexivity. Qed.

Lemma filter_is_neighbor_zero_index (m : heap) (bound : R) (atom : loc) (l : list loc) :
  holds (fun a => index a = 0%Z /\ charge a = 0) m atom ->
  Forall (holds (fun a => index a = 0%Z /\ charge a = 0) m) l ->
  filter (fun o => is_neighbor m bound atom o) l = [].
Proof.
  intros (a & Ha & Hia & _) Hl. induction Hl as [|o l (c & Hc & Hic & _) _ IH];
    [reflexivity|].
  rewrite filter_cons, IH.
  assert (E : is_neighbor m bound atom o = false).
  { unfold is_neighbor. rewrite Ha, Hc, (index_excluded_zero a c Hia Hic).
    cbn [negb]. rewrite andb_false_r. reflexivity. }
  rewrite E. rewrite decide_False by (intros H; exact H). reflexivity.
Qed.

(** X22: on a protein without nil atoms the non-bonded pass returns; its
    force map has an entry for the index of every atom of the protein and
    for nothing else (atoms that share an index share one entry); and with a
    positive permittivity and no two different atoms at one place the total
    energy is non-negative. *)
Theorem CalculateTotalUnbondedEnergyForce_spec (m : heap) (p : Protein)
    (nonbondedParameter : parameterDatabase) :
  allocated m p ->
  exists totalEnergy forceMap,
    pass m p nonbondedParameter = Some (totalEnergy, forceMap)
    /\ (forall i, is_Some (forceMap !! i)
                  <-> exists q a, q ∈ protein_atoms p /\ m !! q = Some a /\ index a = i)
    /\ (0 < epsilon -> separated m p -> 0 <= totalEnergy).
Proof.
  intros Hp. unfold CalculateTotalUnbondedEnergyForce. cbv zeta.
  destruct (BuildVerlet_spec m (NewVerletList verletCutOff verletBuffer) p Hp)
    as (v' & -> & _ & _ & Hlook). cbn [mbind option_bind].
  rewrite (foldM_nested Atoms (pass_atom m nonbondedParameter v')).
  fold (protein_atoms p).
  destruct (unbonded_atoms m nonbondedParameter v' p (protein_atoms p) Hp)
    with (E := 0.0) (fm := (∅ : gmap Z TriTuple))
    as (e & fm' & Hrun & He & Hkeys & _).
  { intros q Hq. rewrite Hlook, decide_True by exact Hq. eexists. split; [reflexivity|].
    split.
    - apply Forall_forall. intros o Ho. apply list_elem_of_filter in Ho as [_ Ho].
      exact (proj1 (Forall_forall _ _) Hp o Ho).
    - intros Hsep _ a1 Ha1. apply Forall_forall. intros o Ho a2 Ha2.
      apply list_elem_of_filter in Ho as [Hn Ho].
      apply Is_true_true_1, is_neighbor_true in Hn as [Hne _].
      exact (Hsep q o a1 a2 Hq Ho Hne Ha1 Ha2). }
  exists (0.0 + e), fm'. split; [exact Hrun|]. split.
  - intros i. rewrite Hkeys. split.
    + intros [[t Ht]|H]; [rewrite lookup_empty in Ht; discriminate | exact H].
    + intros H. right. exact H.
  - intros Hpos Hsep.
    assert (0 <= e).
    { apply He; [exact Hpos | exact Hsep|]. apply Forall_forall. intros q H. exact H. }
    lra.
Qed.

(** X23: a copy made by [CopyProtein] has no non-bonded interactions.  All
    its atoms carry index 0, so [BuildVerlet] excludes every pair, whatever
    the cut-off and the distances: every neighbour list of the copy is
    empty, and the non-bonded pass on the copy returns energy 0 and no force
    other than zero. *)
Theorem copy_has_no_neighbors (m : heap) (p : Protein)
    (nonbondedParameter : parameterDatabase) :
  allocated m p ->
  exists p' m',
    CopyProtein p m = Some (p', m')
    /\ (forall v, exists v',
          BuildVerlet m' v p' = Some v'
          /\ forall atom ns, Neighbors v' !! atom = Some ns -> ns = [])
    /\ exists forceMap,
        pass m' p' nonbondedParameter = Some (0, forceMap)
        /\ forall i t, forceMap !! i = Some t -> i = 0%Z /\ t = zero_force.
Proof.
  intros Hp.
  destruct (CopyProtein_spec p m Hp) as (p' & m' & Hrun & _ & _ & Hcopies & Hnew).
  assert (Hp' : allocated m' p').
  { eapply Forall_impl; [exact Hnew|]. intros q [_ Hq]. exact Hq. }
  assert (Hzero : Forall (holds (fun a => index a = 0%Z /\ charge a = 0) m')
                    (protein_atoms p')).
  { apply (copy_atoms_zero_index m m' (protein_atoms p)). unfold protein_atoms.
    apply (Forall2_concat_atoms _ (residue_copy_at m m')); [|exact Hcopies].
    intros r r' (_ & _ & _ & Hat). exact Hat. }
  assert (Hempty : forall v v', BuildVerlet m' v p' = Some v' ->
                     forall atom ns, Neighbors v' !! atom = Some ns -> ns = []).
  { intros v v' Hv' atom ns Hns.
    destruct (BuildVerlet_spec m' v p' Hp') as (w & Hw & _ & _ & Hlook).
    rewrite Hv' in Hw. injection Hw as <-. rewrite Hlook in Hns.
    destruct (decide (atom ∈ protein_atoms p')) as [Hin|]; [|discriminate].
    injection Hns as <-. apply filter_is_neighbor_zero_index; [|exact Hzero].
    exact (proj1 (Forall_forall _ _) Hzero atom Hin). }
  exists p', m'. split; [exact Hrun|]. split.
  - intros v. destruct (BuildVerlet_spec m' v p' Hp') as (v' & Hv' & _).
    exists v'. split; [exact Hv'|]. exact (Hempty v v' Hv').
  - unfold CalculateTotalUnbondedEnergyForce. cbv zeta.
    destruct (BuildVerlet_spec m' (NewVerletList verletCutOff verletBuffer) p' Hp')
      as (v' & Hv' & _ & _ & Hlook). rewrite Hv'. cbn [mbind option_bind].
    rewrite (foldM_nested Atoms (pass_atom m' nonbondedParameter v')).
    fold (protein_atoms p').
    destruct (unbonded_atoms m' nonbondedParameter v' p' (protein_atoms p') Hp')
      with (E := 0.0) (fm := (∅ : gmap Z TriTuple))
      as (e & fm' & Hrun' & _ & Hkeys & Hnil).
    { intros q Hq. rewrite Hlook, decide_True by exact Hq.
      rewrite filter_is_neighbor_zero_index;
        [|exact (proj1 (Forall_forall _ _) Hzero q Hq) | exact Hzero].
      exists []. split; [reflexivity|]. split; [constructor|]. intros; constructor. }
    destruct Hnil as [-> Hz].
    { intros q Hq. rewrite Hlook, decide_True by exact Hq.
      rewrite filter_is_neighbor_zero_index;
        [reflexivity | exact (proj1 (Forall_forall _ _) Hzero q Hq) | exact Hzero]. }
    exists fm'. split.
    + rewrite Hrun'. do 2 f_equal. lra.
    + intros i t Hi. split.
      * assert (His : is_Some (fm' !! i)) by (eexists; exact Hi).
        apply Hkeys in His as [[t0 Ht0]|(q & a & Hq & Ha & <-)];
          [rewrite lookup_empty in Ht0; discriminate|].
        destruct (proj1 (Forall_forall _ _) Hzero q Hq) as (a' & Ha' & Hidx & _).
        rewrite Ha in Ha'. injection Ha' as <-. exact Hidx.
      * destruct (Hz i t Hi) as [H|H]; [rewrite lookup_empty in H; discriminate|].
        exact H.
Qed.

End UnbondedPassProperties.

Lemma CalculateTotalUnbondedEnergyForce_spec_witness :
  exists totalEnergy forceMap,
    CalculateTotalUnbondedEnergyForce 1 2 0 unit (fun _ _ _ _ => [])
      charged_heap pair_protein tt
    = Some (totalEnergy, forceMap)
    /\ 0 <= totalEnergy.
Proof.
  destruct (CalculateTotalUnbondedEnergyForce_spec 1 2 0 unit (fun _ _ _ _ => [])
              charged_heap pair_protein tt)
    as (E & fm & Hrun & _ & Hpos).
  - repeat constructor; eexists; reflexivity.
  - exists E, fm. split; [exact Hrun|]. apply Hpos; [lra|].
    intros q q' a a' Hq Hq' Hne Ha Ha'.
    unfold protein_atoms, pair_protein in Hq, Hq'.
    cbn [Protein_Residue fmap list_fmap Atoms concat app] in Hq, Hq'.
    assert (Hcase : forall q0, q0 ∈ [1%positive; 2%positive] ->
                      q0 = 1%positive \/ q0 = 2%positive).
    { intros q0 H. apply elem_of_cons in H as [->|H]; [left; reflexivity|].
      apply elem_of_cons in H as [->|H]; [right; reflexivity | inversion H]. }
    unfold charged_heap in Ha, Ha'.
    destruct (Hcase q Hq) as [->| ->]; destruct (Hcase q' Hq') as [->| ->];
      try contradiction.
    + rewrite lookup_insert_eq in Ha.
      rewrite lookup_insert_ne, lookup_insert_eq in Ha' by discriminate.
      injection Ha as <-. injection Ha' as <-. cbn. intros H.
      apply (f_equal x) in H. cbn in H. lra.
    + rewrite lookup_insert_eq in Ha'.
      rewrite lookup_insert_ne, lookup_insert_eq in Ha by discriminate.
      injection Ha as <-. injection Ha' as <-. cbn. intros H.
      apply (f_equal x) in H. cbn in H. lra.
Defined.

Lemma copy_has_no_neighbors_witness :
  exists p' m',
    CopyProtein pair_protein charged_heap = Some (p', m')
    /\ exists forceMap,
        CalculateTotalUnbondedEnergyForce 1 2 0 unit (fun _ _ _ _ => [])
          m' p' tt
        = Some (0, forceMap).
Proof.
  destruct (copy_has_no_neighbors 1 2 0 unit (fun _ _ _ _ => [])
              charged_heap pair_protein tt)
    as (p' & m' & Hrun & _ & fm & Hpass & _).
  - repeat constructor; eexists; reflexivity.
  - exists p', m'. split; [exact Hrun|]. exists fm. exact Hpass.
Defined.

(** ** Coulomb force and energy together; translations *)

(** X24: at a positive distance [r] between the two atoms, and with a
    positive permittivity, the Coulomb force is the Coulomb energy divided by
    [r] times the unit vector from the first atom toward the second; since
    the energy is non-negative, the force on the first atom points toward
    the second for like and for unlike charges alike. *)
Theorem CalculateElectricForce_energy (epsilon : R) (a1 a2 : Atom) (r : R) :
  0 < epsilon -> 0 < r -> r = Distance (position a1) (position a2) ->
  CalculateElectricForce epsilon a1 a2 r
    = Tri_scale (CalculateElectricPotentialEnergy epsilon a1 a2 r / r)
        (Tri_unit (displacement a1 a2))
  /\ magnitude (CalculateElectricForce epsilon a1 a2 r)
     = CalculateElectricPotentialEnergy epsilon a1 a2 r / r.
Proof.
  intros He Hr Hd.
  assert (Hm : magnitude (displacement a1 a2) = r)
    by (rewrite <- Distance_magnitude; congruence).
  assert (HPI : 0 < PI) by apply PI_RGT_0.
  assert (E : CalculateElectricForce epsilon a1 a2 r
              = Tri_scale (CalculateElectricPotentialEnergy epsilon a1 a2 r / r)
                  (Tri_unit (displacement a1 a2))).
  { unfold CalculateElectricForce, CalculateElectricPotentialEnergy, Tri_unit, Tri_scale.
    cbv zeta. rewrite Hm. unfold displacement, Tri_sub. cbn [x y z].
    destruct (Rgt_dec (charge a1 * charge a2) 0) as [Hq|Hq];
      destruct (Rlt_dec (charge a1 * charge a2) 0) as [Hq'|Hq'];
      try (exfalso; unfold Rgt in *; lra);
      try (apply TriTuple_eq; cbn [x y z]; field; repeat split; lra).
    assert (Hz : charge a1 * charge a2 = 0) by (unfold Rgt in *; lra).
    rewrite Hz. apply TriTuple_eq; cbn [x y z]; field; repeat split; lra. }
  split; [exact E|].
  rewrite E, magnitude_Tri_scale, magnitude_Tri_unit by (rewrite Hm; lra).
  rewrite Rabs_right; [ring|]. apply Rle_ge.
  apply Rmult_le_pos; [|apply Rlt_le, Rinv_0_lt_compat; exact Hr].
  unfold CalculateElectricPotentialEnergy. cbv zeta.
  assert (Hden : 0 < 4 * PI * epsilon * r).
  { apply Rmult_lt_0_compat; [|exact Hr].
    apply Rmult_lt_0_compat; [|exact He].
    apply Rmult_lt_0_compat; [lra | exact HPI]. }
  destruct (Rlt_dec (charge a1 * charge a2) 0);
    (apply Rmult_le_pos; [lra | apply Rlt_le, Rinv_0_lt_compat; exact Hden]).
Qed.

Lemma CalculateElectricForce_energy_witness :
  magnitude (CalculateElectricForce 1 charged_atom1 charged_atom2 1)
  = CalculateElectricPotentialEnergy 1 charged_atom1 charged_atom2 1 / 1.
Proof.
  apply (CalculateElectricForce_energy 1 charged_atom1 charged_atom2 1); try lra.
  unfold Distance, charged_atom1, charged_atom2, atom_at. cbn.
  symmetry. apply sqrt_unit_sum. ring.
Defined.

Lemma translate_diff_x (d : TriTuple) (a b : Atom) :
  x (position (translate d a)) - x (position (translate d b))
  = x (position a) - x (position b).
Proof. unfold translate, set_position, Tri_add; cbn [position x]. ring. Qed.

Lemma translate_diff_y (d : TriTuple) (a b : Atom) :
  y (position (translate d a)) - y (position (translate d b))
  = y (position a) - y (position b).
Proof. unfold translate, set_position, Tri_add; cbn [position y]. ring. Qed.

Lemma translate_diff_z (d : TriTuple) (a b : Atom) :
  z (position (translate d a)) - z (position (translate d b))
  = z (position a) - z (position b).
Proof. unfold translate, set_position, Tri_add; cbn [position z]. ring. Qed.

Lemma translate_charge (d : TriTuple) (a : Atom) : charge (translate d a) = charge a.
Proof. reflexivity. Qed.

Ltac translate_away :=
  rewrite ?translate_diff_x, ?translate_diff_y, ?translate_diff_z, ?translate_charge.

(** X25: distances, angles and forces depend on relative positions only:
    shifting all the atoms involved by one and the same vector changes none
    of [Distance], [CalculateAngle], [CalculateDihedralAngle],
    [CalculateBondForce], [CalculateAngleForce],
    [CalculateProperDihedralsForce], [CalculateLJForce] and
    [CalculateElectricForce]. *)
Theorem translation_invariance (d : TriTuple) (a1 a2 a3 a4 : Atom) :
  Distance (position (translate d a1)) (position (translate d a2))
    = Distance (position a1) (position a2)
  /\ CalculateAngle (translate d a1) (translate d a2) (translate d a3)
     = CalculateAngle a1 a2 a3
  /\ (forall Atan2,
        CalculateDihedralAngle Atan2 (translate d a1) (translate d a2)
          (translate d a3) (translate d a4)
        = CalculateDihedralAngle Atan2 a1 a2 a3 a4)
  /\ (forall k r r_0,
        CalculateBondForce k r r_0 (translate d a1) (translate d a2)
        = CalculateBondForce k r r_0 a1 a2)
  /\ (forall k theta theta_0,
        CalculateAngleForce k theta theta_0 (translate d a1) (translate d a2)
          (translate d a3)
        = CalculateAngleForce k theta theta_0 a1 a2 a3)
  /\ (forall kd phi pn phase,
        CalculateProperDihedralsForce kd phi pn phase (translate d a1)
          (translate d a2) (translate d a3) (translate d a4)
        = CalculateProperDihedralsForce kd phi pn phase a1 a2 a3 a4)
  /\ (forall B A r,
        CalculateLJForce (translate d a1) (translate d a2) B A r
        = CalculateLJForce a1 a2 B A r)
  /\ (forall epsilon r,
        CalculateElectricForce epsilon (translate d a1) (translate d a2) r
        = CalculateElectricForce epsilon a1 a2 r).
Proof.
  assert (HD : forall a b,
             Distance (position (translate d a)) (position (translate d b))
             = Distance (position a) (position b)).
  { intros a b. unfold Distance. cbv zeta. translate_away. reflexivity. }
  assert (HV : forall a b,
             CalculateVector (translate d a) (translate d b) = CalculateVector a b).
  { intros a b. unfold CalculateVector. translate_away. reflexivity. }
  split; [apply HD|]. split; [|split; [|split; [|split; [|split; [|split]]]]].
  - unfold CalculateAngle. cbv zeta. rewrite !HV, !HD. reflexivity.
  - intros Atan2. unfold CalculateDihedralAngle. cbv zeta. rewrite !HV. reflexivity.
  - intros k r r_0. unfold CalculateBondForce. cbv zeta. rewrite HD.
    translate_away. reflexivity.
  - intros k theta theta_0.
    unfold CalculateAngleForce, DerivateAnglePositionX, DerivateAnglePositionY,
      DerivateAnglePositionZ.
    cbv zeta. rewrite !HD. translate_away. reflexivity.
  - intros kd phi pn phase. unfold CalculateProperDihedralsForce. cbv zeta.
    rewrite !HV. reflexivity.
  - intros B A r. unfold CalculateLJForce. cbv zeta. translate_away. reflexivity.
  - intros epsilon r. unfold CalculateElectricForce. cbv zeta. translate_away.
    reflexivity.
Qed.

(** * The angle force with the special values of [float64] *)

(** ** NaN is absorbing *)

Lemma F64_add_NaN_r (a : F64.float64) : F64.add a F64.NaN = F64.NaN.
Proof. destruct a; reflexivity. Qed.

Lemma F64_sub_NaN_l (a : F64.float64) : F64.sub F64.NaN a = F64.NaN.
Proof. reflexivity. Qed.

Lemma F64_sub_NaN_r (a : F64.float64) : F64.sub a F64.NaN = F64.NaN.
Proof. unfold F64.sub. cbn [F64.neg]. apply F64_add_NaN_r. Qed.

Lemma F64_mul_NaN_r (a : F64.float64) : F64.mul a F64.NaN = F64.NaN.
Proof. destruct a; reflexivity. Qed.

(** ** An atom against itself *)

Lemma F64_is_zero_0 : F64.is_zero (F64.Fin 0) = true.
Proof. unfold F64.is_zero. destruct (Req_dec_T 0 0); [reflexivity | contradiction]. Qed.

Lemma F64_signbit_0 : F64.signbit (F64.Fin 0) = false.
Proof. unfold F64.signbit. destruct (Rlt_dec 0 0); [lra | reflexivity]. Qed.

(** A coordinate minus itself is the positive zero, or NaN when the
    coordinate is not finite. *)
Lemma F64_sub_self (a : F64.float64) :
  F64.sub a a = F64.Fin 0 \/ F64.sub a a = F64.NaN.
Proof.
  destruct a as [r| |s|]; unfold F64.sub; cbn [F64.neg].
  - destruct (Req_dec_T r 0) as [->|Hr]; cbn [F64.add]; left; [reflexivity|].
    f_equal. ring.
  - left. reflexivity.
  - right. destruct s; reflexivity.
  - right. reflexivity.
Qed.

Lemma F64_mul_zero_or_NaN (a b : F64.float64) :
  a = F64.Fin 0 \/ a = F64.NaN -> b = F64.Fin 0 \/ b = F64.NaN ->
  F64.mul a b = F64.Fin 0 \/ F64.mul a b = F64.NaN.
Proof.
  intros [->| ->] [->| ->]; try (right; reflexivity).
  left. unfold F64.mul. rewrite F64_is_zero_0, F64_signbit_0. reflexivity.
Qed.

Lemma F64_add_zero_or_NaN (a b : F64.float64) :
  a = F64.Fin 0 \/ a = F64.NaN -> b = F64.Fin 0 \/ b = F64.NaN ->
  F64.add a b = F64.Fin 0 \/ F64.add a b = F64.NaN.
Proof.
  intros [->| ->] [->| ->]; try (right; reflexivity).
  left. cbn [F64.add]. f_equal. ring.
Qed.

Lemma F64_Sqrt_zero_or_NaN (a : F64.float64) :
  a = F64.Fin 0 \/ a = F64.NaN ->
  F64.Sqrt a = F64.Fin 0 \/ F64.Sqrt a = F64.NaN.
Proof.
  intros [->| ->]; [left | right; reflexivity].
  unfold F64.Sqrt. destruct (Rlt_dec 0 0); [lra|]. f_equal. apply sqrt_0.
Qed.

(** The distance of a place from itself is the positive zero, or NaN. *)
Lemma F64_Distance_self (p : F64.TriTuple) :
  F64.Distance p p = F64.Fin 0 \/ F64.Distance p p = F64.NaN.
Proof.
  unfold F64.Distance. cbv zeta.
  apply F64_Sqrt_zero_or_NaN.
  repeat apply F64_add_zero_or_NaN; apply F64_mul_zero_or_NaN; apply F64_sub_self.
Qed.

(** Zero by zero, and anything that involves NaN, is NaN. *)
Lemma F64_div_zero_or_NaN (a b : F64.float64) :
  a = F64.Fin 0 \/ a = F64.NaN -> b = F64.Fin 0 \/ b = F64.NaN ->
  F64.div a b = F64.NaN.
Proof.
  intros [->| ->] [->| ->]; try reflexivity.
  unfold F64.div. rewrite F64_is_zero_0. reflexivity.
Qed.

(** The derivative routines called with the same atom in second and third
    place, whatever the first atom and the angle. *)
Lemma F64_DerivateAnglePositionX_same (atom1 atom2 : F64.Atom) (theta : F64.float64) :
  F64.DerivateAnglePositionX atom1 atom2 atom2 theta = F64.NaN.
Proof.
  unfold F64.DerivateAnglePositionX.
  rewrite (F64_div_zero_or_NaN _ _ (F64_sub_self _) (F64_Distance_self _)).
  rewrite F64_sub_NaN_l. apply F64_mul_NaN_r.
Qed.

Lemma F64_DerivateAnglePositionY_same (atom1 atom2 : F64.Atom) (theta : F64.float64) :
  F64.DerivateAnglePositionY atom1 atom2 atom2 theta = F64.NaN.
Proof.
  unfold F64.DerivateAnglePositionY.
  rewrite (F64_div_zero_or_NaN _ _ (F64_sub_self _) (F64_Distance_self _)).
  rewrite F64_sub_NaN_l. apply F64_mul_NaN_r.
Qed.

Lemma F64_DerivateAnglePositionZ_same (atom1 atom2 : F64.Atom) (theta : F64.float64) :
  F64.DerivateAnglePositionZ atom1 atom2 atom2 theta = F64.NaN.
Proof.
  unfold F64.DerivateAnglePositionZ.
  rewrite (F64_div_zero_or_NaN _ _ (F64_sub_self _) (F64_Distance_self _)).
  rewrite F64_sub_NaN_l. apply F64_mul_NaN_r.
Qed.

(** C10: [CalculateAngleForce] asks for the derivatives of [force_k] with
    [atom2] in the place of both the second and the third atom, so each of
    them holds the quotient of a coordinate of [atom2] minus itself by the
    distance of [atom2] from itself: zero by zero, which is NaN.  For every
    input, then, [force_k] is NaN in each component, so is [force_j], which
    is built from it, and so is the sum of the three forces: the sum is not
    the zero vector. *)
Theorem CalculateAngleForce_net_NaN (k theta theta_0 : F64.float64)
    (atom1 atom2 atom3 : F64.Atom) :
  let '(force_i, force_j, force_k) :=
    F64.CalculateAngleForce k theta theta_0 atom1 atom2 atom3 in
  force_k = F64.NaN_vector
  /\ force_j = F64.NaN_vector
  /\ F64.angle_net_force (force_i, force_j, force_k) = F64.NaN_vector
  /\ F64.is_zero_vector (F64.angle_net_force (force_i, force_j, force_k)) = false.
Proof.
  unfold F64.CalculateAngleForce. cbv zeta.
  rewrite F64_DerivateAnglePositionX_same, F64_DerivateAnglePositionY_same,
    F64_DerivateAnglePositionZ_same.
  rewrite !F64_mul_NaN_r.
  unfold F64.angle_net_force. cbn [F64.x F64.y F64.z].
  rewrite !F64_sub_NaN_r, !F64_add_NaN_r.
  repeat split; reflexivity.
Qed.

(** ** Agreement with the real numbers away from zero denominators *)

Lemma F64_represents_Fin (r : R) : F64.represents (F64.Fin r) r.
Proof. split; reflexivity. Qed.

Lemma F64_represents_neg (a : F64.float64) (r : R) :
  F64.represents a r -> F64.represents (F64.neg a) (- r).
Proof.
  destruct a as [r'| |s|]; intros [Hf <-]; try discriminate; cbn [F64.value F64.neg].
  - destruct (Req_dec_T r' 0) as [->|Hr]; split; cbn [F64.value]; try reflexivity.
    ring.
  - split; cbn [F64.value]; [reflexivity | ring].
Qed.

Lemma F64_represents_add (a b : F64.float64) (r s : R) :
  F64.represents a r -> F64.represents b s -> F64.represents (F64.add a b) (r + s).
Proof.
  destruct a as [r'| |sa|], b as [s'| |sb|]; intros [Ha <-] [Hb <-];
    try discriminate; split; cbn [F64.add F64.value F64.finite];
    try reflexivity; ring.
Qed.

Lemma F64_represents_sub (a b : F64.float64) (r s : R) :
  F64.represents a r -> F64.represents b s -> F64.represents (F64.sub a b) (r - s).
Proof.
  intros Ha Hb. unfold F64.sub, Rminus.
  apply F64_represents_add; [exact Ha | apply F64_represents_neg; exact Hb].
Qed.

Lemma F64_represents_zero (s : bool) : F64.represents (F64.zero s) 0.
Proof. destruct s; split; reflexivity. Qed.

Lemma F64_is_zero_value (a : F64.float64) :
  F64.finite a = true -> (F64.is_zero a = true <-> F64.value a = 0).
Proof.
  destruct a as [r| |s|]; intros Hf; try discriminate; cbn [F64.is_zero F64.value].
  - destruct (Req_dec_T r 0); split; intros H; congruence.
  - split; reflexivity.
Qed.

Lemma F64_represents_mul (a b : F64.float64) (r s : R) :
  F64.represents a r -> F64.represents b s -> F64.represents (F64.mul a b) (r * s).
Proof.
  intros [Ha <-] [Hb <-].
  assert (E : F64.mul a b
              = if F64.is_zero a || F64.is_zero b
                then F64.zero (xorb (F64.signbit a) (F64.signbit b))
                else F64.Fin (F64.value a * F64.value b)).
  { destruct a, b; try discriminate; reflexivity. }
  rewrite E. destruct (F64.is_zero a) eqn:Za; cbn [orb].
  - apply (F64_is_zero_value a Ha) in Za. rewrite Za, Rmult_0_l.
    apply F64_represents_zero.
  - destruct (F64.is_zero b) eqn:Zb.
    + apply (F64_is_zero_value b Hb) in Zb. rewrite Zb, Rmult_0_r.
      apply F64_represents_zero.
    + apply F64_represents_Fin.
Qed.

Lemma F64_represents_div (a b : F64.float64) (r s : R) :
  s <> 0 ->
  F64.represents a r -> F64.represents b s -> F64.represents (F64.div a b) (r / s).
Proof.
  intros Hs [Ha <-] [Hb <-].
  assert (Zb : F64.is_zero b = false).
  { destruct (F64.is_zero b) eqn:Zb; [|reflexivity].
    apply (F64_is_zero_value b Hb) in Zb. contradiction. }
  assert (E : F64.div a b
              = if F64.is_zero a
                then F64.zero (xorb (F64.signbit a) (F64.signbit b))
                else F64.Fin (F64.value a / F64.value b)).
  { destruct a, b; try discriminate; unfold F64.div; rewrite Zb; reflexivity. }
  rewrite E. destruct (F64.is_zero a) eqn:Za.
  - apply (F64_is_zero_value a Ha) in Za. rewrite Za.
    unfold Rdiv. rewrite Rmult_0_l. apply F64_represents_zero.
  - apply F64_represents_Fin.
Qed.

Lemma F64_represents_Sqrt (a : F64.float64) (r : R) :
  0 <= r -> F64.represents a r -> F64.represents (F64.Sqrt a) (sqrt r).
Proof.
  destruct a as [r'| |s|]; intros Hr [Hf <-]; try discriminate;
    cbn [F64.value F64.Sqrt] in *.
  - destruct (Rlt_dec r' 0); [lra|]. apply F64_represents_Fin.
  - split; [reflexivity|]. cbn [F64.value]. symmetry. apply sqrt_0.
Qed.

Lemma F64_represents_Sin (a : F64.float64) (r : R) :
  F64.represents a r -> F64.represents (F64.Sin a) (sin r).
Proof.
  destruct a as [r'| |s|]; intros [Hf <-]; try discriminate;
    split; cbn [F64.value F64.Sin]; try reflexivity.
  symmetry. apply sin_0.
Qed.

Lemma F64_represents_Cos (a : F64.float64) (r : R) :
  F64.represents a r -> F64.represents (F64.Cos a) (cos r).
Proof.
  destruct a as [r'| |s|]; intros [Hf <-]; try discriminate;
    split; cbn [F64.value F64.Cos]; try reflexivity.
  symmetry. apply cos_0.
Qed.

Create HintDb f64 discriminated.
#[local] Hint Resolve F64_represents_Fin F64_represents_neg F64_represents_add
  F64_represents_sub F64_represents_mul F64_represents_Sin F64_represents_Cos : f64.

Lemma F64_Distance_represents (p q : TriTuple) :
  F64.represents (F64.Distance (F64_of_TriTuple p) (F64_of_TriTuple q)) (Distance p q).
Proof.
  unfold F64.Distance, Distance, F64_of_TriTuple. cbv zeta. cbn [F64.x F64.y F64.z].
  apply F64_represents_Sqrt; [apply sum_sqr_nonneg | auto 10 with f64].
Qed.

Lemma F64_DerivateAnglePositionX_represents (atom1 atom2 atom3 : Atom) (theta : R) :
  position atom1 <> position atom2 -> position atom3 <> position atom2 ->
  F64.represents
    (F64.DerivateAnglePositionX (F64_of_Atom atom1) (F64_of_Atom atom2)
       (F64_of_Atom atom3) (F64.Fin theta))
    (DerivateAnglePositionX atom1 atom2 atom3 theta).
Proof.
  intros H12 H32. apply Distance_pos_neq in H12, H32.
  unfold F64.DerivateAnglePositionX, DerivateAnglePositionX.
  cbn [F64_of_Atom F64.position].
  apply F64_represents_mul; [|apply F64_represents_sub; [|apply F64_represents_mul]];
    try (apply F64_represents_div; [lra|..]);
    auto using F64_Distance_represents with f64;
    unfold F64_of_TriTuple; cbn [F64.x]; auto with f64.
Qed.

Lemma F64_DerivateAnglePositionY_represents (atom1 atom2 atom3 : Atom) (theta : R) :
  position atom1 <> position atom2 -> position atom3 <> position atom2 ->
  F64.represents
    (F64.DerivateAnglePositionY (F64_of_Atom atom1) (F64_of_Atom atom2)
       (F64_of_Atom atom3) (F64.Fin theta))
    (DerivateAnglePositionY atom1 atom2 atom3 theta).
Proof.
  intros H12 H32. apply Distance_pos_neq in H12, H32.
  unfold F64.DerivateAnglePositionY, DerivateAnglePositionY.
  cbn [F64_of_Atom F64.position].
  apply F64_represents_mul; [|apply F64_represents_sub; [|apply F64_represents_mul]];
    try (apply F64_represents_div; [lra|..]);
    auto using F64_Distance_represents with f64;
    unfold F64_of_TriTuple; cbn [F64.y]; auto with f64.
Qed.

Lemma F64_DerivateAnglePositionZ_represents (atom1 atom2 atom3 : Atom) (theta : R) :
  position atom1 <> position atom2 -> position atom3 <> position atom2 ->
  F64.represents
    (F64.DerivateAnglePositionZ (F64_of_Atom atom1) (F64_of_Atom atom2)
       (F64_of_Atom atom3) (F64.Fin theta))
    (DerivateAnglePositionZ atom1 atom2 atom3 theta).
Proof.
  intros H12 H32. apply Distance_pos_neq in H12, H32.
  unfold F64.DerivateAnglePositionZ, DerivateAnglePositionZ.
  cbn [F64_of_Atom F64.position].
  apply F64_represents_mul; [|apply F64_represents_sub; [|apply F64_represents_mul]];
    try (apply F64_represents_div; [lra|..]);
    auto using F64_Distance_represents with f64;
    unfold F64_of_TriTuple; cbn [F64.z]; auto with f64.
Qed.

(** The force on the first atom is a number: where the three atoms lie at
    different places and [sin theta] is not zero, [force_i] is finite and is
    the vector that the formula gives over the reals. *)
Lemma CalculateAngleForce_force_i_represents (k theta theta_0 : R)
    (atom1 atom2 atom3 : Atom) :
  position atom1 <> position atom2 -> position atom3 <> position atom2 ->
  sin theta <> 0 ->
  let '(force_i, _, _) :=
    F64.CalculateAngleForce (F64.Fin k) (F64.Fin theta) (F64.Fin theta_0)
      (F64_of_Atom atom1) (F64_of_Atom atom2) (F64_of_Atom atom3) in
  let '(real_i, _, _) := CalculateAngleForce k theta theta_0 atom1 atom2 atom3 in
  F64.represents (F64.x force_i) (x real_i)
  /\ F64.represents (F64.y force_i) (y real_i)
  /\ F64.represents (F64.z force_i) (z real_i).
Proof.
  intros H12 H32 Hsin.
  unfold F64.CalculateAngleForce, CalculateAngleForce. cbv zeta.
  cbn [F64.x F64.y F64.z x y z].
  assert (Hc : F64.represents
                 (F64.mul (F64.mul (F64.Fin k) (F64.sub (F64.Fin theta) (F64.Fin theta_0)))
                    (F64.mul (F64.Fin (-1)) (F64.div (F64.Fin 1) (F64.Sin (F64.Fin theta)))))
                 (k * (theta - theta_0) * (-1 * (1 / sin theta)))).
  { apply F64_represents_mul; [auto with f64|].
    apply F64_represents_mul; [auto with f64|].
    apply F64_represents_div; auto with f64. }
  split; [|split]; apply F64_represents_mul; try exact Hc;
    auto using F64_DerivateAnglePositionX_represents,
      F64_DerivateAnglePositionY_represents, F64_DerivateAnglePositionZ_represents.
Qed.

(** At [k = 2], [theta = PI/2], [theta_0 = 0] and the atoms [(1,0,0)],
    [(0,0,0)], [(0,1,0)], a right angle, the force on the first atom is the
    finite vector [(0, -PI, 0)] (up to the sign of its zeros). *)
Example CalculateAngleForce_right_angle_force_i :
  let '(force_i, _, _) :=
    F64.CalculateAngleForce (F64.Fin 2) (F64.Fin (PI / 2)) (F64.Fin 0)
      (F64_of_Atom (atom_at 1 0 0)) (F64_of_Atom (atom_at 0 0 0))
      (F64_of_Atom (atom_at 0 1 0)) in
  F64.represents (F64.x force_i) 0
  /\ F64.represents (F64.y force_i) (- PI)
  /\ F64.represents (F64.z force_i) 0.
Proof.
  assert (Hne1 : position (atom_at 1 0 0) <> position (atom_at 0 0 0)).
  { intros H. apply (f_equal x) in H. cbn in H. lra. }
  assert (Hne3 : position (atom_at 0 1 0) <> position (atom_at 0 0 0)).
  { intros H. apply (f_equal y) in H. cbn in H. lra. }
  assert (Hsin : sin (PI / 2) <> 0) by (rewrite sin_PI2; lra).
  pose proof (CalculateAngleForce_force_i_represents 2 (PI / 2) 0
                (atom_at 1 0 0) (atom_at 0 0 0) (atom_at 0 1 0) Hne1 Hne3 Hsin) as H.
  unfold CalculateAngleForce in H. cbv zeta in H. cbn [x y z] in H.
  unfold DerivateAnglePositionX, DerivateAnglePositionY, DerivateAnglePositionZ,
    Distance, atom_at in H.
  cbn [x y z position set_position] in H.
  rewrite sin_PI2, cos_PI2 in H.
  rewrite !(sqrt_unit_sum ((1 - 0) * (1 - 0)) ((0 - 0) * (0 - 0)) ((0 - 0) * (0 - 0)))
    in H by ring.
  rewrite !(sqrt_unit_sum ((0 - 0) * (0 - 0)) ((1 - 0) * (1 - 0)) ((0 - 0) * (0 - 0)))
    in H by ring.
  destruct (F64.CalculateAngleForce _ _ _ _ _ _) as [[force_i force_j] force_k].
  destruct H as (Hx & Hy & Hz).
  split; [|split].
  - replace 0 with (2 * (PI / 2 - 0) * (-1 * (1 / 1))
                    * (1 / 1 * ((0 - 0) / 1 - (1 - 0) / 1 * 0))) by field.
    exact Hx.
  - replace (- PI) with (2 * (PI / 2 - 0) * (-1 * (1 / 1))
                         * (1 / 1 * ((1 - 0) / 1 - (0 - 0) / 1 * 0))) by field.
    exact Hy.
  - replace 0 with (2 * (PI / 2 - 0) * (-1 * (1 / 1))
                    * (1 / 1 * ((0 - 0) / 1 - (0 - 0) / 1 * 0))) by field.
    exact Hz.
Qed.
